(** * Moisture assimilation: kriging estimators, mean-field model and
      online variance estimators

    A shallow embedding of the numerical core of the prototype
    ([kriging_methods.py], [mean_field_model.py] and the
    [OnlineVarianceEstimator] class and assimilation step of
    [run_spatial_model_v1.py]).

    Conventions of the embedding.
    - A Python/numpy floating-point number is idealised as a real number
      ([R]); rounding is not modelled.  A quotient whose divisor is zero is
      no real number: numpy yields [inf] or [nan] for it (with a warning)
      and plain Python floats raise [ZeroDivisionError]; see [npfloat].
    - A numpy array over the model grid is the list of its entries in C
      order, and a grid index (the tuple produced by [np.ndindex], or an
      observation's nearest grid point) is the offset of the entry in that
      list.  The code never inspects the components of an index.
    - Exceptions are values of [exn]; a function that may raise returns
      a [result].
    - The diagnostics sink is write-only for this code and is left out;
      of the values pushed to it only the call that can raise is kept
      ([linalg_cond]).
    - [great_circle_distance] and [construct_spatial_correlation_matrix2]
      belong to [spatial_model_utilities].  The kriging functions take the
      distance as a parameter; the examples instantiate it with the
      great-circle distance on a sphere ([great_circle_distance_on], with
      the radius as a parameter; [great_circle_distance_km] for 6371 km).
      [kriging_methods.py] imports the first name only: the binding of the
      second is a parameter too, [as_given] for the module as it is
      (the call raises [NameError]) and [with_import] for the module with
      the name imported.
    - Matrices of the examples have rational entries; their products are
      computed on integer numerators over a common denominator
      ([ratio_matrix]). *)

From Stdlib Require Import Reals List Lra Lia Arith ZArith Bool Permutation.
From Stdlib Require Import ClassicalEpsilon.
From Bignums Require BigZ.
Import ListNotations.

Open Scope R_scope.

(* ------------------------------------------------------------------ *)
(** * Exceptions *)

Inductive exn : Type :=
| IndexError
| ValueError
| LinAlgError
| NameError.

Inductive result (A : Type) : Type :=
| Ok (a : A)
| Raise (e : exn).

Arguments Ok {A} a.
Arguments Raise {A} e.

Definition bind {A B : Type} (c : result A) (k : A -> result B) : result B :=
  match c with
  | Ok a => k a
  | Raise e => Raise e
  end.

Notation "x <- c ;; k" := (bind c (fun x => k))
  (at level 61, c at next level, right associativity).

Notation "' pat <- c ;; k" := (bind c (fun x => match x with pat => k end))
  (at level 61, pat pattern, c at next level, right associativity).

(** [for x in l: acc = f(acc, x)] where the body may raise. *)
Fixpoint foldM {A S : Type} (f : S -> A -> result S) (l : list A) (s : S)
  : result S :=
  match l with
  | [] => Ok s
  | x :: l' => s' <- f s x ;; foldM f l' s'
  end.

(** [[f(x) for x in l]] where [f] may raise. *)
Fixpoint mapM {A B : Type} (f : A -> result B) (l : list A) : result (list B) :=
  match l with
  | [] => Ok []
  | x :: l' => y <- f x ;; ys <- mapM f l' ;; Ok (y :: ys)
  end.

(* ------------------------------------------------------------------ *)
(** * Numbers and arrays *)

(** The value of a floating-point expression: a real number, or one of the
    non-finite values [inf], [-inf], [nan]. *)
Inductive npfloat : Type :=
| Finite (x : R)
| NonFinite.

(** [a / b] on numpy floats. *)
Definition np_div (a b : R) : npfloat :=
  if Req_dec_T b 0 then NonFinite else Finite (a / b).

(** A finite operand combined with a possibly non-finite one by [+] or [*]:
    the result is non-finite as soon as the operand is. *)
Definition np_lift (f : R -> R) (x : npfloat) : npfloat :=
  match x with
  | Finite r => Finite (f r)
  | NonFinite => NonFinite
  end.

Definition ndarray : Type := list R.

(** [a[p]] *)
Definition getitem {A : Type} (a : list A) (p : nat) : result A :=
  match nth_error a p with
  | Some x => Ok x
  | None => Raise IndexError
  end.

Fixpoint replace_nth {A : Type} (a : list A) (p : nat) (v : A) : list A :=
  match a, p with
  | [], _ => []
  | _ :: a', O => v :: a'
  | x :: a', S p' => x :: replace_nth a' p' v
  end.

(** [a[p] = v] *)
Definition setitem {A : Type} (a : list A) (p : nat) (v : A) : result (list A) :=
  if p <? length a then Ok (replace_nth a p v) else Raise IndexError.

(** [np.zeros_like(a)] *)
Definition zeros_like (a : ndarray) : ndarray := map (fun _ => 0) a.

(** [np.ndindex(a.shape)] *)
Definition ndindex (a : ndarray) : list nat := seq 0 (length a).

(** [np.sum(a)] *)
Definition np_sum (a : ndarray) : R := fold_right Rplus 0 a.

Definition map2 {A B C : Type} (f : A -> B -> C) (a : list A) (b : list B)
  : list C :=
  map (fun xy => f (fst xy) (snd xy)) (combine a b).

(** An elementwise binary operation on two arrays of one shape; numpy raises
    [ValueError] when the shapes cannot be matched. *)
Definition elementwise (f : R -> R -> R) (a b : ndarray) : result ndarray :=
  if length a =? length b then Ok (map2 f a b) else Raise ValueError.

(** [np.dot(u, v)] for one-dimensional arrays. *)
Definition dot (u v : ndarray) : R := np_sum (map2 Rmult u v).

(* ------------------------------------------------------------------ *)
(** * OnlineVarianceEstimator ([run_spatial_model_v1.py]) *)

(** The estimator is written once and used with scalars and with arrays;
    the operations it needs from its samples are those of [Numeric]. *)
Class Numeric (X : Type) : Type := {
  nsub : X -> X -> result X;
  nadd : X -> X -> result X;
  nmul : X -> X -> result X;
  ndivs : X -> R -> X
}.

#[export] Instance Numeric_scalar : Numeric R := {
  nsub x y := Ok (x - y);
  nadd x y := Ok (x + y);
  nmul x y := Ok (x * y);
  ndivs x c := x / c
}.

#[export] Instance Numeric_array : Numeric ndarray := {
  nsub := elementwise Rminus;
  nadd := elementwise Rplus;
  nmul := elementwise Rmult;
  ndivs a c := map (fun x => x / c) a
}.

Module OnlineVarianceEstimator.

(** [__init__(self, imean, ivar, iN)] is the constructor [init]. *)
Record t (X : Type) : Type := init {
  mean : X;
  M2 : X;
  N : nat
}.

Arguments init {X} _ _ _.
Arguments mean {X} _.
Arguments M2 {X} _.
Arguments N {X} _.

Section Methods.

Context {X : Type} `{Numeric X}.

Definition update_with (self : t X) (ndata : X) : result (t X) :=
  let N' := (N self + 1)%nat in
  delta <- nsub ndata (mean self) ;;
  mean' <- nadd (mean self) (ndivs delta (INR N')) ;;
  d <- nsub ndata mean' ;;
  dd <- nmul delta d ;;
  M2' <- nadd (M2 self) dd ;;
  Ok (init mean' M2' N').

(** [self.M2 / (self.N - 1)]: no value when [N = 1]. *)
Definition get_variance (self : t X) : option X :=
  let d := IZR (Z.of_nat (N self) - 1) in
  if Req_dec_T d 0 then None else Some (ndivs (M2 self) d).

Definition get_mean (self : t X) : X := mean self.

(** A seeded estimator fed the samples [xs] in order. *)
Definition run (seed : t X) (xs : list X) : result (t X) :=
  foldM update_with xs seed.

End Methods.

End OnlineVarianceEstimator.

(** ** The two-pass (batch) statistics the estimator is compared with *)

Definition batch_mean (xs : list R) : R := np_sum xs / INR (length xs).

Definition batch_variance (xs : list R) : R :=
  let m := batch_mean xs in
  np_sum (map (fun x => (x - m) * (x - m)) xs) / (INR (length xs) - 1).

(** The [j]-th entries of a sequence of arrays. *)
Definition column (j : nat) (xs : list ndarray) : list R :=
  map (fun a => nth j a 0) xs.

(* ------------------------------------------------------------------ *)
(** * Correlation kernel ([kriging_methods.py], the expression for [cc]) *)

Definition correlation (d_km : R) : R := Rmax (0.8565 - 0.0063 * d_km) 0.

(* ------------------------------------------------------------------ *)
(** * Matrices ([np.matrix]) *)

(** A matrix is the list of its rows. *)
Definition matrix : Type := list (list R).

Definition ncols (A : matrix) : nat := length (hd [] A).

(** Every row of [A] has [m] entries. *)
Definition rows (m : nat) (A : matrix) : Prop :=
  Forall (fun r => length r = m) A.

(** [A] has shape [(n, m)]. *)
Definition is_mat (n m : nat) (A : matrix) : Prop :=
  length A = n /\ rows m A.

(** The [j]-th column of [A]. *)
Definition col (j : nat) (A : matrix) : ndarray := map (fun r => nth j r 0) A.

Definition vadd (u v : ndarray) : ndarray := map2 Rplus u v.

Definition vscale (c : R) (v : ndarray) : ndarray := map (Rmult c) v.

(** The combination of the rows of [A], each of length [m], with the
    coefficients [v]. *)
Definition lincomb (m : nat) (v : ndarray) (A : matrix) : ndarray :=
  fold_right (fun xr acc => vadd (vscale (fst xr) (snd xr)) acc)
             (repeat 0 m) (combine v A).

(** [np.dot(v, A)] for a one-dimensional [v]: entry [j] is the sum over [i]
    of [v[i] * A[i, j]], that is, the combination of the rows of [A] with
    the coefficients [v]. *)
Definition vecmat (v : ndarray) (A : matrix) : ndarray :=
  lincomb (ncols A) v A.

(** [A * B] for operands whose shapes agree. *)
Definition matmul (A B : matrix) : matrix := map (fun r => vecmat r B) A.

(** [A * B] on [np.matrix] operands: [ValueError] unless the number of
    columns of [A] is the number of rows of [B]. *)
Definition np_matmul (A B : matrix) : result matrix :=
  if ncols A =? length B then Ok (matmul A B) else Raise ValueError.

(** [A + B] for two matrices of one shape. *)
Definition np_matadd (A B : matrix) : result matrix :=
  if (length A =? length B) && (ncols A =? ncols B)
  then Ok (map2 vadd A B) else Raise ValueError.

(** [A - B] for two matrices of one shape. *)
Definition matsub (A B : matrix) : matrix := map2 (map2 Rminus) A B.

(** [A.T] *)
Definition transpose (A : matrix) : matrix :=
  map (fun j => col j A) (seq 0 (ncols A)).

(** [np.diag(v)] for a one-dimensional [v]. *)
Definition np_diag (v : ndarray) : matrix :=
  map (fun i => map (fun j => if i =? j then nth i v 0 else 0)
                    (seq 0 (length v)))
      (seq 0 (length v)).

Definition eye (n : nat) : matrix := np_diag (repeat 1 n).

(** [np.asmatrix(v).T]: a one-dimensional array as a column. *)
Definition as_column (v : ndarray) : matrix := map (fun x => [x]) v.

(** [A[i, j]] *)
Definition getitem2 (A : matrix) (i j : nat) : result R :=
  r <- getitem A i ;; getitem r j.

(** [B] is the inverse of the square matrix [A]. *)
Definition is_inverse (A B : matrix) : Prop :=
  is_mat (length A) (length A) A /\ is_mat (length A) (length A) B /\
  matmul A B = eye (length A) /\ matmul B A = eye (length A).

Definition invertible (A : matrix) : Prop := exists B, is_inverse A B.

(** [np.linalg.inv(A)], by its contract: the inverse of [A], and
    [LinAlgError] for a matrix that has none. *)
Definition linalg_inv (A : matrix) : result matrix :=
  match excluded_middle_informative (invertible A) with
  | left H => Ok (proj1_sig (constructive_indefinite_description _ H))
  | right _ => Raise LinAlgError
  end.

(** [np.linalg.cond(A)]: the condition number goes to the diagnostics sink
    and is not modelled; numpy raises [LinAlgError] for an empty matrix. *)
Definition linalg_cond (A : matrix) : result unit :=
  match A with
  | [] => Raise LinAlgError
  | _ :: _ => Ok tt
  end.

(** [np.mean(a)] *)
Definition np_mean (a : ndarray) : npfloat := np_div (np_sum a) (INR (length a)).

(* ------------------------------------------------------------------ *)
(** * Observations and model data (interfaces of the collaborators) *)

(** What the code reads of an observation. *)
Record Observation : Type := {
  get_value : R;
  get_position : R * R;
  get_nearest_grid_point : nat;
  get_measurement_variance : R
}.

(** What the code reads of the gridded model data. *)
Record WRFModelData : Type := {
  get_lons : ndarray;
  get_lats : ndarray
}.

(** An observation of value 1 and measurement variance 0.1 at longitude 0,
    latitude 0, whose nearest grid point is the first cell. *)
Definition obs_at_origin : Observation :=
  {| get_value := 1;
     get_position := (0, 0);
     get_nearest_grid_point := 0;
     get_measurement_variance := 0.1 |}.

(** The background field sampled at the observations' nearest grid points
    (for indices inside the grid). *)
Definition sampled (E : ndarray) (obs_list : list Observation) : ndarray :=
  map (fun obs => nth (get_nearest_grid_point obs) E 0) obs_list.

(* ------------------------------------------------------------------ *)
(** * MeanFieldModel ([mean_field_model.py]) *)

Module MeanFieldModel.

Record t : Type := { gamma : npfloat }.

(** [__init__] *)
Definition init : t := {| gamma := Finite 1 |}.

Definition fit_to_data (self : t) (E : ndarray) (obs_list : list Observation)
  : result t :=
  let grid_pts := map get_nearest_grid_point obs_list in
  let obsv := map get_value obs_list in
  modv <- mapM (getitem E) grid_pts ;;
  let weights := map (fun _ => 1) obs_list in
  Ok {| gamma :=
          np_div (np_sum (map2 Rmult (map2 Rmult weights modv) obsv))
                 (np_sum (map2 Rmult weights (map (fun x => x ^ 2) modv))) |}.

Definition predict_field (self : t) (E : ndarray) : list npfloat :=
  map (fun e => np_lift (fun g => g * e) (gamma self)) E.

End MeanFieldModel.

(* ------------------------------------------------------------------ *)
(** * Kriging methods ([kriging_methods.py]) *)

Section Kriging.

(** [great_circle_distance(lon1, lat1, lon2, lat2)] of
    [spatial_model_utilities], in kilometres; the module is a collaborator
    of this code, and the distance is a parameter of the embedding. *)
Variable great_circle_distance : R -> R -> R -> R -> R.

(** Modelled from the spec: [construct_spatial_correlation_matrix2] of
    [spatial_model_utilities], which is called here and defined elsewhere.
    For N stations, C[i][j] = correlation(distance(station_i, station_j)). *)
Definition construct_spatial_correlation_matrix2 (station_lonlat : list (R * R))
  : matrix :=
  map (fun s1 =>
         map (fun s2 =>
                correlation (great_circle_distance (fst s1) (snd s1)
                                                   (fst s2) (snd s2)))
             station_lonlat)
      station_lonlat.

(** What a global name of the module is bound to when a function of the
    module looks it up: nothing ([None]), or a function. *)
Definition binding : Type := option (list (R * R) -> matrix).

(** [kriging_methods.py] as given: its only import from
    [spatial_model_utilities] is [great_circle_distance] (line 2), and it
    defines no [construct_spatial_correlation_matrix2], so the name that
    lines 38 and 94 call is not bound. *)
Definition as_given : binding := None.

(** The module with [construct_spatial_correlation_matrix2] bound to the
    function above, as its import in line 2 would bind it. *)
Definition with_import : binding := Some construct_spatial_correlation_matrix2.

(** The binding of [construct_spatial_correlation_matrix2] in the module
    at the time of the call. *)
Variable correlation_matrix_name : binding.

(** [C = np.asmatrix(construct_spatial_correlation_matrix2(station_lonlat))],
    which raises [NameError] when the name is not bound, and then
    [Sigma = oS.T * C * oS + np.diag(measV)] with [oS = np.diag(obs_stds)]. *)
Definition covariance_matrix (station_lonlat : list (R * R))
  (obs_stds measV : ndarray) : result matrix :=
  match correlation_matrix_name with
  | None => Raise NameError
  | Some construct =>
      let C := construct station_lonlat in
      let oS := np_diag obs_stds in
      A1 <- np_matmul (transpose oS) C ;;
      A2 <- np_matmul A1 oS ;;
      np_matadd A2 (np_diag measV)
  end.

(** The inner loop over [k in range(Nobs)] that fills [cov] for the grid
    point [p]. *)
Definition covariance_array (mlons mlats mod_stds obs_stds : ndarray)
  (station_lonlat : list (R * R)) (Nobs p : nat) : result ndarray :=
  mapM (fun k =>
          lonlat <- getitem station_lonlat k ;;
          lonp <- getitem mlons p ;;
          latp <- getitem mlats p ;;
          let cc := correlation
                      (great_circle_distance lonp latp (fst lonlat) (snd lonlat)) in
          sp <- getitem mod_stds p ;;
          sk <- getitem obs_stds k ;;
          Ok (sp * cc * sk))
       (seq 0 Nobs).

(** One pass of a loop [for p in np.ndindex(K.shape)] whose body assigns
    [K[p]] and then [V[p]]. *)
Definition assign2 {A : Type} (point : nat -> result (A * A))
  (KV : list A * list A) (p : nat) : result (list A * list A) :=
  kv <- point p ;;
  K' <- setitem (fst KV) p (fst kv) ;;
  V' <- setitem (snd KV) p (snd kv) ;;
  Ok (K', V').

(** The values simple kriging assigns to [K[p]] and [V[p]]. *)
Definition simple_kriging_point (mlons mlats mu_mod mod_stds obs_stds : ndarray)
  (station_lonlat : list (R * R)) (SigInv : matrix) (res_obs : ndarray)
  (Nobs p : nat) : result (R * R) :=
  cov <- covariance_array mlons mlats mod_stds obs_stds station_lonlat Nobs p ;;
  let csi := vecmat cov SigInv in
  mu_p <- getitem mu_mod p ;;
  sp <- getitem mod_stds p ;;
  Ok (mu_p + dot csi res_obs, sp ^ 2 - dot csi cov).

Definition simple_kriging_data_to_model (obs_data : list Observation)
  (obs_stds mu_mod : ndarray) (wrf_data : WRFModelData) (mod_stds : ndarray)
  (t : nat) : result (ndarray * ndarray) :=
  let mlons := get_lons wrf_data in
  let mlats := get_lats wrf_data in
  let V := zeros_like mlons in
  let Nobs := length obs_data in
  (* the loop over the observations *)
  let obs_vals := map get_value obs_data in
  let station_lonlat := map get_position obs_data in
  mu_obs <- mapM (fun obs => getitem mu_mod (get_nearest_grid_point obs)) obs_data ;;
  let measV := map get_measurement_variance obs_data in
  let res_obs := map2 Rminus obs_vals mu_obs in
  Sigma <- covariance_matrix station_lonlat obs_stds measV ;;
  SigInv <- linalg_inv Sigma ;;
  _ <- linalg_cond Sigma ;;
  let K := zeros_like mlats in
  foldM (assign2 (simple_kriging_point mlons mlats mu_mod mod_stds obs_stds
                                       station_lonlat SigInv res_obs Nobs))
        (ndindex K) (K, V).

(** [obs_vals - mu_obs] with [obs_vals] an N x 1 matrix and [mu_obs] a
    one-dimensional array of length N: numpy broadcasts the operands to
    N x N, entry [(i, j)] being [obs_vals[i, 0] - mu_obs[j]]. *)
Definition broadcast_sub (col : matrix) (row : ndarray) : matrix :=
  map (fun ci => map (fun rj => hd 0 ci - rj) row) col.

(** The values universal kriging assigns to [K[p]] and [V[p]]; [xsx_1] is
    the only operand that may be non-finite. *)
Definition universal_kriging_point (mlons mlats mu_mod mod_stds obs_stds : ndarray)
  (station_lonlat : list (R * R)) (SigInv obs_vals xs : matrix)
  (xsx_1 : npfloat) (Nobs p : nat) : result (npfloat * npfloat) :=
  cov1 <- covariance_array mlons mlats mod_stds obs_stds station_lonlat Nobs p ;;
  let cov := as_column cov1 in
  mu_p <- getitem mu_mod p ;;
  sp <- getitem mod_stds p ;;
  xc <- getitem2 (matmul xs cov) 0 0 ;;
  cSy <- getitem2 (matmul (matmul (transpose cov) SigInv) obs_vals) 0 0 ;;
  cSc <- getitem2 (matmul (matmul (transpose cov) SigInv) cov) 0 0 ;;
  let tmp := mu_p - cSy in
  Ok (np_lift (fun x =>
                 let csi :=
                   matmul SigInv
                     (matsub cov
                        (matmul (matmul obs_vals [[x]]) [[xc - mu_p]])) in
                 nth 0 (nth 0 (matmul (transpose csi) obs_vals) []) 0) xsx_1,
      np_lift (fun x => sp ^ 2 - cSc + tmp * x * tmp) xsx_1).

Definition universal_kriging_data_to_model (obs_data : list Observation)
  (obs_stds m : ndarray) (wrf_data : WRFModelData) (mod_stds : ndarray)
  (t : nat) : result (list npfloat * list npfloat * R * npfloat) :=
  let mlons := get_lons wrf_data in
  let mlats := get_lats wrf_data in
  let V := map Finite (zeros_like mlons) in
  let Nobs := length obs_data in
  (* the loop over the observations *)
  let station_lonlat := map get_position obs_data in
  let measV := map get_measurement_variance obs_data in
  m_pred1 <- mapM (fun obs => getitem m (get_nearest_grid_point obs)) obs_data ;;
  (* column vectors *)
  let m_pred := as_column m_pred1 in
  let obs_vals := as_column (map get_value obs_data) in
  Sigma <- covariance_matrix station_lonlat obs_stds measV ;;
  SigInv <- linalg_inv Sigma ;;
  (* the fixed part of the model *)
  G <- linalg_inv (matmul (matmul (transpose m_pred) SigInv) m_pred) ;;
  gamma <- getitem2
             (matmul (matmul (matmul G (transpose m_pred)) SigInv) obs_vals) 0 0 ;;
  let mu_mod := map (fun x => x * gamma) m in
  mu_obs <- mapM (fun obs => getitem mu_mod (get_nearest_grid_point obs)) obs_data ;;
  (* residuals and their mean absolute value *)
  let res_obs := transpose (broadcast_sub obs_vals mu_obs) in
  let mape := np_mean (map Rabs (concat res_obs)) in
  _ <- linalg_cond Sigma ;;
  let xs := matmul (transpose obs_vals) SigInv in
  xsx <- getitem2 (matmul xs obs_vals) 0 0 ;;
  let xsx_1 := np_div 1 xsx in
  let K := map Finite (zeros_like mlats) in
  KV <- foldM (assign2 (universal_kriging_point mlons mlats mu_mod mod_stds
                          obs_stds station_lonlat SigInv obs_vals xs xsx_1 Nobs))
              (seq 0 (length K)) (K, V) ;;
  Ok (fst KV, snd KV, gamma, mape).

(** One pass of a loop [for pos in np.ndindex(V.shape)] whose body assigns
    [V[pos]]. *)
Definition assign1 {A : Type} (point : nat -> result A)
  (V : list A) (pos : nat) : result (list A) :=
  v <- point pos ;; setitem V pos v.

Definition trend_surface_model_kriging (obs_data : list Observation)
  (wrf_data : WRFModelData) (mu_mod : ndarray)
  : result (ndarray * list npfloat) :=
  let Nobs := length obs_data in
  let V := map Finite (zeros_like mu_mod) in
  mu_obs <- mapM (fun obs => getitem mu_mod (get_nearest_grid_point obs)) obs_data ;;
  obs0 <- getitem obs_data 0 ;;
  let sigma2 := get_measurement_variance obs0 in
  (* K[:] = mu_mod *)
  let K := mu_mod in
  let XtX_1 := np_div 1 (np_sum (map2 Rmult mu_obs mu_obs)) in
  V' <- foldM (assign1 (fun pos =>
                          mu_p <- getitem mu_mod pos ;;
                          Ok (np_lift (fun x => sigma2 * (1 + mu_p * x * mu_p))
                                      XtX_1)))
              (seq 0 (length V)) V ;;
  Ok (K, V').

(* ------------------------------------------------------------------ *)
(** * The assimilation step of [run_module] ([run_spatial_model_v1.py]) *)

(** The arguments of one call [models[pos].kalman_update(K[pos], V[pos], 1)];
    the cell model is a collaborator, and the step is observed by the calls
    it makes. *)
Record KalmanCall : Type := {
  call_pos : nat;
  call_K : R;
  call_V : R;
  call_fuel : nat
}.

(** [for pos in np.ndindex(dom_shape): Kg[pos] = models[pos].kalman_update(...)] *)
Definition kalman_updates (K V : ndarray) (dom : list nat)
  : result (list KalmanCall) :=
  mapM (fun pos =>
          k <- getitem K pos ;;
          v <- getitem V pos ;;
          Ok {| call_pos := pos; call_K := k; call_V := v; call_fuel := 1 |})
       dom.

(** The body of [if model_time in obs_data:], with the square roots of the
    variance estimates already taken. *)
Definition krige_and_update (obs_data : list Observation)
  (obs_stds Efit : ndarray) (wrf_data : WRFModelData) (mod_stds : ndarray)
  (t : nat) (dom : list nat) : result (list KalmanCall) :=
  KV <- simple_kriging_data_to_model obs_data obs_stds Efit wrf_data mod_stds t ;;
  kalman_updates (fst KV) (snd KV) dom.

End Kriging.

(* ------------------------------------------------------------------ *)
(** * Simple kriging as the specification words it *)

Section SimpleKrigingSpec.

Variable distance : R -> R -> R -> R -> R.
Variable obs_data : list Observation.
Variable obs_stds mu_mod : ndarray.
Variable wrf_data : WRFModelData.
Variable mod_stds : ndarray.

(** Sigma = diag(sigma_obs)^T . C . diag(sigma_obs) + diag(measurement
    variance), over the stations of the observations. *)
Definition spec_Sigma : matrix :=
  map2 vadd
    (matmul (matmul (transpose (np_diag obs_stds))
                    (construct_spatial_correlation_matrix2
                       distance (map get_position obs_data)))
            (np_diag obs_stds))
    (np_diag (map get_measurement_variance obs_data)).

(** r_i = value_i - mu[nearest grid index of observation i] *)
Definition spec_residuals : ndarray :=
  map2 Rminus (map get_value obs_data) (sampled mu_mod obs_data).

(** c_k = sigma_mod[p] . correlation(dist(p, station_k)) . sigma_obs[k] *)
Definition spec_cov (p : nat) : ndarray :=
  map (fun k =>
         nth p mod_stds 0
         * correlation (distance (nth p (get_lons wrf_data) 0)
                                 (nth p (get_lats wrf_data) 0)
                                 (fst (get_position (nth k obs_data obs_at_origin)))
                                 (snd (get_position (nth k obs_data obs_at_origin))))
         * nth k obs_stds 0)
      (seq 0 (length obs_data)).

(** K[p] = mu[p] + w.r with w = c^T Sigma^-1 *)
Definition spec_K (SigInv : matrix) (p : nat) : R :=
  nth p mu_mod 0 + dot (vecmat (spec_cov p) SigInv) spec_residuals.

(** V[p] = sigma_mod[p]^2 - w.c *)
Definition spec_V (SigInv : matrix) (p : nat) : R :=
  nth p mod_stds 0 ^ 2 - dot (vecmat (spec_cov p) SigInv) (spec_cov p).

End SimpleKrigingSpec.

(* ------------------------------------------------------------------ *)
(** * Notions used to state and prove the properties *)

(** [sum(x * x for x in l)] *)
Definition sum_sq (l : list R) : R := np_sum (map (fun x => x * x) l).

(** What a scalar estimator holds after the samples [l]: their number,
    their mean, and their sum of squared deviations from the mean. *)
Definition tracks (e : OnlineVarianceEstimator.t R) (l : list R) : Prop :=
  OnlineVarianceEstimator.N e = length l /\
  OnlineVarianceEstimator.mean e * INR (length l) = np_sum l /\
  OnlineVarianceEstimator.M2 e
  = sum_sq l - INR (length l)
               * (OnlineVarianceEstimator.mean e * OnlineVarianceEstimator.mean e).

(** The scalar estimator on the entry [j] of an array estimator. *)
Definition entry (j : nat) (e : OnlineVarianceEstimator.t ndarray)
  : OnlineVarianceEstimator.t R :=
  OnlineVarianceEstimator.init
    (nth j (OnlineVarianceEstimator.mean e) 0)
    (nth j (OnlineVarianceEstimator.M2 e) 0)
    (OnlineVarianceEstimator.N e).

(** Whether the nearest grid point of every observation is an index of
    the field [E]: the loop over the observations reads [E] there. *)
Definition observations_inside (E : ndarray) (obs_list : list Observation)
  : bool :=
  forallb (fun obs => (get_nearest_grid_point obs <? length E)%nat) obs_list.

(** An array estimator whose mean and [M2] have [len] entries. *)
Definition shaped (len : nat) (e : OnlineVarianceEstimator.t ndarray) : Prop :=
  length (OnlineVarianceEstimator.mean e) = len /\
  length (OnlineVarianceEstimator.M2 e) = len.


(* ------------------------------------------------------------------ *)
(** * Example inputs *)

(** A one-cell grid whose background value is zero; the nearest grid point
    of [obs_at_origin] is that cell. *)
Definition zero_field : ndarray := [0].


(** Two grid cells with background values 2 and 3, and one observation in
    each, twice the background. *)
Definition two_cell_field : ndarray := [2; 3].

Definition obs_cell0 : Observation :=
  {| get_value := 4;
     get_position := (0, 0);
     get_nearest_grid_point := 0;
     get_measurement_variance := 0.1 |}.

Definition obs_cell1 : Observation :=
  {| get_value := 6;
     get_position := (1, 0);
     get_nearest_grid_point := 1;
     get_measurement_variance := 0.1 |}.

(** Model data over a one-cell grid at longitude 0, latitude 0. *)
Definition one_cell_grid : WRFModelData :=
  {| get_lons := [0]; get_lats := [0] |}.

(** A one-cell grid whose background value is 0.2. *)
Definition flat_field : ndarray := [0.2].

(** Two grid cells on the equator, two degrees of longitude (222 km) apart,
    with background values 1 and 2, and one observation in each cell whose
    value is the background value: the trend gamma = 1 fits both exactly. *)
Definition two_cell_grid : WRFModelData :=
  {| get_lons := [0; 2]; get_lats := [0; 0] |}.

Definition trend_field : ndarray := [1; 2].

Definition obs_east : Observation :=
  {| get_value := 2;
     get_position := (2, 0);
     get_nearest_grid_point := 1;
     get_measurement_variance := 0.1 |}.

(** The mean over all pairs (i, j) of |y_j - gamma * m_i|. *)
Definition pairwise_mean_abs (gamma : R) (ms ys : ndarray) : R :=
  np_sum (map (fun mi => np_sum (map (fun yj => Rabs (yj - mi * gamma)) ys)) ms)
  / INR (length ms * length ys).

(** The mean over the observations i of |y_i - gamma * m_i|. *)
Definition mean_abs_residual (gamma : R) (ms ys : ndarray) : R :=
  np_sum (map2 (fun mi yi => Rabs (yi - gamma * mi)) ms ys) / INR (length ys).

(** The trend coefficient as universal kriging computes it from the inverse
    [SigInv], the background samples [ms] and the observed values [ys]:
    ((inv(m^T SigInv m) m^T) SigInv) y. *)
Definition gls_gamma (SigInv : matrix) (ms ys : ndarray) : R :=
  dot (vecmat (vscale (1 / dot (vecmat ms SigInv) ms) ms) SigInv) ys.


(* ------------------------------------------------------------------ *)
(** * Great-circle distance and a network of stations on two great circles *)

(** Modelled from the spec: [great_circle_distance] of
    [spatial_model_utilities], which is called by the kriging loops and
    defined elsewhere: the great-circle distance in kilometres between two
    (lon, lat) pairs given in degrees, that is the radius of the sphere
    times the central angle, by the spherical law of cosines.  The spec
    names no radius: it is a parameter here. *)
Definition great_circle_distance_on (radius lon1 lat1 lon2 lat2 : R) : R :=
  let rlat1 := PI * lat1 / 180 in
  let rlat2 := PI * lat2 / 180 in
  let rlon1 := PI * lon1 / 180 in
  let rlon2 := PI * lon2 / 180 in
  radius * acos (sin rlat1 * sin rlat2
                 + cos rlat1 * cos rlat2 * cos (rlon1 - rlon2)).

(** The distance on a sphere of radius 6371 km (the mean radius of the
    Earth), which the examples use. *)
Definition great_circle_distance_km : R -> R -> R -> R -> R :=
  great_circle_distance_on 6371.








(** ** Exact arithmetic on integer matrices with a common denominator *)















(** ** A cross-shaped network *)













(* ------------------------------------------------------------------ *)
(** * Notions used to state further properties of the code *)

(** What a scalar estimator constructed with [__init__(m0, v0, N0)] holds
    after the samples [l]: the prior counts as [N0] samples at [m0] whose
    squared deviations sum to [v0]. *)
Definition tracks_from (m0 v0 : R) (N0 : nat)
  (e : OnlineVarianceEstimator.t R) (l : list R) : Prop :=
  OnlineVarianceEstimator.N e = (N0 + length l)%nat /\
  OnlineVarianceEstimator.mean e * INR (N0 + length l)
  = INR N0 * m0 + np_sum l /\
  OnlineVarianceEstimator.M2 e
  = v0 + sum_sq l + INR N0 * (m0 * m0)
    - INR (N0 + length l)
      * (OnlineVarianceEstimator.mean e * OnlineVarianceEstimator.mean e).

(** The sum over the observations of the squared residuals against the
    background [E] scaled by [g], sampled at the nearest grid points. *)
Definition squared_residuals (g : R) (E : ndarray)
  (obs_list : list Observation) : R :=
  np_sum (map (fun obs =>
                 (get_value obs - g * nth (get_nearest_grid_point obs) E 0) ^ 2)
              obs_list).

(** The inputs of a kriging call fit together: there is an observation,
    there is one standard deviation per observation, the fields have the
    shape of the grid, and every nearest grid point is a point of the
    grid. *)
Definition kriging_inputs (obs_data : list Observation)
  (obs_stds mu_mod : ndarray) (wrf_data : WRFModelData) (mod_stds : ndarray)
  : Prop :=
  obs_data <> [] /\
  length obs_stds = length obs_data /\
  length (get_lons wrf_data) = length (get_lats wrf_data) /\
  length mu_mod = length (get_lats wrf_data) /\
  length mod_stds = length (get_lats wrf_data) /\
  Forall (fun obs => (get_nearest_grid_point obs < length mu_mod)%nat) obs_data.

(** An observation of value 1 at longitude 0, latitude 0, measured without
    error. *)
Definition obs_exact : Observation :=
  {| get_value := 1;
     get_position := (0, 0);
     get_nearest_grid_point := 0;
     get_measurement_variance := 0 |}.

(** An observation of value 0 and measurement variance 0.1 at longitude 0,
    latitude 0. *)
Definition obs_zero : Observation :=
  {| get_value := 0;
     get_position := (0, 0);
     get_nearest_grid_point := 0;
     get_measurement_variance := 0.1 |}.
(* ================================================================== *)
(** * Verification *)

(** ** Results and lists *)

Lemma getitem_Ok {A : Type} (a : list A) (p : nat) (d : A) :
  (p < length a)%nat -> getitem a p = Ok (nth p a d).
Proof.
  intros Hp. unfold getitem. now rewrite (nth_error_nth' a d Hp).
Qed.

Lemma getitem_Raise {A : Type} (a : list A) (p : nat) :
  (length a <= p)%nat -> getitem a p = Raise IndexError.
Proof.
  intros Hp. unfold getitem.
  now rewrite (proj2 (nth_error_None a p) Hp).
Qed.

Lemma mapM_Ok {A B : Type} (f : A -> result B) (g : A -> B) (l : list A) :
  (forall x, In x l -> f x = Ok (g x)) -> mapM f l = Ok (map g l).
Proof.
  induction l as [|x l IH]; intros Hf; simpl.
  - reflexivity.
  - rewrite (Hf x (or_introl eq_refl)). simpl.
    rewrite IH by (intros y Hy; apply Hf; now right). reflexivity.
Qed.

Lemma length_map2 {A B C : Type} (f : A -> B -> C) (a : list A) (b : list B) :
  length (map2 f a b) = Nat.min (length a) (length b).
Proof. unfold map2. now rewrite length_map, length_combine. Qed.

Lemma nth_map2 {A B C : Type} (f : A -> B -> C) (a : list A) (b : list B)
  (j : nat) (da : A) (db : B) (dc : C) :
  (j < length a)%nat -> (j < length b)%nat ->
  nth j (map2 f a b) dc = f (nth j a da) (nth j b db).
Proof.
  revert b j. induction a as [|x a IH]; intros [|y b] [|j] Ha Hb;
    simpl in *; try lia; trivial.
  apply IH; lia.
Qed.

Lemma nth_map_lt {A B : Type} (f : A -> B) (l : list A) (j : nat)
  (da : A) (db : B) :
  (j < length l)%nat -> nth j (map f l) db = f (nth j l da).
Proof.
  revert j. induction l as [|x l IH]; intros [|j] Hj; simpl in *;
    try lia; trivial.
  apply IH. lia.
Qed.

Lemma list_ext_nth {A : Type} (d : A) (l1 l2 : list A) :
  length l1 = length l2 ->
  (forall j, (j < length l1)%nat -> nth j l1 d = nth j l2 d) -> l1 = l2.
Proof.
  revert l2. induction l1 as [|x l1 IH]; intros [|y l2] Hlen Hnth;
    simpl in *; try discriminate; trivial.
  f_equal.
  - apply (Hnth 0%nat). lia.
  - apply IH; [lia|]. intros j Hj. apply (Hnth (S j)). lia.
Qed.

(** ** The correlation kernel *)

Lemma correlation_nonneg (d : R) : 0 <= correlation d.
Proof. unfold correlation. apply Rmax_r. Qed.

Lemma correlation_le_sill (d : R) : 0 <= d -> correlation d <= 0.8565.
Proof.
  intros Hd. unfold correlation. apply Rmax_lub; lra.
Qed.

Lemma correlation_antitone (d1 d2 : R) :
  d1 <= d2 -> correlation d2 <= correlation d1.
Proof. intros Hd. unfold correlation. apply Rle_max_compat_r. lra. Qed.

Lemma correlation_zero_far (d : R) : 135.96 <= d -> correlation d = 0.
Proof. intros Hd. unfold correlation. apply Rmax_right. lra. Qed.

(** C7.  The kernel [d |-> max(0.8565 - 0.0063 d, 0)] is non-increasing in
    the distance, and it is exactly 0 from 136.0 km on, and already from
    0.8565/0.0063 km on. *)
Theorem correlation_nonincreasing_zero_beyond_range :
  (forall d1 d2, d1 <= d2 -> correlation d2 <= correlation d1) /\
  (forall d, 136.0 <= d -> correlation d = 0) /\
  (forall d, 0.8565 / 0.0063 <= d -> correlation d = 0).
Proof.
  repeat split.
  - apply correlation_antitone.
  - intros d Hd. apply correlation_zero_far. lra.
  - intros d Hd. unfold correlation. apply Rmax_right.
    assert (H : 0.8565 <= 0.0063 * d).
    { apply (Rmult_le_compat_l 0.0063) in Hd; [|lra].
      replace (0.0063 * (0.8565 / 0.0063)) with 0.8565 in Hd by (field; lra).
      exact Hd. }
    lra.
Qed.

Lemma correlation_nonincreasing_zero_beyond_range_witness :
  correlation 100 <= correlation 50 /\ correlation 140 = 0.
Proof.
  destruct correlation_nonincreasing_zero_beyond_range as [Hmono [Hzero _]].
  split.
  - apply Hmono. lra.
  - apply Hzero. lra.
Defined.

(** ** Great-circle distances along the equator and the prime meridian *)

Module GreatCircle.

Lemma PI_gt_3 : 3 < PI.
Proof. pose proof PI2_3_2. lra. Qed.

Lemma acos_cos_abs (x : R) : Rabs x <= PI -> acos (cos x) = Rabs x.
Proof.
  intros Hx. unfold Rabs in *. destruct (Rcase_abs x) as [Hneg|Hpos].
  - rewrite <- cos_neg. apply acos_cos. lra.
  - apply acos_cos. lra.
Qed.





Section Sphere.

Variable radius : R.
Hypothesis radius_large : 1000 <= radius.









End Sphere.

(** Two points of the equator given by their longitudes in degrees. *)
Lemma distance_on_equator_degrees (lon1 lon2 : R) :
  Rabs (lon1 - lon2) <= 180 ->
  great_circle_distance_km lon1 0 lon2 0
  = 6371 * (PI * Rabs (lon1 - lon2) / 180).
Proof.
  intros Hl. unfold great_circle_distance_km, great_circle_distance_on.
  pose proof PI_gt_3 as Hpi.
  replace (PI * 0 / 180) with 0 by field.
  rewrite sin_0, cos_0.
  replace (0 * 0 + 1 * 1 * cos (PI * lon1 / 180 - PI * lon2 / 180))
    with (cos (PI * (lon1 - lon2) / 180))
    by (replace (PI * (lon1 - lon2) / 180)
          with (PI * lon1 / 180 - PI * lon2 / 180) by field; ring).
  assert (Habs : Rabs (PI * (lon1 - lon2) / 180)
                 = PI * Rabs (lon1 - lon2) / 180).
  { unfold Rdiv. rewrite !Rabs_mult, (Rabs_right PI), (Rabs_right (/ 180));
      [reflexivity | lra | lra]. }
  rewrite acos_cos_abs; rewrite Habs; [reflexivity | nra].
Qed.

Lemma distance_to_itself (lon : R) : great_circle_distance_km lon 0 lon 0 = 0.
Proof.
  rewrite distance_on_equator_degrees; rewrite Rminus_diag, Rabs_R0;
    [field | lra].
Qed.

(** Two degrees of longitude on the equator are beyond the range of the
    correlation kernel. *)
Lemma two_degrees_apart (lon1 lon2 : R) :
  Rabs (lon1 - lon2) = 2 ->
  135.96 <= great_circle_distance_km lon1 0 lon2 0.
Proof.
  intros Hl. rewrite distance_on_equator_degrees by (rewrite Hl; lra).
  rewrite Hl. pose proof PI_gt_3. lra.
Qed.

End GreatCircle.

(** ** The online variance estimator against the batch statistics *)

Module Welford.

Import OnlineVarianceEstimator.

Lemma np_sum_app (l1 l2 : list R) : np_sum (l1 ++ l2) = np_sum l1 + np_sum l2.
Proof.
  unfold np_sum. induction l1 as [|x l1 IH]; simpl; [lra|]. rewrite IH. lra.
Qed.

Lemma sum_sq_app (l1 l2 : list R) : sum_sq (l1 ++ l2) = sum_sq l1 + sum_sq l2.
Proof. unfold sum_sq. now rewrite map_app, np_sum_app. Qed.

(** The sum of squared deviations from any centre [m], expanded. *)
Lemma sum_sq_dev (l : list R) (m : R) :
  np_sum (map (fun x => (x - m) * (x - m)) l)
  = sum_sq l - 2 * m * np_sum l + INR (length l) * (m * m).
Proof.
  unfold sum_sq, np_sum. induction l as [|x l IH].
  - simpl. lra.
  - cbn [map fold_right length]. rewrite IH, S_INR. lra.
Qed.

Lemma update_with_tracks (e : t R) (l : list R) (x : R) :
  l <> [] -> tracks e l ->
  exists e', update_with e x = Ok e' /\ tracks e' (l ++ [x]).
Proof.
  intros Hl (HN & Hmean & HM2).
  unfold update_with. cbn [nsub nadd nmul ndivs Numeric_scalar bind].
  eexists. split; [reflexivity|].
  assert (Hn : 0 < INR (length l)).
  { apply lt_0_INR. destruct l; [congruence | simpl; lia]. }
  unfold tracks. cbn [N mean M2].
  rewrite length_app, np_sum_app, sum_sq_app. cbn [length].
  rewrite HN, HM2. rewrite !plus_INR. cbn [INR].
  unfold sum_sq, np_sum in *. cbn [map fold_right].
  set (n := INR (length l)) in *. set (m := mean e) in *.
  set (S1 := fold_right Rplus 0 l) in *.
  assert (Hm : m = S1 / n) by (rewrite <- Hmean; field; lra).
  split; [lia | split].
  - rewrite <- Hmean. field. lra.
  - rewrite Hm. field. lra.
Qed.

Lemma run_tracks (xs : list R) : forall (e : t R) (l : list R),
  l <> [] -> tracks e l ->
  exists e', run e xs = Ok e' /\ tracks e' (l ++ xs).
Proof.
  unfold run. induction xs as [|x xs IH]; intros e l Hl He.
  - exists e. rewrite app_nil_r. now split.
  - destruct (update_with_tracks e l x Hl He) as (e1 & Hstep & He1).
    destruct (IH e1 (l ++ [x])) as (e' & Hrun & He').
    { destruct l; discriminate. }
    { exact He1. }
    exists e'. cbn [foldM]. rewrite Hstep. cbn [bind].
    rewrite <- app_assoc in He'. now split.
Qed.

Lemma tracks_seed (x1 : R) : tracks (init x1 0 1) [x1].
Proof.
  unfold tracks, sum_sq, np_sum. cbn. repeat split; lra.
Qed.

Lemma tracks_mean (e : t R) (l : list R) :
  l <> [] -> tracks e l -> get_mean e = batch_mean l.
Proof.
  intros Hl (_ & Hmean & _). unfold get_mean, batch_mean.
  assert (Hn : 0 < INR (length l)).
  { apply lt_0_INR. destruct l; [congruence | simpl; lia]. }
  rewrite <- Hmean. field. lra.
Qed.

Lemma tracks_variance (e : t R) (l : list R) :
  (2 <= length l)%nat -> tracks e l ->
  get_variance e = Some (batch_variance l).
Proof.
  intros Hlen He.
  assert (Hmean : get_mean e = batch_mean l).
  { apply tracks_mean; [destruct l; simpl in *; [lia | discriminate] | exact He]. }
  destruct He as (HN & Hsum & HM2).
  assert (Hn : 2 <= INR (length l)) by (apply (le_INR 2); exact Hlen).
  unfold get_variance. rewrite HN.
  assert (Hd : IZR (Z.of_nat (length l) - 1) = INR (length l) - 1).
  { rewrite minus_IZR, <- INR_IZR_INZ. reflexivity. }
  rewrite Hd.
  destruct (Req_dec_T (INR (length l) - 1) 0) as [H0|_]; [lra|].
  f_equal. unfold batch_variance. cbn [ndivs Numeric_scalar].
  f_equal. rewrite sum_sq_dev. unfold get_mean in Hmean. rewrite <- Hmean.
  rewrite HM2, <- Hsum. ring.
Qed.

Lemma elementwise_Ok (f : R -> R -> R) (a b : ndarray) :
  length a = length b -> elementwise f a b = Ok (map2 f a b).
Proof. intros H. unfold elementwise. now rewrite H, Nat.eqb_refl. Qed.

Ltac solve_len :=
  repeat (rewrite length_map2 || rewrite length_map); lia.

Lemma update_with_entry (len : nat) (e : t ndarray) (x : ndarray) :
  shaped len e -> length x = len ->
  exists e', update_with e x = Ok e' /\ shaped len e' /\
    N e' = (N e + 1)%nat /\
    forall j, (j < len)%nat ->
      update_with (entry j e) (nth j x 0) = Ok (entry j e').
Proof.
  intros [Hm HM] Hx. unfold update_with.
  cbn [nsub nadd nmul ndivs Numeric_array Numeric_scalar].
  rewrite (elementwise_Ok Rminus) by congruence. cbn [bind].
  rewrite (elementwise_Ok Rplus) by solve_len. cbn [bind].
  rewrite (elementwise_Ok Rminus) by solve_len. cbn [bind].
  rewrite (elementwise_Ok Rmult) by solve_len. cbn [bind].
  rewrite (elementwise_Ok Rplus) by solve_len. cbn [bind].
  eexists. split; [reflexivity|]. split.
  - unfold shaped. cbn [mean M2]. split; solve_len.
  - split; [reflexivity|].
    intros j Hj. unfold entry. cbn [mean M2 N].
    assert (Hdelta : nth j (map2 Rminus x (mean e)) 0
                     = nth j x 0 - nth j (mean e) 0).
    { apply nth_map2; lia. }
    assert (Hmean' : nth j (map2 Rplus (mean e)
                (map (fun x0 => x0 / INR (N e + 1)) (map2 Rminus x (mean e)))) 0
              = nth j (mean e) 0
                + (nth j x 0 - nth j (mean e) 0) / INR (N e + 1)).
    { rewrite (nth_map2 Rplus _ _ j 0 0 0); [| lia | solve_len].
      rewrite (nth_map_lt (fun x0 => x0 / INR (N e + 1)) _ j 0 0)
        by solve_len.
      now rewrite Hdelta. }
    f_equal. f_equal.
    + symmetry. exact Hmean'.
    + symmetry.
      rewrite (nth_map2 Rplus _ _ j 0 0 0); [| lia | solve_len].
      rewrite (nth_map2 Rmult _ _ j 0 0 0); [| solve_len | solve_len].
      rewrite !(nth_map2 Rminus _ _ j 0 0 0) by solve_len.
      now rewrite Hmean'.
Qed.

Lemma run_entry (len : nat) (xs : list ndarray) : forall e : t ndarray,
  shaped len e -> Forall (fun x => length x = len) xs ->
  exists e', run e xs = Ok e' /\ shaped len e' /\
    N e' = (N e + length xs)%nat /\
    forall j, (j < len)%nat ->
      run (entry j e) (column j xs) = Ok (entry j e').
Proof.
  unfold run. induction xs as [|x xs IH]; intros e He Hxs.
  - exists e. cbn [foldM length column map]. repeat split; try apply He. lia.
  - apply Forall_cons_iff in Hxs as [Hx Hxs'].
    destruct (update_with_entry _ e x He Hx) as (e1 & Hstep & He1 & HN1 & Hent).
    destruct (IH e1 He1 Hxs') as (e' & Hrun & He' & HN' & Hent').
    exists e'. cbn [foldM column map length]. rewrite Hstep. cbn [bind].
    repeat split; try apply He'; trivial; [lia|].
    intros j Hj. rewrite (Hent j Hj). cbn [bind]. now apply Hent'.
Qed.

Lemma run_seeded (x1 : R) (xs : list R) :
  exists e, run (init x1 0 1) xs = Ok e /\ tracks e (x1 :: xs).
Proof.
  apply (run_tracks xs (init x1 0 1) [x1]); [discriminate | apply tracks_seed].
Qed.

End Welford.

(** C3.  An estimator seeded with (mean = x1, M2 = 0, N = 1) and updated
    with x2, ..., xn (n >= 2) returns: from [get_variance], the two-pass
    sample variance of x1, ..., xn (the sum of squared deviations from the
    mean over n - 1); from [get_mean], their arithmetic mean.  This holds
    for scalar samples, and entry by entry for arrays of one shape. *)
Theorem online_variance_matches_batch :
  (forall (x1 : R) (xs : list R), xs <> [] ->
     exists e,
       OnlineVarianceEstimator.run (OnlineVarianceEstimator.init x1 0 1%nat) xs
       = Ok e /\
       OnlineVarianceEstimator.get_variance e
       = Some (batch_variance (x1 :: xs)) /\
       OnlineVarianceEstimator.get_mean e = batch_mean (x1 :: xs)) /\
  (forall (x1 : ndarray) (xs : list ndarray), xs <> [] ->
     Forall (fun x => length x = length x1) xs ->
     exists e,
       OnlineVarianceEstimator.run
         (OnlineVarianceEstimator.init x1 (zeros_like x1) 1%nat) xs = Ok e /\
       OnlineVarianceEstimator.get_variance e
       = Some (map (fun j => batch_variance (column j (x1 :: xs)))
                   (seq 0 (length x1))) /\
       OnlineVarianceEstimator.get_mean e
       = map (fun j => batch_mean (column j (x1 :: xs))) (seq 0 (length x1))).
Proof.
  split.
  - intros x1 xs Hxs.
    destruct (Welford.run_seeded x1 xs) as (e & Hrun & He).
    exists e. split; [exact Hrun|]. split.
    + apply Welford.tracks_variance; [|exact He].
      destruct xs; [congruence | simpl; lia].
    + apply Welford.tracks_mean; [discriminate | exact He].
  - intros x1 xs Hxs Hshape.
    set (len := length x1) in *.
    set (e0 := OnlineVarianceEstimator.init x1 (zeros_like x1) 1%nat).
    assert (He0 : shaped len e0).
    { split; [reflexivity|]. unfold e0, zeros_like. cbn. now rewrite length_map. }
    destruct (Welford.run_entry len xs e0 He0 Hshape)
      as (e & Hrun & [Hm HM] & HN & Hent).
    exists e. split; [exact Hrun|].
    assert (Hj : forall j, (j < len)%nat ->
                 tracks (entry j e) (column j (x1 :: xs))).
    { intros j Hlt.
      destruct (Welford.run_seeded (nth j x1 0) (column j xs)) as (e1 & Hr1 & He1).
      specialize (Hent j Hlt).
      replace (entry j e0) with
        (OnlineVarianceEstimator.init (nth j x1 0) 0 1%nat) in Hent.
      - rewrite Hr1 in Hent. injection Hent as <-. exact He1.
      - unfold entry, e0, zeros_like. cbn. f_equal.
        now rewrite (nth_map_lt (fun _ => 0) x1 j 0 0). }
    assert (Hlen2 : forall j, (2 <= length (column j (x1 :: xs)))%nat).
    { intros j. unfold column. rewrite length_map.
      destruct xs; [congruence | simpl; lia]. }
    split.
    + unfold OnlineVarianceEstimator.get_variance.
      cbn [ndivs Numeric_array].
      set (d := IZR (Z.of_nat (OnlineVarianceEstimator.N e) - 1)).
      assert (Hd : d <> 0).
      { unfold d. rewrite HN. unfold e0. cbn [OnlineVarianceEstimator.N].
        apply not_0_IZR. destruct xs; [congruence | cbn [length]; lia]. }
      destruct (Req_dec_T d 0) as [H0|_]; [contradiction|].
      f_equal. apply (list_ext_nth 0).
      * now rewrite !length_map, length_seq.
      * rewrite length_map, HM. intros j Hlt.
        rewrite (nth_map_lt (fun x => x / d) _ j 0 0) by lia.
        rewrite (nth_map_lt _ (seq 0 len) j 0%nat 0) by (rewrite length_seq; lia).
        rewrite seq_nth by lia. cbn [Nat.add].
        pose proof (Welford.tracks_variance _ _ (Hlen2 j) (Hj j Hlt)) as Hv.
        unfold OnlineVarianceEstimator.get_variance in Hv.
        cbn [entry OnlineVarianceEstimator.N OnlineVarianceEstimator.M2
             ndivs Numeric_scalar] in Hv.
        fold d in Hv.
        destruct (Req_dec_T d 0) as [H0|_]; [contradiction|].
        now injection Hv.
    + unfold OnlineVarianceEstimator.get_mean. apply (list_ext_nth 0).
      * now rewrite length_map, length_seq.
      * rewrite Hm. intros j Hlt.
        rewrite (nth_map_lt _ (seq 0 len) j 0%nat 0) by (rewrite length_seq; lia).
        rewrite seq_nth by lia. cbn [Nat.add].
        apply (Welford.tracks_mean (entry j e)); [discriminate | now apply Hj].
Qed.

Lemma online_variance_matches_batch_witness :
  (exists e,
     OnlineVarianceEstimator.run (OnlineVarianceEstimator.init 1 0 1%nat) [3; 8]
     = Ok e /\
     OnlineVarianceEstimator.get_variance e = Some (batch_variance [1; 3; 8]) /\
     OnlineVarianceEstimator.get_mean e = batch_mean [1; 3; 8]) /\
  (exists e,
     OnlineVarianceEstimator.run
       (OnlineVarianceEstimator.init [1; 2] (zeros_like [1; 2]) 1%nat)
       [[3; 2]; [8; 5]] = Ok e /\
     OnlineVarianceEstimator.get_variance e
     = Some (map (fun j => batch_variance (column j [[1; 2]; [3; 2]; [8; 5]]))
                 (seq 0 (length [1; 2]))) /\
     OnlineVarianceEstimator.get_mean e
     = map (fun j => batch_mean (column j [[1; 2]; [3; 2]; [8; 5]]))
           (seq 0 (length [1; 2]))).
Proof.
  split.
  - apply (proj1 online_variance_matches_batch 1 [3; 8]). discriminate.
  - apply (proj2 online_variance_matches_batch [1; 2] [[3; 2]; [8; 5]]).
    + discriminate.
    + repeat constructor.
Defined.


(** ** Loops over the grid *)

Lemma length_replace_nth {A : Type} (a : list A) (p : nat) (v : A) :
  length (replace_nth a p v) = length a.
Proof.
  revert p. induction a as [|x a IH]; intros [|p]; simpl; trivial.
  now rewrite IH.
Qed.

Lemma firstn_replace_nth {A : Type} (a : list A) (p : nat) (v : A) :
  (p < length a)%nat ->
  firstn (S p) (replace_nth a p v) = firstn p a ++ [v].
Proof.
  revert p. induction a as [|x a IH]; intros [|p] Hp; simpl in *; try lia.
  - reflexivity.
  - f_equal. apply IH. lia.
Qed.

Lemma setitem_Ok {A : Type} (a : list A) (p : nat) (v : A) :
  (p < length a)%nat -> setitem a p v = Ok (replace_nth a p v).
Proof.
  intros Hp. unfold setitem.
  now rewrite (proj2 (Nat.ltb_lt p (length a)) Hp).
Qed.

(** A loop that assigns [V[p] = g p] at [p = a, ..., a + k - 1] leaves the
    entries before [a] and holds the assigned values after them. *)
Lemma foldM_assign1_from {A : Type} (point : nat -> result A) (g : nat -> A)
  (k : nat) : forall (a : nat) (V : list A),
  length V = (a + k)%nat ->
  (forall p, (a <= p < a + k)%nat -> point p = Ok (g p)) ->
  foldM (assign1 point) (seq a k) V = Ok (firstn a V ++ map g (seq a k)).
Proof.
  induction k as [|k IH]; intros a V Hlen Hpt.
  - cbn [seq foldM map]. rewrite app_nil_r, firstn_all2 by lia. reflexivity.
  - cbn [seq foldM map]. unfold assign1 at 1.
    rewrite (Hpt a) by lia. cbn [bind].
    rewrite setitem_Ok by lia. cbn [bind].
    rewrite (IH (S a)).
    + rewrite firstn_replace_nth by lia. now rewrite <- app_assoc.
    + rewrite length_replace_nth. lia.
    + intros p Hp. apply Hpt. lia.
Qed.

Lemma foldM_assign1 {A : Type} (point : nat -> result A) (g : nat -> A)
  (V : list A) :
  (forall p, (p < length V)%nat -> point p = Ok (g p)) ->
  foldM (assign1 point) (seq 0 (length V)) V = Ok (map g (seq 0 (length V))).
Proof.
  intros Hpt.
  rewrite (foldM_assign1_from point g (length V) 0 V); trivial.
  intros p Hp. apply Hpt. lia.
Qed.

Lemma foldM_assign2_from {A : Type} (point : nat -> result (A * A))
  (g h : nat -> A) (k : nat) : forall (a : nat) (K V : list A),
  length K = (a + k)%nat -> length V = (a + k)%nat ->
  (forall p, (a <= p < a + k)%nat -> point p = Ok (g p, h p)) ->
  foldM (assign2 point) (seq a k) (K, V)
  = Ok (firstn a K ++ map g (seq a k), firstn a V ++ map h (seq a k)).
Proof.
  induction k as [|k IH]; intros a K V HK HV Hpt.
  - cbn [seq foldM map]. rewrite !app_nil_r, !firstn_all2 by lia. reflexivity.
  - cbn [seq foldM map]. unfold assign2 at 1.
    rewrite (Hpt a) by lia. cbn [bind fst snd].
    rewrite !setitem_Ok by lia. cbn [bind].
    rewrite (IH (S a)).
    + rewrite !firstn_replace_nth by lia. now rewrite <- !app_assoc.
    + rewrite length_replace_nth. lia.
    + rewrite length_replace_nth. lia.
    + intros p Hp. apply Hpt. lia.
Qed.

Lemma foldM_assign2 {A : Type} (point : nat -> result (A * A))
  (g h : nat -> A) (K V : list A) :
  length V = length K ->
  (forall p, (p < length K)%nat -> point p = Ok (g p, h p)) ->
  foldM (assign2 point) (seq 0 (length K)) (K, V)
  = Ok (map g (seq 0 (length K)), map h (seq 0 (length K))).
Proof.
  intros HV Hpt.
  rewrite (foldM_assign2_from point g h (length K) 0 K V); trivial.
  intros p Hp. apply Hpt. lia.
Qed.

Lemma nth_map_seq {A : Type} (g : nat -> A) (n p : nat) (d : A) :
  (p < n)%nat -> nth p (map g (seq 0 n)) d = g p.
Proof.
  intros Hp. rewrite (nth_map_lt g (seq 0 n) p 0%nat d)
    by (rewrite length_seq; exact Hp).
  now rewrite seq_nth.
Qed.

(** The values sampled at the observations' nearest grid points. *)
Lemma sample_Ok (E : ndarray) (obs_list : list Observation) :
  Forall (fun obs => (get_nearest_grid_point obs < length E)%nat) obs_list ->
  mapM (fun obs => getitem E (get_nearest_grid_point obs)) obs_list
  = Ok (sampled E obs_list).
Proof.
  intros Hin. unfold sampled. apply mapM_Ok.
  intros obs Hobs. apply getitem_Ok.
  exact (proj1 (Forall_forall _ _) Hin obs Hobs).
Qed.

Lemma sample_decide (E : ndarray) (obs_list : list Observation) :
  mapM (fun obs => getitem E (get_nearest_grid_point obs)) obs_list
  = if observations_inside E obs_list then Ok (sampled E obs_list)
    else Raise IndexError.
Proof.
  induction obs_list as [|obs l IH]; [reflexivity|].
  cbn [mapM observations_inside forallb sampled map].
  fold (observations_inside E l). fold (sampled E l).
  destruct (Nat.ltb_spec (get_nearest_grid_point obs) (length E)) as [Hlt|Hge].
  - rewrite (getitem_Ok E _ 0 Hlt). cbn [bind andb]. rewrite IH.
    now destruct (observations_inside E l).
  - now rewrite (getitem_Raise E _ Hge).
Qed.

(** ** The mean-field model *)

Lemma mapM_map {A B C : Type} (f : B -> result C) (g : A -> B) (l : list A) :
  mapM f (map g l) = mapM (fun x => f (g x)) l.
Proof.
  induction l as [|x l IH]; simpl; [reflexivity|]. now rewrite IH.
Qed.

Lemma unit_weights {A : Type} (l : list A) (v : ndarray) :
  length v = length l -> map2 Rmult (map (fun _ => 1) l) v = v.
Proof.
  revert v. unfold map2.
  induction l as [|x l IH]; intros [|y v] Hlen; simpl in *;
    try discriminate; trivial.
  rewrite IH by lia. f_equal. lra.
Qed.

Lemma length_sampled (E : ndarray) (obs_list : list Observation) :
  length (sampled E obs_list) = length obs_list.
Proof. unfold sampled. now rewrite length_map. Qed.

(** [fit_to_data] with the sampled values and the sums written out. *)
Lemma fit_to_data_Ok (self : MeanFieldModel.t) (E : ndarray)
  (obs_list : list Observation) :
  Forall (fun obs => (get_nearest_grid_point obs < length E)%nat) obs_list ->
  MeanFieldModel.fit_to_data self E obs_list
  = Ok {| MeanFieldModel.gamma :=
            np_div (np_sum (map2 Rmult (sampled E obs_list)
                                       (map get_value obs_list)))
                   (np_sum (map (fun m => m ^ 2) (sampled E obs_list))) |}.
Proof.
  intros Hin. unfold MeanFieldModel.fit_to_data.
  rewrite mapM_map, (sample_Ok E obs_list Hin). cbn [bind].
  rewrite !unit_weights; trivial.
  - now rewrite length_map, length_sampled.
  - now rewrite length_sampled.
Qed.

Lemma sum_squares_nonneg (v : ndarray) :
  0 <= np_sum (map (fun m => m ^ 2) v).
Proof.
  unfold np_sum. induction v as [|x v IH]; cbn [map fold_right]; [lra|].
  pose proof (pow2_ge_0 x). lra.
Qed.

Lemma sum_squares_zero (v : ndarray) :
  np_sum (map (fun m => m ^ 2) v) = 0 -> Forall (fun m => m = 0) v.
Proof.
  induction v as [|x v IH]; intros Hs; constructor;
    pose proof (sum_squares_nonneg v) as Hv; pose proof (pow2_ge_0 x) as Hx;
    unfold np_sum in *; cbn [map fold_right] in Hs.
  - assert (H0 : x ^ 2 = 0) by lra. simpl in H0. nra.
  - apply IH. lra.
Qed.

Lemma exact_scaling_sums (gamma0 : R) (E : ndarray)
  (obs_list : list Observation) :
  (forall obs, In obs obs_list ->
     get_value obs = gamma0 * nth (get_nearest_grid_point obs) E 0) ->
  np_sum (map2 Rmult (sampled E obs_list) (map get_value obs_list))
  = gamma0 * np_sum (map (fun m => m ^ 2) (sampled E obs_list)).
Proof.
  unfold sampled, map2, np_sum.
  induction obs_list as [|obs l IH]; intros Hy;
    cbn [map combine fold_right fst snd].
  - lra.
  - rewrite IH by (intros o Ho; apply Hy; now right).
    rewrite (Hy obs (or_introl eq_refl)). ring.
Qed.

(** C6.  When the sum of the squared sampled background values is not
    zero, [fit_to_data] sets gamma to sum(m_i y_i) / sum(m_i^2); and when
    every observation is exactly gamma0 times the background at its nearest
    grid point, the fitted gamma is gamma0. *)
Theorem fit_to_data_least_squares (self : MeanFieldModel.t) (E : ndarray)
  (obs_list : list Observation) :
  Forall (fun obs => (get_nearest_grid_point obs < length E)%nat) obs_list ->
  np_sum (map (fun m => m ^ 2) (sampled E obs_list)) <> 0 ->
  exists self',
    MeanFieldModel.fit_to_data self E obs_list = Ok self' /\
    MeanFieldModel.gamma self'
    = Finite (np_sum (map2 Rmult (sampled E obs_list) (map get_value obs_list))
              / np_sum (map (fun m => m ^ 2) (sampled E obs_list))) /\
    forall gamma0,
      (forall obs, In obs obs_list ->
         get_value obs = gamma0 * nth (get_nearest_grid_point obs) E 0) ->
      MeanFieldModel.gamma self' = Finite gamma0.
Proof.
  intros Hin Hden. eexists. split; [apply fit_to_data_Ok; exact Hin|].
  cbn [MeanFieldModel.gamma]. unfold np_div.
  destruct (Req_dec_T _ 0) as [H0|_]; [contradiction|].
  split; [reflexivity|].
  intros gamma0 Hy. rewrite (exact_scaling_sums gamma0 E obs_list Hy).
  f_equal. field. exact Hden.
Qed.

Lemma fit_to_data_least_squares_witness :
  exists self',
    MeanFieldModel.fit_to_data MeanFieldModel.init two_cell_field
                               [obs_cell0; obs_cell1] = Ok self' /\
    MeanFieldModel.gamma self'
    = Finite (np_sum (map2 Rmult (sampled two_cell_field [obs_cell0; obs_cell1])
                                 (map get_value [obs_cell0; obs_cell1]))
              / np_sum (map (fun m => m ^ 2)
                            (sampled two_cell_field [obs_cell0; obs_cell1]))) /\
    forall gamma0,
      (forall obs, In obs [obs_cell0; obs_cell1] ->
         get_value obs
         = gamma0 * nth (get_nearest_grid_point obs) two_cell_field 0) ->
      MeanFieldModel.gamma self' = Finite gamma0.
Proof.
  apply (fit_to_data_least_squares MeanFieldModel.init two_cell_field
                                   [obs_cell0; obs_cell1]).
  - repeat constructor.
  - cbn. lra.
Defined.

(** C9, as stated, fails: on a background field that is zero at the only
    observation, the fit denominator is zero and [fit_to_data] replaces the
    initial gamma = 1.0 by a non-finite value. *)
Lemma fit_to_data_degenerate_changes_gamma :
  np_sum (map (fun m => m ^ 2) (sampled zero_field [obs_at_origin])) = 0 /\
  exists self',
    MeanFieldModel.fit_to_data MeanFieldModel.init zero_field [obs_at_origin]
    = Ok self' /\
    MeanFieldModel.gamma self' <> MeanFieldModel.gamma MeanFieldModel.init.
Proof.
  split; [cbn; lra|].
  eexists. split.
  - apply fit_to_data_Ok. repeat constructor.
  - cbn [MeanFieldModel.gamma MeanFieldModel.init].
    assert (H0 : np_sum (map (fun m => m ^ 2)
                             (sampled zero_field [obs_at_origin])) = 0)
      by (cbn; lra).
    rewrite H0. unfold np_div.
    destruct (Req_dec_T 0 0) as [_|Hne]; [discriminate | now elim Hne].
Qed.

(** C9, amended.  In the degenerate case (the sum of the squared sampled
    background values is zero) [fit_to_data] does not raise and does not
    keep the previous gamma: it stores the quotient by zero, a non-finite
    value, whatever gamma was before. *)
Theorem fit_to_data_degenerate_overwrites (self : MeanFieldModel.t)
  (E : ndarray) (obs_list : list Observation) :
  Forall (fun obs => (get_nearest_grid_point obs < length E)%nat) obs_list ->
  np_sum (map (fun m => m ^ 2) (sampled E obs_list)) = 0 ->
  MeanFieldModel.fit_to_data self E obs_list
  = Ok {| MeanFieldModel.gamma := NonFinite |}.
Proof.
  intros Hin Hden. rewrite (fit_to_data_Ok self E obs_list Hin).
  rewrite Hden. unfold np_div.
  destruct (Req_dec_T 0 0) as [_|Hne]; [reflexivity | now elim Hne].
Qed.

Lemma fit_to_data_degenerate_overwrites_witness :
  MeanFieldModel.fit_to_data MeanFieldModel.init zero_field [obs_at_origin]
  = Ok {| MeanFieldModel.gamma := NonFinite |}.
Proof.
  apply (fit_to_data_degenerate_overwrites MeanFieldModel.init zero_field
                                           [obs_at_origin]).
  - repeat constructor.
  - cbn. lra.
Defined.

(** ** Trend surface model kriging *)

Lemma map2_self_squares (v : ndarray) :
  np_sum (map2 Rmult v v) = np_sum (map (fun m => m ^ 2) v).
Proof.
  unfold map2, np_sum.
  induction v as [|x v IH]; cbn [map combine fold_right fst snd];
    [reflexivity|].
  rewrite IH. simpl (x ^ 2). ring.
Qed.

(** The call on a non-empty observation list whose nearest grid points lie
    in the grid, with the loop over the grid carried out. *)
Lemma trend_surface_model_kriging_Ok (obs0 : Observation)
  (rest : list Observation) (wrf_data : WRFModelData) (mu_mod : ndarray) :
  Forall (fun obs => (get_nearest_grid_point obs < length mu_mod)%nat)
         (obs0 :: rest) ->
  trend_surface_model_kriging (obs0 :: rest) wrf_data mu_mod
  = Ok (mu_mod,
        map (fun p =>
               np_lift (fun x => get_measurement_variance obs0
                                 * (1 + nth p mu_mod 0 * x * nth p mu_mod 0))
                       (np_div 1 (np_sum (map (fun m => m ^ 2)
                                              (sampled mu_mod (obs0 :: rest))))))
            (seq 0 (length mu_mod))).
Proof.
  intros Hin. unfold trend_surface_model_kriging.
  rewrite (sample_Ok mu_mod (obs0 :: rest) Hin). cbn [bind getitem nth_error].
  rewrite map2_self_squares.
  assert (Hlen : length (map Finite (zeros_like mu_mod)) = length mu_mod).
  { unfold zeros_like. now rewrite !length_map. }
  rewrite Hlen. rewrite <- Hlen at 1.
  erewrite foldM_assign1.
  - cbn [bind]. now rewrite Hlen.
  - rewrite Hlen. intros p Hp. cbn beta.
    rewrite (getitem_Ok mu_mod p 0 Hp). reflexivity.
Qed.

(** C5, as stated, fails: with no observation the call raises and returns
    no predictor field at all. *)
Lemma trend_surface_model_kriging_no_observation :
  trend_surface_model_kriging [] one_cell_grid flat_field = Raise IndexError.
Proof. reflexivity. Qed.

(** C5, amended.  For every non-empty observation list whose nearest grid
    points lie in the grid, the call returns a predictor field K identical
    to the background field and a variance field of the grid's size; when
    moreover the sum of the squared background samples is not zero,
    V[p] = sigma2 * (1 + mu[p]^2 / sum_i mu_obs_i^2) at every grid point p,
    sigma2 being the measurement variance of the first observation. *)
Theorem trend_surface_model_kriging_identity_predictor (obs0 : Observation)
  (rest : list Observation) (wrf_data : WRFModelData) (mu_mod : ndarray) :
  Forall (fun obs => (get_nearest_grid_point obs < length mu_mod)%nat)
         (obs0 :: rest) ->
  exists V,
    trend_surface_model_kriging (obs0 :: rest) wrf_data mu_mod
    = Ok (mu_mod, V) /\
    length V = length mu_mod /\
    (np_sum (map (fun m => m ^ 2) (sampled mu_mod (obs0 :: rest))) <> 0 ->
     forall p, (p < length mu_mod)%nat ->
       nth p V NonFinite
       = Finite (get_measurement_variance obs0
                 * (1 + nth p mu_mod 0 ^ 2
                        / np_sum (map (fun m => m ^ 2)
                                      (sampled mu_mod (obs0 :: rest)))))).
Proof.
  intros Hin. eexists. split; [apply trend_surface_model_kriging_Ok, Hin|].
  split; [now rewrite length_map, length_seq|].
  intros Hden p Hp. rewrite nth_map_seq by exact Hp.
  unfold np_div. destruct (Req_dec_T _ 0) as [H0|_]; [contradiction|].
  cbn [np_lift]. f_equal. field. exact Hden.
Qed.

Lemma trend_surface_model_kriging_identity_predictor_witness :
  exists V,
    trend_surface_model_kriging [obs_cell0; obs_cell1] one_cell_grid
                                two_cell_field
    = Ok (two_cell_field, V) /\
    length V = length two_cell_field /\
    (np_sum (map (fun m => m ^ 2)
                 (sampled two_cell_field [obs_cell0; obs_cell1])) <> 0 ->
     forall p, (p < length two_cell_field)%nat ->
       nth p V NonFinite
       = Finite (get_measurement_variance obs_cell0
                 * (1 + nth p two_cell_field 0 ^ 2
                        / np_sum (map (fun m => m ^ 2)
                                      (sampled two_cell_field
                                               [obs_cell0; obs_cell1]))))).
Proof.
  apply (trend_surface_model_kriging_identity_predictor
           obs_cell0 [obs_cell1] one_cell_grid two_cell_field).
  repeat constructor.
Defined.

(** C10, as stated, fails: when the background samples are all zero (and
    the list is not empty) the call does return a pair (K, V). *)
Lemma trend_surface_model_kriging_zero_samples_returns :
  np_sum (map (fun m => m ^ 2) (sampled zero_field [obs_at_origin])) = 0 /\
  trend_surface_model_kriging [obs_at_origin] one_cell_grid zero_field
  = Ok (zero_field, [NonFinite]).
Proof.
  split; [cbn; lra|].
  rewrite trend_surface_model_kriging_Ok by (repeat constructor).
  assert (H0 : np_sum (map (fun m => m ^ 2)
                           (sampled zero_field [obs_at_origin])) = 0)
    by (cbn; lra).
  rewrite H0. unfold np_div.
  destruct (Req_dec_T 0 0) as [_|Hne]; [reflexivity | now elim Hne].
Qed.

(** C10, amended.  The call reads the first observation unconditionally:
    for every empty observation list it raises [IndexError] and returns
    nothing.  For a non-empty list (nearest grid points in the grid) whose
    background samples are all zero, the division by their sum of squares
    does not raise: the call returns K, the background field, and a
    variance field that is non-finite at every grid point. *)
Theorem trend_surface_model_kriging_domain :
  (forall (wrf_data : WRFModelData) (mu_mod : ndarray),
     trend_surface_model_kriging [] wrf_data mu_mod = Raise IndexError) /\
  (forall (obs0 : Observation) (rest : list Observation)
          (wrf_data : WRFModelData) (mu_mod : ndarray),
     Forall (fun obs => (get_nearest_grid_point obs < length mu_mod)%nat)
            (obs0 :: rest) ->
     Forall (fun m => m = 0) (sampled mu_mod (obs0 :: rest)) ->
     trend_surface_model_kriging (obs0 :: rest) wrf_data mu_mod
     = Ok (mu_mod, map (fun _ => NonFinite) mu_mod)).
Proof.
  split.
  - reflexivity.
  - intros obs0 rest wrf_data mu_mod Hin Hzero.
    rewrite (trend_surface_model_kriging_Ok obs0 rest wrf_data mu_mod Hin).
    assert (H0 : np_sum (map (fun m => m ^ 2) (sampled mu_mod (obs0 :: rest)))
                 = 0).
    { clear Hin. induction Hzero as [|m l Hm _ IH]; cbn [map np_sum fold_right].
      - reflexivity.
      - unfold np_sum in IH. rewrite IH, Hm. simpl. ring. }
    rewrite H0. unfold np_div.
    destruct (Req_dec_T 0 0) as [_|Hne]; [|now elim Hne].
    cbn [np_lift]. do 2 f_equal.
    apply (list_ext_nth NonFinite).
    + now rewrite !length_map, length_seq.
    + rewrite length_map, length_seq. intros j Hj.
      rewrite nth_map_seq by exact Hj.
      now rewrite (nth_map_lt (fun _ => NonFinite) mu_mod j 0 NonFinite).
Qed.

Lemma trend_surface_model_kriging_domain_witness :
  trend_surface_model_kriging [] one_cell_grid flat_field = Raise IndexError /\
  trend_surface_model_kriging [obs_at_origin] one_cell_grid zero_field
  = Ok (zero_field, map (fun _ => NonFinite) zero_field).
Proof.
  split.
  - apply (proj1 trend_surface_model_kriging_domain).
  - apply (proj2 trend_surface_model_kriging_domain).
    + repeat constructor.
    + repeat constructor.
Defined.

(** ** Linear algebra on lists *)

Module LinAlg.

Lemma ncols_rows_eq (m : nat) (A : matrix) :
  A <> [] -> rows m A -> ncols A = m.
Proof.
  intros Hne HA. destruct A as [|r A]; [congruence|].
  apply Forall_cons_iff in HA as [Hr _]. exact Hr.
Qed.

Lemma length_matmul_eq (A B : matrix) : length (matmul A B) = length A.
Proof. unfold matmul. apply length_map. Qed.

Lemma dot_cons (x y : R) (u v : ndarray) :
  dot (x :: u) (y :: v) = x * y + dot u v.
Proof. reflexivity. Qed.

Lemma dot_nil_r (u : ndarray) : dot u [] = 0.
Proof. destruct u; reflexivity. Qed.

Lemma dot_nil_l (v : ndarray) : dot [] v = 0.
Proof. reflexivity. Qed.

Lemma dot_comm (u : ndarray) : forall v, dot u v = dot v u.
Proof.
  induction u as [|x u IH]; intros [|y v].
  - reflexivity.
  - reflexivity.
  - reflexivity.
  - rewrite !dot_cons, IH. ring.
Qed.

Lemma dot_zero_l (k : nat) : forall w, dot (repeat 0 k) w = 0.
Proof.
  induction k as [|k IH]; intros [|y w]; cbn [repeat]; trivial.
  rewrite dot_cons, IH. ring.
Qed.

Lemma dot_vscale (c : R) (r : ndarray) : forall w,
  dot (vscale c r) w = c * dot r w.
Proof.
  induction r as [|x r IH]; intros [|y w]; cbn [vscale map].
  - rewrite dot_nil_l. ring.
  - rewrite dot_nil_l. ring.
  - rewrite !dot_nil_r. ring.
  - fold (vscale c r). rewrite !dot_cons, IH. ring.
Qed.

Lemma vadd_cons (x y : R) (u v : ndarray) :
  vadd (x :: u) (y :: v) = (x + y) :: vadd u v.
Proof. reflexivity. Qed.

Lemma dot_vadd (a : ndarray) : forall b w,
  length a = length b -> dot (vadd a b) w = dot a w + dot b w.
Proof.
  induction a as [|x a IH]; intros [|y b] w Hlen; try discriminate.
  - change (vadd [] []) with (@nil R). rewrite !dot_nil_l. ring.
  - rewrite vadd_cons. destruct w as [|z w].
    + rewrite !dot_nil_r. ring.
    + rewrite !dot_cons, IH by (simpl in Hlen; lia). ring.
Qed.

Lemma length_vadd (u v : ndarray) :
  length (vadd u v) = Nat.min (length u) (length v).
Proof. apply length_map2. Qed.

Lemma length_vscale (c : R) (v : ndarray) : length (vscale c v) = length v.
Proof. apply length_map. Qed.

Lemma nth_vscale (c : R) (v : ndarray) (j : nat) :
  nth j (vscale c v) 0 = c * nth j v 0.
Proof.
  revert j. induction v as [|x v IH]; intros [|j]; cbn [vscale map nth];
    try ring; trivial.
Qed.

Lemma nth_vadd (u v : ndarray) (j : nat) :
  (j < length u)%nat -> (j < length v)%nat ->
  nth j (vadd u v) 0 = nth j u 0 + nth j v 0.
Proof. intros Hu Hv. now apply nth_map2. Qed.

Lemma lincomb_nil_r (m : nat) (v : ndarray) : lincomb m v [] = repeat 0 m.
Proof. destruct v; reflexivity. Qed.

Lemma lincomb_nil_l (m : nat) (A : matrix) : lincomb m [] A = repeat 0 m.
Proof. reflexivity. Qed.

Lemma lincomb_cons (m : nat) (x : R) (v r : ndarray) (A : matrix) :
  lincomb m (x :: v) (r :: A) = vadd (vscale x r) (lincomb m v A).
Proof. reflexivity. Qed.

Lemma length_lincomb (m : nat) (A : matrix) : forall v,
  rows m A -> length (lincomb m v A) = m.
Proof.
  induction A as [|r A IH]; intros v HA.
  - rewrite lincomb_nil_r. apply repeat_length.
  - apply Forall_cons_iff in HA as [Hr HA]. destruct v as [|x v].
    + rewrite lincomb_nil_l. apply repeat_length.
    + rewrite lincomb_cons, length_vadd, length_vscale, IH by exact HA. lia.
Qed.

(** v^T A w, computed from the left or from the right. *)
Lemma dot_lincomb (k : nat) (A : matrix) (w : ndarray) : forall v,
  rows k A -> dot (lincomb k v A) w = dot v (map (fun r => dot r w) A).
Proof.
  induction A as [|r A IH]; intros v HA.
  - rewrite lincomb_nil_r, dot_zero_l. cbn [map]. now rewrite dot_nil_r.
  - apply Forall_cons_iff in HA as [Hr HA]. destruct v as [|x v].
    + rewrite lincomb_nil_l, dot_zero_l. now rewrite dot_nil_l.
    + rewrite lincomb_cons. cbn [map]. rewrite dot_cons.
      rewrite dot_vadd
        by (rewrite length_vscale, length_lincomb by exact HA; exact Hr).
      now rewrite dot_vscale, IH.
Qed.

Lemma nth_lincomb (m : nat) (A : matrix) (j : nat) : forall v,
  rows m A -> (j < m)%nat ->
  nth j (lincomb m v A) 0 = dot v (col j A).
Proof.
  unfold col. induction A as [|r A IH]; intros v HA Hj.
  - rewrite lincomb_nil_r, nth_repeat. cbn [map]. now rewrite dot_nil_r.
  - apply Forall_cons_iff in HA as [Hr HA]. destruct v as [|x v].
    + rewrite lincomb_nil_l, nth_repeat. now rewrite dot_nil_l.
    + rewrite lincomb_cons. cbn [map]. rewrite dot_cons.
      rewrite nth_vadd.
      * now rewrite nth_vscale, IH.
      * rewrite length_vscale. lia.
      * rewrite length_lincomb by exact HA. exact Hj.
Qed.

(** The dot product with a vector that is zero except at position [j]. *)
Lemma dot_single (f : nat -> R) (j : nat) (u : ndarray) : forall a,
  dot u (map (fun l => if l =? j then f l else 0) (seq a (length u)))
  = if a <=? j then nth (j - a) u 0 * f j else 0.
Proof.
  induction u as [|x u IH]; intros a.
  - cbn [length seq map]. rewrite dot_nil_l.
    destruct (a <=? j); [destruct (j - a)%nat; cbn; ring | reflexivity].
  - cbn [length seq map]. rewrite dot_cons, IH.
    destruct (Nat.eqb_spec a j) as [->|Hne].
    + rewrite Nat.leb_refl, Nat.sub_diag.
      rewrite (proj2 (Nat.leb_gt (S j) j)) by lia. cbn [nth]. ring.
    + destruct (Nat.leb_spec a j) as [Hle|Hgt].
      * rewrite (proj2 (Nat.leb_le (S a) j)) by lia.
        replace (j - a)%nat with (S (j - S a)) by lia. cbn [nth]. ring.
      * rewrite (proj2 (Nat.leb_gt (S a) j)) by lia. ring.
Qed.

Lemma length_np_diag (s : ndarray) : length (np_diag s) = length s.
Proof. unfold np_diag. now rewrite length_map, length_seq. Qed.

Lemma rows_np_diag (s : ndarray) : rows (length s) (np_diag s).
Proof.
  unfold rows, np_diag. apply Forall_forall. intros r Hr.
  apply in_map_iff in Hr as (i & <- & _).
  now rewrite length_map, length_seq.
Qed.

Lemma ncols_np_diag (s : ndarray) : ncols (np_diag s) = length s.
Proof.
  unfold ncols, np_diag. destruct s as [|x s]; [reflexivity|].
  cbn [length seq map hd]. now rewrite length_map, length_seq.
Qed.

Lemma col_np_diag (s : ndarray) (j : nat) :
  (j < length s)%nat ->
  col j (np_diag s)
  = map (fun l => if l =? j then nth l s 0 else 0) (seq 0 (length s)).
Proof.
  intros Hj. unfold col, np_diag. rewrite map_map.
  apply map_ext. intros i. now rewrite nth_map_seq.
Qed.

Lemma nth_np_diag (s : ndarray) (i : nat) :
  (i < length s)%nat ->
  nth i (np_diag s) []
  = map (fun l => if l =? i then nth i s 0 else 0) (seq 0 (length s)).
Proof.
  intros Hi. unfold np_diag. rewrite nth_map_seq by exact Hi.
  apply map_ext. intros l. now rewrite Nat.eqb_sym.
Qed.

(** [u . diag(s)] scales the entries of [u] by those of [s]. *)
Lemma lincomb_np_diag (u s : ndarray) :
  length u = length s -> lincomb (length s) u (np_diag s) = map2 Rmult u s.
Proof.
  intros Hlen. apply (list_ext_nth 0).
  - rewrite length_lincomb by apply rows_np_diag.
    rewrite length_map2. lia.
  - rewrite length_lincomb by apply rows_np_diag. intros j Hj.
    rewrite nth_lincomb by (apply rows_np_diag || exact Hj).
    rewrite col_np_diag by exact Hj. rewrite <- Hlen.
    rewrite (dot_single (fun l => nth l s 0) j u 0). cbn [Nat.leb].
    rewrite Nat.sub_0_r. symmetry. apply nth_map2; lia.
Qed.

Lemma rows_map_lincomb (m : nat) (A B : matrix) :
  rows m B -> rows m (map (fun r => lincomb m r B) A).
Proof.
  intros HB. unfold rows. apply Forall_forall. intros r Hr.
  apply in_map_iff in Hr as (r0 & <- & _). now apply length_lincomb.
Qed.

(** (v A) B = v (A B) *)
Lemma lincomb_assoc (k m : nat) (A B : matrix) (v : ndarray) :
  rows k A -> rows m B ->
  lincomb m (lincomb k v A) B = lincomb m v (map (fun r => lincomb m r B) A).
Proof.
  intros HA HB. apply (list_ext_nth 0).
  - rewrite !length_lincomb; trivial. now apply rows_map_lincomb.
  - rewrite length_lincomb by exact HB. intros j Hj.
    rewrite nth_lincomb by assumption.
    rewrite nth_lincomb by (try apply rows_map_lincomb; assumption).
    rewrite dot_lincomb by exact HA.
    f_equal. unfold col. rewrite map_map. apply map_ext.
    intros r. now rewrite nth_lincomb.
Qed.

Lemma lincomb_vscale (m : nat) (c : R) (A : matrix) : forall v,
  rows m A -> lincomb m (vscale c v) A = vscale c (lincomb m v A).
Proof.
  intros v HA. apply (list_ext_nth 0).
  - now rewrite length_vscale, !length_lincomb.
  - rewrite length_lincomb by exact HA. intros j Hj.
    rewrite nth_vscale, !nth_lincomb by assumption.
    apply dot_vscale.
Qed.

Lemma repeat_one_nth (n i : nat) : (i < n)%nat -> nth i (repeat 1 n) 0 = 1.
Proof.
  revert i. induction n as [|n IH]; intros [|i] Hi; cbn [repeat nth];
    try lia; trivial.
  apply IH. lia.
Qed.

Lemma map2_mult_ones (r : ndarray) : map2 Rmult r (repeat 1 (length r)) = r.
Proof.
  unfold map2. induction r as [|x r IH]; cbn [length repeat combine map fst snd];
    [reflexivity|].
  rewrite IH. f_equal. ring.
Qed.

Lemma length_eye (n : nat) : length (eye n) = n.
Proof. unfold eye. now rewrite length_np_diag, repeat_length. Qed.

Lemma rows_eye (n : nat) : rows n (eye n).
Proof.
  unfold eye. pose proof (rows_np_diag (repeat 1 n)) as H.
  now rewrite repeat_length in H.
Qed.

Lemma ncols_eye (n : nat) : ncols (eye n) = n.
Proof. unfold eye. now rewrite ncols_np_diag, repeat_length. Qed.

(** v I = v *)
Lemma vecmat_eye (r : ndarray) : vecmat r (eye (length r)) = r.
Proof.
  unfold vecmat. rewrite ncols_eye. unfold eye.
  rewrite <- (repeat_length 1 (length r)) at 1.
  rewrite lincomb_np_diag by (now rewrite repeat_length).
  apply map2_mult_ones.
Qed.

(** A I = A *)
Lemma matmul_eye_r (n : nat) (A : matrix) : rows n A -> matmul A (eye n) = A.
Proof.
  intros HA. unfold matmul. rewrite <- (map_id A) at 2.
  apply map_ext_in. intros r Hr.
  rewrite <- (proj1 (Forall_forall _ _) HA r Hr). apply vecmat_eye.
Qed.

(** e_i A is the row i of A *)
Lemma lincomb_unit (m : nat) (A : matrix) (i : nat) :
  rows m A -> (i < length A)%nat ->
  lincomb m (map (fun l => if l =? i then 1 else 0) (seq 0 (length A))) A
  = nth i A [].
Proof.
  intros HA Hi. apply (list_ext_nth 0).
  - rewrite length_lincomb by exact HA. symmetry.
    apply (proj1 (Forall_forall _ _) HA). now apply nth_In.
  - rewrite length_lincomb by exact HA. intros j Hj.
    rewrite nth_lincomb by assumption. rewrite dot_comm.
    replace (length A) with (length (col j A))
      by (unfold col; apply length_map).
    rewrite (dot_single (fun _ => 1) i (col j A) 0). cbn [Nat.leb].
    rewrite Nat.sub_0_r, Rmult_1_r. unfold col.
    now rewrite (nth_map_lt (fun r => nth j r 0) A i [] 0).
Qed.

(** I A = A *)
Lemma matmul_eye_l (m : nat) (A : matrix) :
  A <> [] -> rows m A -> matmul (eye (length A)) A = A.
Proof.
  intros Hne HA. apply (list_ext_nth []).
  - now rewrite length_matmul_eq, length_eye.
  - rewrite length_matmul_eq, length_eye. intros i Hi.
    unfold matmul. rewrite (nth_map_lt (fun r => vecmat r A) _ i [] [])
      by (now rewrite length_eye).
    unfold eye. rewrite nth_np_diag by (now rewrite repeat_length).
    rewrite repeat_length, repeat_one_nth by exact Hi.
    unfold vecmat. rewrite (ncols_rows_eq m A Hne HA).
    now apply lincomb_unit.
Qed.

(** (A B) C = A (B C) *)
Lemma matmul_assoc (A B C : matrix) :
  B <> [] -> rows (ncols B) B -> rows (ncols C) C ->
  matmul (matmul A B) C = matmul A (matmul B C).
Proof.
  intros HB HrB HrC. unfold matmul at 1 2 3. rewrite map_map.
  apply map_ext. intros r. unfold vecmat.
  rewrite lincomb_assoc by assumption.
  f_equal. symmetry. apply ncols_rows_eq.
  - intros Hnil. apply (f_equal (@length _)) in Hnil.
    rewrite length_matmul_eq in Hnil. destruct B; [congruence | discriminate].
  - now apply rows_map_lincomb.
Qed.

(** A square matrix has at most one inverse. *)
Lemma inverse_unique (A B B' : matrix) :
  is_inverse A B -> is_inverse A B' -> B = B'.
Proof.
  intros ([_ HA] & [HlB HrB] & _ & HBA) ([_ _] & [HlB' HrB'] & HAB' & _).
  destruct A as [|a A].
  - destruct B; [|discriminate]. destruct B'; [reflexivity | discriminate].
  - set (n := length (a :: A)) in *.
    assert (HAne : a :: A <> []) by discriminate.
    assert (HBne : B <> []) by (intros ->; discriminate).
    assert (HB'ne : B' <> []) by (intros ->; discriminate).
    rewrite <- (matmul_eye_r n B HrB).
    rewrite <- HAB'.
    rewrite <- matmul_assoc.
    + rewrite HBA. rewrite <- HlB'. now apply (matmul_eye_l n).
    + exact HAne.
    + now rewrite (ncols_rows_eq n _ HAne HA).
    + now rewrite (ncols_rows_eq n _ HB'ne HrB').
Qed.

End LinAlg.

(** ** Simple kriging *)

Section SimpleKrigingFacts.

Variable distance : R -> R -> R -> R -> R.

Lemma length_correlation_matrix (stations : list (R * R)) :
  length (construct_spatial_correlation_matrix2 distance stations)
  = length stations.
Proof. unfold construct_spatial_correlation_matrix2. apply length_map. Qed.

Lemma rows_correlation_matrix (stations : list (R * R)) :
  rows (length stations)
       (construct_spatial_correlation_matrix2 distance stations).
Proof.
  unfold rows, construct_spatial_correlation_matrix2. apply Forall_forall.
  intros r Hr. apply in_map_iff in Hr as (s & <- & _). apply length_map.
Qed.

Lemma ncols_correlation_matrix (stations : list (R * R)) :
  ncols (construct_spatial_correlation_matrix2 distance stations)
  = length stations.
Proof.
  destruct stations as [|s l]; [reflexivity|].
  apply LinAlg.ncols_rows_eq; [discriminate | apply rows_correlation_matrix].
Qed.

Lemma length_transpose (A : matrix) : length (transpose A) = ncols A.
Proof. unfold transpose. now rewrite length_map, length_seq. Qed.

Lemma rows_transpose (A : matrix) : rows (length A) (transpose A).
Proof.
  unfold rows, transpose. apply Forall_forall. intros r Hr.
  apply in_map_iff in Hr as (j & <- & _). unfold col. apply length_map.
Qed.

Lemma ncols_transpose (A : matrix) :
  ncols A <> 0%nat -> ncols (transpose A) = length A.
Proof.
  intros Hne. apply LinAlg.ncols_rows_eq; [|apply rows_transpose].
  intros Hnil. apply (f_equal (@length _)) in Hnil.
  rewrite length_transpose in Hnil. simpl in Hnil. contradiction.
Qed.

Lemma rows_matmul (A B : matrix) :
  rows (ncols B) B -> rows (ncols B) (matmul A B).
Proof.
  intros HB. unfold rows, matmul. apply Forall_forall. intros r Hr.
  apply in_map_iff in Hr as (r0 & <- & _). unfold vecmat.
  now apply LinAlg.length_lincomb.
Qed.

Lemma ncols_matmul (A B : matrix) :
  A <> [] -> rows (ncols B) B -> ncols (matmul A B) = ncols B.
Proof.
  intros Hne HB. apply LinAlg.ncols_rows_eq; [|now apply rows_matmul].
  intros Hnil. apply (f_equal (@length _)) in Hnil.
  rewrite LinAlg.length_matmul_eq in Hnil. destruct A; [congruence | discriminate].
Qed.

(** The three products and the sum that build Sigma have matching
    shapes as soon as there is one standard deviation per observation. *)
Lemma covariance_matrix_Ok (stations : list (R * R)) (obs_stds measV : ndarray) :
  length obs_stds = length stations -> length measV = length stations ->
  covariance_matrix (with_import distance) stations obs_stds measV
  = Ok (map2 vadd
          (matmul (matmul (transpose (np_diag obs_stds))
                          (construct_spatial_correlation_matrix2 distance stations))
                  (np_diag obs_stds))
          (np_diag measV)).
Proof.
  intros Hs Hv. unfold covariance_matrix, with_import, np_matmul, np_matadd.
  destruct stations as [|s0 stations].
  - destruct obs_stds; [|discriminate]. destruct measV; [|discriminate].
    reflexivity.
  - set (C := construct_spatial_correlation_matrix2 distance (s0 :: stations)).
    set (n := length (s0 :: stations)) in *.
    assert (Hn : n <> 0%nat) by (unfold n; simpl; lia).
    assert (HoS : np_diag obs_stds <> []).
    { intros Hnil. apply (f_equal (@length _)) in Hnil.
      rewrite LinAlg.length_np_diag in Hnil. simpl in Hnil. lia. }
    assert (HoSt : transpose (np_diag obs_stds) <> []).
    { intros Hnil. apply (f_equal (@length _)) in Hnil.
      rewrite length_transpose, LinAlg.ncols_np_diag in Hnil.
      simpl in Hnil. lia. }
    assert (HC : rows (ncols C) C).
    { unfold C. rewrite ncols_correlation_matrix.
      apply rows_correlation_matrix. }
    assert (HD : rows (ncols (np_diag obs_stds)) (np_diag obs_stds)).
    { rewrite LinAlg.ncols_np_diag. apply LinAlg.rows_np_diag. }
    rewrite ncols_transpose by (rewrite LinAlg.ncols_np_diag; lia).
    rewrite LinAlg.length_np_diag.
    unfold C at 1. rewrite length_correlation_matrix. fold n.
    rewrite (proj2 (Nat.eqb_eq _ _) Hs). cbn [bind].
    rewrite ncols_matmul by assumption.
    unfold C at 1. rewrite ncols_correlation_matrix. fold n.
    rewrite LinAlg.length_np_diag, Hs, Nat.eqb_refl. cbn [bind].
    rewrite !LinAlg.length_matmul_eq, length_transpose, LinAlg.ncols_np_diag.
    rewrite ?LinAlg.length_np_diag.
    rewrite ncols_matmul.
    + rewrite !LinAlg.ncols_np_diag, Hs, Hv, !Nat.eqb_refl. reflexivity.
    + intros Hnil. apply (f_equal (@length _)) in Hnil.
      rewrite LinAlg.length_matmul_eq in Hnil.
      destruct (transpose (np_diag obs_stds)); [congruence | discriminate].
    + exact HD.
Qed.

Lemma linalg_inv_invertible (A : matrix) :
  invertible A -> exists B, linalg_inv A = Ok B /\ is_inverse A B.
Proof.
  intros HA. unfold linalg_inv.
  destruct (excluded_middle_informative (invertible A)) as [H|H];
    [|contradiction].
  destruct (constructive_indefinite_description _ H) as [B HB].
  exists B. now split.
Qed.

Lemma linalg_inv_singular (A : matrix) :
  ~ invertible A -> linalg_inv A = Raise LinAlgError.
Proof.
  intros HA. unfold linalg_inv.
  destruct (excluded_middle_informative (invertible A)) as [H|H];
    [contradiction | reflexivity].
Qed.

Lemma length_spec_Sigma (obs_data : list Observation) (obs_stds : ndarray) :
  length obs_stds = length obs_data ->
  length (spec_Sigma distance obs_data obs_stds) = length obs_data.
Proof.
  intros Hs. unfold spec_Sigma.
  rewrite length_map2, !LinAlg.length_matmul_eq, length_transpose.
  rewrite LinAlg.ncols_np_diag, LinAlg.length_np_diag, length_map. lia.
Qed.

Lemma spec_Sigma_nonempty (obs_data : list Observation) (obs_stds : ndarray) :
  obs_data <> [] -> length obs_stds = length obs_data ->
  spec_Sigma distance obs_data obs_stds <> [].
Proof.
  intros Hne Hs Hnil. apply (f_equal (@length _)) in Hnil.
  rewrite length_spec_Sigma in Hnil by exact Hs.
  destruct obs_data; [congruence | discriminate].
Qed.

Lemma linalg_cond_Ok (A : matrix) : A <> [] -> linalg_cond A = Ok tt.
Proof. destruct A; [congruence | reflexivity]. Qed.

Lemma covariance_array_Ok (obs_data : list Observation) (obs_stds : ndarray)
  (wrf_data : WRFModelData) (mod_stds : ndarray) (p : nat) :
  length obs_stds = length obs_data ->
  (p < length (get_lons wrf_data))%nat ->
  (p < length (get_lats wrf_data))%nat ->
  (p < length mod_stds)%nat ->
  covariance_array distance (get_lons wrf_data) (get_lats wrf_data) mod_stds
                   obs_stds (map get_position obs_data) (length obs_data) p
  = Ok (spec_cov distance obs_data obs_stds wrf_data mod_stds p).
Proof.
  intros Hs Hlon Hlat Hmod. unfold covariance_array, spec_cov.
  apply mapM_Ok. intros k Hk. apply in_seq in Hk.
  rewrite (getitem_Ok (map get_position obs_data) k
                      (get_position obs_at_origin))
    by (rewrite length_map; lia).
  cbn [bind].
  rewrite (getitem_Ok _ p 0 Hlon). cbn [bind].
  rewrite (getitem_Ok _ p 0 Hlat). cbn [bind].
  rewrite (getitem_Ok _ p 0 Hmod). cbn [bind].
  rewrite (getitem_Ok obs_stds k 0) by lia. cbn [bind].
  now rewrite (map_nth get_position).
Qed.

Lemma simple_kriging_point_Ok (obs_data : list Observation)
  (obs_stds mu_mod : ndarray) (wrf_data : WRFModelData) (mod_stds : ndarray)
  (SigInv : matrix) (p : nat) :
  length obs_stds = length obs_data ->
  (p < length (get_lons wrf_data))%nat ->
  (p < length (get_lats wrf_data))%nat ->
  (p < length mod_stds)%nat ->
  (p < length mu_mod)%nat ->
  simple_kriging_point distance (get_lons wrf_data) (get_lats wrf_data) mu_mod
    mod_stds obs_stds (map get_position obs_data) SigInv
    (spec_residuals obs_data mu_mod) (length obs_data) p
  = Ok (spec_K distance obs_data obs_stds mu_mod wrf_data mod_stds SigInv p,
        spec_V distance obs_data obs_stds wrf_data mod_stds SigInv p).
Proof.
  intros Hs Hlon Hlat Hmod Hmu. unfold simple_kriging_point.
  rewrite covariance_array_Ok by assumption. cbn [bind].
  rewrite (getitem_Ok _ p 0 Hmu). cbn [bind].
  rewrite (getitem_Ok _ p 0 Hmod). cbn [bind].
  reflexivity.
Qed.

(** The whole call, for an inverse [SigInv] that [np.linalg.inv] returns. *)
Lemma simple_kriging_data_to_model_Ok (obs_data : list Observation)
  (obs_stds mu_mod : ndarray) (wrf_data : WRFModelData) (mod_stds : ndarray)
  (t : nat) (SigInv : matrix) :
  obs_data <> [] ->
  length obs_stds = length obs_data ->
  length (get_lons wrf_data) = length (get_lats wrf_data) ->
  length mu_mod = length (get_lats wrf_data) ->
  length mod_stds = length (get_lats wrf_data) ->
  Forall (fun obs => (get_nearest_grid_point obs < length mu_mod)%nat) obs_data ->
  linalg_inv (spec_Sigma distance obs_data obs_stds) = Ok SigInv ->
  simple_kriging_data_to_model distance (with_import distance) obs_data obs_stds mu_mod wrf_data
                               mod_stds t
  = Ok (map (spec_K distance obs_data obs_stds mu_mod wrf_data mod_stds SigInv)
            (seq 0 (length (get_lats wrf_data))),
        map (spec_V distance obs_data obs_stds wrf_data mod_stds SigInv)
            (seq 0 (length (get_lats wrf_data)))).
Proof.
  intros Hne Hs Hlon Hmu Hmod Hin Hinv. unfold simple_kriging_data_to_model.
  rewrite (sample_Ok mu_mod obs_data Hin). cbn [bind].
  rewrite covariance_matrix_Ok by (rewrite ?length_map; trivial).
  cbn [bind]. fold (spec_Sigma distance obs_data obs_stds).
  rewrite Hinv. cbn [bind].
  rewrite (linalg_cond_Ok _ (spec_Sigma_nonempty obs_data obs_stds Hne Hs)).
  cbn [bind].
  fold (spec_residuals obs_data mu_mod). unfold ndindex.
  assert (HK : length (zeros_like (get_lats wrf_data))
               = length (get_lats wrf_data))
    by (unfold zeros_like; apply length_map).
  rewrite (foldM_assign2 _
             (spec_K distance obs_data obs_stds mu_mod wrf_data mod_stds SigInv)
             (spec_V distance obs_data obs_stds wrf_data mod_stds SigInv)).
  - now rewrite HK.
  - unfold zeros_like. rewrite !length_map. exact Hlon.
  - rewrite HK. intros p Hp. apply simple_kriging_point_Ok; lia.
Qed.

End SimpleKrigingFacts.

Lemma linalg_inv_is_inverse (A B : matrix) :
  is_inverse A B -> linalg_inv A = Ok B.
Proof.
  intros HB.
  destruct (linalg_inv_invertible A (ex_intro _ B HB)) as (B' & Hcall & HB').
  now rewrite (LinAlg.inverse_unique A B B' HB HB').
Qed.

(** ** The module as given: the matrix constructor is not bound *)

Lemma covariance_matrix_as_given (stations : list (R * R))
  (obs_stds measV : ndarray) :
  covariance_matrix as_given stations obs_stds measV = Raise NameError.
Proof. reflexivity. Qed.

(** C1 fails on the code.  [kriging_methods.py] imports
    [great_circle_distance] only and defines no
    [construct_spatial_correlation_matrix2].  On the claim's inputs (the
    nearest grid point of every observation inside the mean field) the
    loop over the observations passes, and the call raises [NameError]
    where Sigma is assembled (line 38): it returns no K and no V. *)
Theorem simple_kriging_name_error (distance : R -> R -> R -> R -> R)
  (obs_data : list Observation) (obs_stds mu_mod : ndarray)
  (wrf_data : WRFModelData) (mod_stds : ndarray) (t : nat) :
  Forall (fun obs => (get_nearest_grid_point obs < length mu_mod)%nat) obs_data ->
  simple_kriging_data_to_model distance as_given obs_data obs_stds mu_mod
                               wrf_data mod_stds t = Raise NameError.
Proof.
  intros Hin. unfold simple_kriging_data_to_model.
  rewrite (sample_Ok mu_mod obs_data Hin). cbn [bind].
  now rewrite covariance_matrix_as_given.
Qed.

Lemma simple_kriging_name_error_witness :
  simple_kriging_data_to_model great_circle_distance_km as_given
    [obs_at_origin] [0.05] flat_field one_cell_grid [0.1] 1 = Raise NameError.
Proof.
  apply simple_kriging_name_error. repeat constructor.
Defined.

(** C2 fails on the code.  As given, simple kriging returns no variance
    field on any input: it raises [IndexError] in the loop over the
    observations when a nearest grid point lies outside the mean field,
    and [NameError] at line 38 otherwise.  No V exists that could be
    compared with the prior variance. *)
Theorem simple_kriging_returns_no_variance (distance : R -> R -> R -> R -> R)
  (obs_data : list Observation) (obs_stds mu_mod : ndarray)
  (wrf_data : WRFModelData) (mod_stds : ndarray) (t : nat) :
  simple_kriging_data_to_model distance as_given obs_data obs_stds mu_mod
                               wrf_data mod_stds t
  = Raise (if observations_inside mu_mod obs_data then NameError
           else IndexError).
Proof.
  unfold simple_kriging_data_to_model. rewrite sample_decide.
  destruct (observations_inside mu_mod obs_data); [|reflexivity].
  cbn [bind]. now rewrite covariance_matrix_as_given.
Qed.

(** C8 fails on the code.  As given, the assimilation step delivers
    nothing to the Kalman update, clamped or not: the kriging call of
    [run_module] raises ([IndexError] in the loop over the observations,
    [NameError] at line 38 of [kriging_methods.py] otherwise) before the
    loop over the grid points that calls [kalman_update] is reached. *)
Theorem assimilation_step_delivers_nothing (distance : R -> R -> R -> R -> R)
  (obs_data : list Observation) (obs_stds Efit : ndarray)
  (wrf_data : WRFModelData) (mod_stds : ndarray) (t : nat) (dom : list nat) :
  krige_and_update distance as_given obs_data obs_stds Efit wrf_data mod_stds
                   t dom
  = Raise (if observations_inside Efit obs_data then NameError
           else IndexError).
Proof.
  unfold krige_and_update, simple_kriging_data_to_model.
  rewrite sample_decide.
  destruct (observations_inside Efit obs_data); [|reflexivity].
  cbn [bind]. now rewrite covariance_matrix_as_given.
Qed.


(** ** The module with the matrix constructor imported *)


(** ** One observation *)

Lemma is_inverse_1x1 (x : R) : x <> 0 -> is_inverse [[x]] [[1 / x]].
Proof.
  intros Hx. unfold is_inverse, is_mat, rows. cbn [length].
  repeat split; try (repeat constructor).
  - unfold matmul, vecmat, lincomb, eye, np_diag, vadd, vscale, map2, ncols.
    cbn. do 2 f_equal. field. exact Hx.
  - unfold matmul, vecmat, lincomb, eye, np_diag, vadd, vscale, map2, ncols.
    cbn. do 2 f_equal. field. exact Hx.
Qed.

Lemma spec_Sigma_single (distance : R -> R -> R -> R -> R) (obs : Observation)
  (s : R) :
  spec_Sigma distance [obs] [s]
  = [[s * correlation (distance (fst (get_position obs)) (snd (get_position obs))
                                (fst (get_position obs)) (snd (get_position obs)))
        * s
      + get_measurement_variance obs]].
Proof.
  unfold spec_Sigma, construct_spatial_correlation_matrix2, matmul, vecmat,
    lincomb, transpose, col, np_diag, vadd, vscale, map2, ncols.
  cbn. do 2 f_equal. ring.
Qed.

Lemma single_entry_pos (distance : R -> R -> R -> R -> R) (obs : Observation)
  (s : R) :
  0 < get_measurement_variance obs ->
  s * correlation (distance (fst (get_position obs)) (snd (get_position obs))
                            (fst (get_position obs)) (snd (get_position obs)))
    * s
  + get_measurement_variance obs <> 0.
Proof.
  intros Hv.
  pose proof (correlation_nonneg
                (distance (fst (get_position obs)) (snd (get_position obs))
                          (fst (get_position obs)) (snd (get_position obs)))).
  nra.
Qed.

Lemma is_inverse_single (distance : R -> R -> R -> R -> R) (obs : Observation)
  (s : R) :
  0 < get_measurement_variance obs ->
  exists SigInv, is_inverse (spec_Sigma distance [obs] [s]) SigInv.
Proof.
  intros Hv. rewrite spec_Sigma_single.
  eexists. apply is_inverse_1x1. now apply single_entry_pos.
Qed.


(** ** The assimilation step *)




(** ** Universal kriging *)

Section UniversalKrigingFacts.

Variable distance : R -> R -> R -> R -> R.

Lemma lincomb_as_column (w : ndarray) : forall v,
  lincomb 1 v (as_column w) = [dot v w].
Proof.
  induction w as [|y w IH]; intros v.
  - cbn [as_column map]. rewrite LinAlg.lincomb_nil_r, LinAlg.dot_nil_r.
    reflexivity.
  - destruct v as [|x v].
    + reflexivity.
    + cbn [as_column map]. fold (as_column w).
      rewrite LinAlg.lincomb_cons, IH, LinAlg.dot_cons. reflexivity.
Qed.

Lemma ncols_as_column (w : ndarray) : w <> [] -> ncols (as_column w) = 1%nat.
Proof. destruct w; [congruence | reflexivity]. Qed.

(** [u] (1 x N) times a column (N x 1) *)
Lemma matmul_row_column (u w : ndarray) :
  w <> [] -> matmul [u] (as_column w) = [[dot u w]].
Proof.
  intros Hw. unfold matmul, vecmat. cbn [map].
  now rewrite ncols_as_column, lincomb_as_column.
Qed.

Lemma transpose_as_column (w : ndarray) :
  w <> [] -> transpose (as_column w) = [w].
Proof.
  intros Hw. unfold transpose. rewrite ncols_as_column by exact Hw.
  cbn [seq map]. f_equal. unfold col, as_column. rewrite map_map.
  cbn [nth]. apply map_id.
Qed.

Lemma vadd_zero_r (v : ndarray) : vadd v (repeat 0 (length v)) = v.
Proof.
  unfold vadd, map2.
  induction v as [|x v IH]; cbn [length repeat combine map fst snd];
    [reflexivity|].
  rewrite IH. f_equal. ring.
Qed.

(** [[g]] (1 x 1) times [u] (1 x N) *)
Lemma matmul_scalar_row (g : R) (u : ndarray) :
  matmul [[g]] [u] = [vscale g u].
Proof.
  unfold matmul, vecmat, ncols. cbn [map hd].
  rewrite LinAlg.lincomb_cons, LinAlg.lincomb_nil_r.
  rewrite <- (LinAlg.length_vscale g u). now rewrite vadd_zero_r.
Qed.

Lemma sampled_scaled (m : ndarray) (gamma : R) (obs_data : list Observation) :
  Forall (fun obs => (get_nearest_grid_point obs < length m)%nat) obs_data ->
  sampled (map (fun x => x * gamma) m) obs_data
  = map (fun x => x * gamma) (sampled m obs_data).
Proof.
  intros Hin. unfold sampled. rewrite map_map. apply map_ext_in.
  intros obs Hobs.
  apply (nth_map_lt (fun x => x * gamma) m).
  exact (proj1 (Forall_forall _ _) Hin obs Hobs).
Qed.

(** The residual matrix of universal kriging, row by row. *)
Lemma transpose_broadcast_sub (ys mus : ndarray) :
  ys <> [] ->
  transpose (broadcast_sub (as_column ys) mus)
  = map (fun mi => map (fun yj => yj - mi) ys) mus.
Proof.
  intros Hys. unfold transpose, broadcast_sub, as_column.
  rewrite map_map. cbn [hd].
  assert (Hn : ncols (map (fun x => map (fun rj => x - rj) mus) ys)
               = length mus).
  { destruct ys; [congruence|]. unfold ncols. cbn [map hd]. apply length_map. }
  rewrite Hn. apply (list_ext_nth []).
  - now rewrite !length_map, length_seq.
  - rewrite length_map, length_seq. intros i Hi.
    rewrite nth_map_seq by exact Hi.
    rewrite (nth_map_lt _ mus i 0 []) by exact Hi.
    unfold col. rewrite map_map. apply map_ext. intros y.
    now rewrite (nth_map_lt (fun rj => y - rj) mus i 0 0).
Qed.

Lemma np_sum_concat_map (f : R -> ndarray) (l : ndarray) :
  np_sum (concat (map f l)) = np_sum (map (fun x => np_sum (f x)) l).
Proof.
  induction l as [|x l IH]; cbn [map concat]; [reflexivity|].
  rewrite Welford.np_sum_app. unfold np_sum at 3. cbn [fold_right].
  fold (np_sum (map (fun x0 => np_sum (f x0)) l)). now rewrite IH.
Qed.

Lemma length_concat_map (f : R -> ndarray) (k : nat) (l : ndarray) :
  (forall x, length (f x) = k) ->
  length (concat (map f l)) = (length l * k)%nat.
Proof.
  intros Hf. induction l as [|x l IH]; cbn [map concat length]; [reflexivity|].
  rewrite length_app, Hf, IH. lia.
Qed.

Lemma mape_pairwise (gamma : R) (ms ys : ndarray) :
  ys <> [] -> ms <> [] ->
  np_mean (map Rabs
             (concat (transpose
                        (broadcast_sub (as_column ys)
                                       (map (fun x => x * gamma) ms)))))
  = Finite (pairwise_mean_abs gamma ms ys).
Proof.
  intros Hys Hms. rewrite transpose_broadcast_sub by exact Hys.
  rewrite map_map, concat_map, map_map.
  unfold np_mean, pairwise_mean_abs.
  rewrite (np_sum_concat_map (fun mi => map Rabs (map (fun yj => yj - mi * gamma) ys))).
  rewrite (length_concat_map _ (length ys))
    by (intros x; now rewrite !length_map).
  unfold np_div.
  destruct (Req_dec_T (INR (length ms * length ys)) 0) as [H0|_].
  - exfalso. change 0 with (INR 0) in H0. apply INR_eq in H0.
    destruct ms; [congruence|]. destruct ys; [congruence|].
    simpl in H0. lia.
  - do 2 f_equal. f_equal. apply map_ext. intros mi. now rewrite map_map.
Qed.

Lemma getitem2_single (x : R) : getitem2 [[x]] 0 0 = Ok x.
Proof. reflexivity. Qed.

Lemma length_spec_cov (obs_data : list Observation) (obs_stds : ndarray)
  (wrf_data : WRFModelData) (mod_stds : ndarray) (p : nat) :
  length (spec_cov distance obs_data obs_stds wrf_data mod_stds p)
  = length obs_data.
Proof. unfold spec_cov. now rewrite length_map, length_seq. Qed.

Lemma nonempty_length {A : Type} (l : list A) : length l <> 0%nat -> l <> [].
Proof. destruct l; [simpl; congruence | discriminate]. Qed.

(** The body of the grid loop of universal kriging returns a pair of
    values at every grid point. *)
Lemma universal_kriging_point_Ok (obs0 : Observation) (rest : list Observation)
  (obs_stds mu_mod : ndarray) (wrf_data : WRFModelData) (mod_stds : ndarray)
  (SigInv : matrix) (ys xs0 : ndarray) (xsx_1 : npfloat) :
  length obs_stds = length (obs0 :: rest) ->
  ys <> [] ->
  exists g h : nat -> npfloat,
    forall p,
      (p < length (get_lons wrf_data))%nat ->
      (p < length (get_lats wrf_data))%nat ->
      (p < length mod_stds)%nat ->
      (p < length mu_mod)%nat ->
      universal_kriging_point distance (get_lons wrf_data) (get_lats wrf_data)
        mu_mod mod_stds obs_stds (map get_position (obs0 :: rest)) SigInv
        (as_column ys) [xs0] xsx_1 (length (obs0 :: rest)) p
      = Ok (g p, h p).
Proof.
  intros Hs Hys. eexists. eexists. intros p Hlon Hlat Hmod Hmu.
  unfold universal_kriging_point.
  rewrite covariance_array_Ok by assumption. cbn [bind].
  rewrite (getitem_Ok _ p 0 Hmu). cbn [bind].
  rewrite (getitem_Ok _ p 0 Hmod). cbn [bind].
  assert (Hc : spec_cov distance (obs0 :: rest) obs_stds wrf_data mod_stds p
               <> []).
  { apply nonempty_length. rewrite length_spec_cov. simpl. lia. }
  rewrite (transpose_as_column _ Hc).
  rewrite (matmul_row_column _ _ Hc), getitem2_single. cbn [bind].
  unfold matmul at 2. cbn [map].
  rewrite (matmul_row_column _ _ Hys), getitem2_single. cbn [bind].
  unfold matmul at 2. cbn [map].
  rewrite (matmul_row_column _ _ Hc), getitem2_single. cbn [bind].
  reflexivity.
Qed.

(** The whole call on a non-empty observation list, for an inverse
    [SigInv] of Sigma and a trend fit that is not degenerate. *)
Lemma universal_kriging_data_to_model_Ok (obs0 : Observation)
  (rest : list Observation) (obs_stds m : ndarray) (wrf_data : WRFModelData)
  (mod_stds : ndarray) (t : nat) (SigInv : matrix) :
  length obs_stds = length (obs0 :: rest) ->
  length (get_lons wrf_data) = length (get_lats wrf_data) ->
  length m = length (get_lats wrf_data) ->
  length mod_stds = length (get_lats wrf_data) ->
  Forall (fun obs => (get_nearest_grid_point obs < length m)%nat)
         (obs0 :: rest) ->
  is_inverse (spec_Sigma distance (obs0 :: rest) obs_stds) SigInv ->
  dot (vecmat (sampled m (obs0 :: rest)) SigInv) (sampled m (obs0 :: rest))
  <> 0 ->
  exists K V,
    universal_kriging_data_to_model distance (with_import distance) (obs0 :: rest) obs_stds m
                                    wrf_data mod_stds t
    = Ok (K, V,
          gls_gamma SigInv (sampled m (obs0 :: rest))
                    (map get_value (obs0 :: rest)),
          Finite (pairwise_mean_abs
                    (gls_gamma SigInv (sampled m (obs0 :: rest))
                               (map get_value (obs0 :: rest)))
                    (sampled m (obs0 :: rest))
                    (map get_value (obs0 :: rest)))) /\
    length K = length m /\ length V = length m.
Proof.
  intros Hs Hlon Hm Hmod Hin Hinv Hq.
  set (obs_data := obs0 :: rest) in *.
  set (m1 := sampled m obs_data) in *.
  set (ys := map get_value obs_data) in *.
  assert (Hm1 : m1 <> []).
  { apply nonempty_length. unfold m1. rewrite length_sampled.
    unfold obs_data. simpl. lia. }
  assert (Hys : ys <> []).
  { apply nonempty_length. unfold ys. rewrite length_map.
    unfold obs_data. simpl. lia. }
  set (gamma := gls_gamma SigInv m1 ys).
  set (mu_mod := map (fun x => x * gamma) m).
  assert (Hmu : length mu_mod = length m) by (unfold mu_mod; apply length_map).
  destruct (universal_kriging_point_Ok obs0 rest obs_stds mu_mod wrf_data
              mod_stds SigInv ys (vecmat ys SigInv)
              (np_div 1 (dot (vecmat ys SigInv) ys)) Hs Hys)
    as (g & h & Hpoint).
  exists (map g (seq 0 (length (get_lats wrf_data)))),
         (map h (seq 0 (length (get_lats wrf_data)))).
  split; [|now rewrite !length_map, !length_seq].
  unfold universal_kriging_data_to_model.
  rewrite (sample_Ok m obs_data Hin). cbn [bind]. fold m1 ys.
  rewrite covariance_matrix_Ok by (rewrite ?length_map; trivial).
  cbn [bind]. fold (spec_Sigma distance obs_data obs_stds).
  rewrite (linalg_inv_is_inverse _ _ Hinv). cbn [bind].
  rewrite (transpose_as_column m1 Hm1).
  unfold matmul at 2. cbn [map].
  rewrite (matmul_row_column _ _ Hm1).
  rewrite (linalg_inv_is_inverse _ _ (is_inverse_1x1 _ Hq)). cbn [bind].
  rewrite matmul_scalar_row.
  unfold matmul at 2. cbn [map].
  rewrite (matmul_row_column _ _ Hys), getitem2_single. cbn [bind].
  fold (gls_gamma SigInv m1 ys). fold gamma. fold mu_mod.
  rewrite (sample_Ok mu_mod obs_data)
    by (rewrite Hmu; exact Hin).
  cbn [bind].
  replace (sampled mu_mod obs_data) with (map (fun x => x * gamma) m1)
    by (symmetry; apply (sampled_scaled m gamma obs_data Hin)).
  rewrite (mape_pairwise gamma m1 ys Hys Hm1).
  rewrite (linalg_cond_Ok _ (spec_Sigma_nonempty distance obs_data obs_stds
                               ltac:(discriminate) Hs)).
  cbn [bind].
  rewrite (transpose_as_column ys Hys).
  unfold matmul at 2. cbn [map].
  rewrite (matmul_row_column _ _ Hys), getitem2_single. cbn [bind].
  assert (HK : length (map Finite (zeros_like (get_lats wrf_data)))
               = length (get_lats wrf_data))
    by (unfold zeros_like; now rewrite !length_map).
  rewrite (foldM_assign2 _ g h).
  - cbn [bind fst snd]. now rewrite HK.
  - unfold zeros_like. rewrite !length_map. exact Hlon.
  - rewrite HK. intros p Hp. apply Hpoint; lia.
Qed.

End UniversalKrigingFacts.

(** The trend coefficient is gamma = (m^T SigInv y) / (m^T SigInv m). *)
Lemma gls_gamma_quotient (SigInv : matrix) (ms ys : ndarray) :
  rows (ncols SigInv) SigInv ->
  gls_gamma SigInv ms ys
  = dot (vecmat ms SigInv) ys / dot (vecmat ms SigInv) ms.
Proof.
  intros HS. unfold gls_gamma, vecmat.
  rewrite LinAlg.lincomb_vscale by exact HS.
  rewrite LinAlg.dot_vscale. unfold Rdiv. ring.
Qed.

Lemma gls_gamma_exact_fit (SigInv : matrix) (ms : ndarray) :
  rows (ncols SigInv) SigInv ->
  dot (vecmat ms SigInv) ms <> 0 ->
  gls_gamma SigInv ms ms = 1.
Proof.
  intros HS Hq. rewrite gls_gamma_quotient by exact HS. now field.
Qed.

(** ** Two observations *)

Lemma spec_Sigma_pair (distance : R -> R -> R -> R -> R) (o1 o2 : Observation)
  (s1 s2 : R) :
  spec_Sigma distance [o1; o2] [s1; s2]
  = [[s1 * correlation (distance (fst (get_position o1)) (snd (get_position o1))
                                 (fst (get_position o1)) (snd (get_position o1)))
         * s1 + get_measurement_variance o1;
      s1 * correlation (distance (fst (get_position o1)) (snd (get_position o1))
                                 (fst (get_position o2)) (snd (get_position o2)))
         * s2];
     [s2 * correlation (distance (fst (get_position o2)) (snd (get_position o2))
                                 (fst (get_position o1)) (snd (get_position o1)))
         * s1;
      s2 * correlation (distance (fst (get_position o2)) (snd (get_position o2))
                                 (fst (get_position o2)) (snd (get_position o2)))
         * s2 + get_measurement_variance o2]].
Proof.
  unfold spec_Sigma, construct_spatial_correlation_matrix2, matmul, vecmat,
    lincomb, transpose, col, np_diag, vadd, vscale, map2, ncols.
  cbn. repeat (f_equal; try ring).
Qed.

Lemma is_inverse_diag2 (a b : R) :
  a <> 0 -> b <> 0 -> is_inverse [[a; 0]; [0; b]] [[1 / a; 0]; [0; 1 / b]].
Proof.
  intros Ha Hb. unfold is_inverse, is_mat, rows. cbn [length].
  repeat split; try (repeat constructor).
  - unfold matmul, vecmat, lincomb, eye, np_diag, vadd, vscale, map2, ncols.
    cbn. repeat (f_equal; try (field; assumption)).
  - unfold matmul, vecmat, lincomb, eye, np_diag, vadd, vscale, map2, ncols.
    cbn. repeat (f_equal; try (field; assumption)).
Qed.

Lemma correlation_at_zero : correlation 0 = 0.8565.
Proof. unfold correlation. rewrite Rmax_left by lra. ring. Qed.

(** Sigma of the two observations that lie on the trend: the stations are
    222 km apart, so they are uncorrelated. *)
Lemma spec_Sigma_exact_fit :
  spec_Sigma great_circle_distance_km [obs_at_origin; obs_east] [0.05; 0.05]
  = [[0.05 * 0.8565 * 0.05 + 0.1; 0]; [0; 0.05 * 0.8565 * 0.05 + 0.1]].
Proof.
  rewrite spec_Sigma_pair.
  cbn [obs_at_origin obs_east get_position get_measurement_variance fst snd].
  rewrite !GreatCircle.distance_to_itself.
  rewrite (correlation_zero_far (great_circle_distance_km 0 0 2 0))
    by (apply GreatCircle.two_degrees_apart; rewrite Rabs_left; lra).
  rewrite (correlation_zero_far (great_circle_distance_km 2 0 0 0))
    by (apply GreatCircle.two_degrees_apart; rewrite Rabs_right; lra).
  rewrite correlation_at_zero.
  repeat (f_equal; try ring).
Qed.

(** C4 fails on the code.  On two uncorrelated observations that the trend
    gamma = 1 fits exactly, the mean absolute residual against the fitted
    trend is 0.  As given, universal kriging raises [NameError] where
    Sigma is assembled (line 94) and returns no mape.  With
    [construct_spatial_correlation_matrix2] imported, the fourth component
    it returns is 1/2: the mean of |y_j - gamma m_i| over all pairs
    (i, j), which is what the subtraction of the N fitted values from the
    N x 1 matrix of the observed values (line 111) leaves to average. *)
Theorem universal_kriging_mape_on_exact_fit :
  mean_abs_residual 1 (sampled trend_field [obs_at_origin; obs_east])
                    (map get_value [obs_at_origin; obs_east]) = 0 /\
  universal_kriging_data_to_model great_circle_distance_km as_given
    [obs_at_origin; obs_east] [0.05; 0.05] trend_field two_cell_grid
    [0.1; 0.1] 1 = Raise NameError /\
  exists K V,
    universal_kriging_data_to_model great_circle_distance_km
      (with_import great_circle_distance_km) [obs_at_origin; obs_east]
      [0.05; 0.05] trend_field two_cell_grid [0.1; 0.1] 1
    = Ok (K, V, 1, Finite (1 / 2)).
Proof.
  split; [|split].
  - unfold mean_abs_residual, sampled, map2, np_sum. cbn.
    replace (1 - 1 * 1) with 0 by ring. replace (2 - 1 * 2) with 0 by ring.
    rewrite Rabs_R0. lra.
  - unfold universal_kriging_data_to_model.
    rewrite (sample_Ok trend_field [obs_at_origin; obs_east])
      by (repeat constructor).
    cbn [bind]. now rewrite covariance_matrix_as_given.
  - set (a := 0.05 * 0.8565 * 0.05 + 0.1).
    assert (Ha : a <> 0) by (unfold a; lra).
    set (SigInv := [[1 / a; 0]; [0; 1 / a]]).
    assert (Hinv : is_inverse
                     (spec_Sigma great_circle_distance_km [obs_at_origin; obs_east]
                                 [0.05; 0.05]) SigInv).
    { rewrite spec_Sigma_exact_fit. now apply is_inverse_diag2. }
    assert (Hrows : rows (ncols SigInv) SigInv) by (repeat constructor).
    assert (Hq : dot (vecmat (sampled trend_field [obs_at_origin; obs_east])
                             SigInv)
                     (sampled trend_field [obs_at_origin; obs_east]) <> 0).
    { unfold SigInv, sampled, vecmat, lincomb, dot, vadd, vscale, map2, np_sum,
        ncols. cbn.
      assert (H : 0 < 1 / a) by (apply Rdiv_lt_0_compat; unfold a; lra).
      lra. }
    destruct (universal_kriging_data_to_model_Ok great_circle_distance_km
                obs_at_origin [obs_east] [0.05; 0.05] trend_field two_cell_grid
                [0.1; 0.1] 1 SigInv eq_refl eq_refl eq_refl eq_refl)
      as (K & V & Hrun & _); trivial.
    { repeat constructor. }
    exists K, V. rewrite Hrun.
    change (map get_value [obs_at_origin; obs_east])
      with (sampled trend_field [obs_at_origin; obs_east]).
    rewrite (gls_gamma_exact_fit SigInv _ Hrows Hq).
    do 2 f_equal.
    unfold pairwise_mean_abs, sampled, np_sum. cbn.
    rewrite (Rabs_right (1 - 1 * 1)), (Rabs_right (2 - 1 * 1)),
      (Rabs_left (1 - 2 * 1)), (Rabs_right (2 - 2 * 1)) by lra.
    f_equal. lra.
Qed.



(** ** The kriging variance under a positive semidefinite correlation *)

Section VarianceBound.

Variable distance : R -> R -> R -> R -> R.

Lemma transpose_np_diag (s : ndarray) : transpose (np_diag s) = np_diag s.
Proof.
  unfold transpose. rewrite LinAlg.ncols_np_diag.
  unfold np_diag at 2. apply map_ext_in. intros j Hj. apply in_seq in Hj.
  rewrite LinAlg.col_np_diag by lia.
  apply map_ext. intros l.
  destruct (Nat.eqb_spec l j) as [->|Hne].
  - now rewrite Nat.eqb_refl.
  - now rewrite (proj2 (Nat.eqb_neq j l)) by congruence.
Qed.


Lemma rows_map2_vadd (m : nat) (A : matrix) : forall B,
  rows m A -> rows m B -> rows m (map2 vadd A B).
Proof.
  unfold map2.
  induction A as [|a A IH]; intros [|b B] HA HB; cbn [combine map];
    try constructor.
  - apply Forall_cons_iff in HA as [Ha _].
    apply Forall_cons_iff in HB as [Hb _].
    cbn [fst snd]. rewrite LinAlg.length_vadd. lia.
  - apply Forall_cons_iff in HA as [_ HA].
    apply Forall_cons_iff in HB as [_ HB]. now apply IH.
Qed.







End VarianceBound.




(** ** Real matrices with rational entries *)

Module Ratio.
























End Ratio.

(** ** The correlation of two sites *)





Section Network.

Variable radius : R.
Hypothesis radius_large : 1000 <= radius.


(** ** Kriging the observations of a network of sites *)










End Network.

(** ** The cross-shaped network *)









(* ------------------------------------------------------------------ *)
(** * Further properties of the code *)

(** ** The online variance estimator with a prior *)

Module WelfordPrior.

Import OnlineVarianceEstimator.

Lemma update_with_tracks_from (m0 v0 : R) (N0 : nat) (e : t R) (l : list R)
  (x : R) :
  tracks_from m0 v0 N0 e l ->
  exists e', update_with e x = Ok e' /\ tracks_from m0 v0 N0 e' (l ++ [x]).
Proof.
  intros (HN & Hmean & HM2).
  unfold update_with. cbn [nsub nadd nmul ndivs Numeric_scalar bind].
  eexists. split; [reflexivity|].
  unfold tracks_from. cbn [N mean M2].
  rewrite length_app, Welford.np_sum_app, Welford.sum_sq_app. cbn [length].
  rewrite HN, HM2.
  replace (N0 + (length l + 1))%nat with (N0 + length l + 1)%nat by lia.
  rewrite (plus_INR (N0 + length l) 1). cbn [INR].
  unfold sum_sq, np_sum in *. cbn [map fold_right].
  set (n := INR (N0 + length l)) in *. set (m := mean e) in *.
  assert (Hn : 0 <= n) by apply pos_INR.
  split; [reflexivity | split].
  - assert (Hb : (m + (x - m) / (n + 1)) * (n + 1) = m * n + x)
      by (field; lra).
    rewrite Hb, Hmean. ring.
  - assert (Hx : x = (n + 1) * (m + (x - m) / (n + 1)) - n * m)
      by (field; lra).
    set (b := m + (x - m) / (n + 1)) in *.
    assert (H1 : x - m = (n + 1) * (b - m)) by lra.
    assert (H2 : x - b = n * (b - m)) by lra.
    rewrite H1, H2. rewrite Hx at 1 2. ring.
Qed.

Lemma run_tracks_from (m0 v0 : R) (N0 : nat) (xs : list R) :
  forall (e : t R) (l : list R),
  tracks_from m0 v0 N0 e l ->
  exists e', run e xs = Ok e' /\ tracks_from m0 v0 N0 e' (l ++ xs).
Proof.
  unfold run. induction xs as [|x xs IH]; intros e l He.
  - exists e. rewrite app_nil_r. now split.
  - destruct (update_with_tracks_from m0 v0 N0 e l x He) as (e1 & Hstep & He1).
    destruct (IH e1 (l ++ [x]) He1) as (e' & Hrun & He').
    exists e'. cbn [foldM]. rewrite Hstep. cbn [bind].
    rewrite <- app_assoc in He'. now split.
Qed.

Lemma tracks_from_init (m0 v0 : R) (N0 : nat) :
  tracks_from m0 v0 N0 (init m0 v0 N0) [].
Proof.
  unfold tracks_from, sum_sq, np_sum. cbn [N mean M2 length map fold_right].
  rewrite Nat.add_0_r. repeat split; ring.
Qed.

Lemma run_from_init (m0 v0 : R) (N0 : nat) (xs : list R) :
  exists e, run (init m0 v0 N0) xs = Ok e /\ tracks_from m0 v0 N0 e xs.
Proof.
  apply (run_tracks_from m0 v0 N0 xs (init m0 v0 N0) []), tracks_from_init.
Qed.

(** The accumulator as a sum of squared deviations from the current mean. *)
Lemma tracks_from_deviations (m0 v0 : R) (N0 : nat) (e : t R) (l : list R) :
  tracks_from m0 v0 N0 e l ->
  M2 e = v0 + np_sum (map (fun x => (x - mean e) * (x - mean e)) l)
         + INR N0 * ((m0 - mean e) * (m0 - mean e)).
Proof.
  intros (_ & Hmean & HM2). rewrite Welford.sum_sq_dev, HM2.
  rewrite plus_INR in *.
  set (b := mean e) in *. set (n := INR (length l)) in *.
  assert (Hs : np_sum l = b * (INR N0 + n) - INR N0 * m0) by lra.
  rewrite Hs. ring.
Qed.

Lemma sum_squares_dev_nonneg (l : list R) (m : R) :
  0 <= np_sum (map (fun x => (x - m) * (x - m)) l).
Proof.
  unfold np_sum. induction l as [|x l IH]; cbn [map fold_right]; [lra|].
  pose proof (Rle_0_sqr (x - m)) as Hsq. unfold Rsqr in Hsq. lra.
Qed.

Lemma tracks_from_M2_lower (m0 v0 : R) (N0 : nat) (e : t R) (l : list R) :
  tracks_from m0 v0 N0 e l -> v0 <= M2 e.
Proof.
  intros He. rewrite (tracks_from_deviations m0 v0 N0 e l He).
  pose proof (sum_squares_dev_nonneg l (mean e)).
  pose proof (pos_INR N0) as HN0.
  pose proof (Rle_0_sqr (m0 - mean e)) as Hsq. unfold Rsqr in Hsq.
  pose proof (Rmult_le_pos _ _ HN0 Hsq). lra.
Qed.

End WelfordPrior.

(** X1.  An estimator constructed with a prior mean m0, accumulator v0 and
    count N0, fed the samples xs in order, always returns; it then holds
    the count N0 + len(xs), the mean of the samples and of N0 copies of m0,
    and as accumulator v0 plus the squared deviations from that mean of the
    samples and of N0 copies of m0. *)
Theorem online_estimator_prior_as_samples (m0 v0 : R) (N0 : nat)
  (xs : list R) :
  exists e,
    OnlineVarianceEstimator.run (OnlineVarianceEstimator.init m0 v0 N0) xs
    = Ok e /\
    OnlineVarianceEstimator.N e = (N0 + length xs)%nat /\
    OnlineVarianceEstimator.get_mean e * INR (N0 + length xs)
    = INR N0 * m0 + np_sum xs /\
    OnlineVarianceEstimator.M2 e
    = v0
      + np_sum (map (fun x => (x - OnlineVarianceEstimator.get_mean e)
                              * (x - OnlineVarianceEstimator.get_mean e)) xs)
      + INR N0 * ((m0 - OnlineVarianceEstimator.get_mean e)
                  * (m0 - OnlineVarianceEstimator.get_mean e)).
Proof.
  destruct (WelfordPrior.run_from_init m0 v0 N0 xs) as (e & Hrun & He).
  exists e. split; [exact Hrun|].
  pose proof (WelfordPrior.tracks_from_deviations m0 v0 N0 e xs He) as HM2.
  destruct He as (HN & Hmean & _).
  unfold OnlineVarianceEstimator.get_mean. now repeat split.
Qed.

Lemma entry_init (j : nat) (m0 v0 : ndarray) (N0 : nat) :
  entry j (OnlineVarianceEstimator.init m0 v0 N0)
  = OnlineVarianceEstimator.init (nth j m0 0) (nth j v0 0) N0.
Proof. reflexivity. Qed.

Lemma Ok_inj {A : Type} (x y : A) : Ok x = Ok y -> x = y.
Proof. intros H. now injection H. Qed.

(** The entries of an array estimator after a run, by the closed form of
    the scalar estimator. *)
Lemma run_array_tracks (m0 v0 : ndarray) (N0 : nat) (xs : list ndarray) :
  length v0 = length m0 ->
  Forall (fun x => length x = length m0) xs ->
  exists e,
    OnlineVarianceEstimator.run (OnlineVarianceEstimator.init m0 v0 N0) xs
    = Ok e /\
    shaped (length m0) e /\
    OnlineVarianceEstimator.N e = (N0 + length xs)%nat /\
    forall j, (j < length m0)%nat ->
      tracks_from (nth j m0 0) (nth j v0 0) N0 (entry j e) (column j xs).
Proof.
  intros Hv Hxs.
  destruct (Welford.run_entry (length m0) xs
              (OnlineVarianceEstimator.init m0 v0 N0))
    as (e & Hrun & Hshape & HN & Hent); [now split | exact Hxs |].
  exists e. split; [exact Hrun|]. split; [exact Hshape|]. split; [exact HN|].
  intros j Hj. specialize (Hent j Hj). rewrite entry_init in Hent.
  destruct (WelfordPrior.run_from_init (nth j m0 0) (nth j v0 0) N0
              (column j xs)) as (ej & Hrunj & Hej).
  rewrite Hrunj in Hent. apply Ok_inj in Hent. subst ej.
  exact Hej.
Qed.

(** X2.  An array estimator constructed with a prior accumulator v0 and
    count N0 and fed arrays of its shape has, once its count is 2 or more,
    a variance estimate that is defined and, entry by entry, at least
    v0 / (N - 1): the samples never lower the accumulator below the prior,
    so a positive prior keeps every variance estimate positive. *)
Theorem online_variance_at_least_prior (m0 v0 : ndarray) (N0 : nat)
  (xs : list ndarray) :
  length v0 = length m0 ->
  Forall (fun x => length x = length m0) xs ->
  (2 <= N0 + length xs)%nat ->
  exists e v,
    OnlineVarianceEstimator.run (OnlineVarianceEstimator.init m0 v0 N0) xs
    = Ok e /\
    OnlineVarianceEstimator.get_variance e = Some v /\
    length v = length m0 /\
    forall j, (j < length m0)%nat ->
      nth j v0 0 / (INR (N0 + length xs) - 1) <= nth j v 0.
Proof.
  intros Hv Hxs HN2.
  destruct (run_array_tracks m0 v0 N0 xs Hv Hxs)
    as (e & Hrun & [Hm HM] & HN & Hent).
  pose proof (le_INR _ _ HN2) as Hn. cbn [INR] in Hn.
  assert (Hd : IZR (Z.of_nat (N0 + length xs) - 1) = INR (N0 + length xs) - 1).
  { rewrite minus_IZR, <- INR_IZR_INZ. reflexivity. }
  exists e, (map (fun x => x / (INR (N0 + length xs) - 1))
                 (OnlineVarianceEstimator.M2 e)).
  split; [exact Hrun|]. split.
  - unfold OnlineVarianceEstimator.get_variance. rewrite HN, Hd.
    destruct (Req_dec_T (INR (N0 + length xs) - 1) 0) as [H0|_]; [lra|].
    reflexivity.
  - rewrite length_map. split; [exact HM|].
    intros j Hj.
    rewrite (nth_map_lt (fun x => x / (INR (N0 + length xs) - 1)) _ j 0 0)
      by lia.
    pose proof (WelfordPrior.tracks_from_M2_lower _ _ _ _ _ (Hent j Hj)) as Hlow.
    unfold entry in Hlow. cbn [OnlineVarianceEstimator.M2] in Hlow.
    unfold Rdiv. apply Rmult_le_compat_r; [|exact Hlow].
    left. apply Rinv_0_lt_compat. lra.
Qed.

Lemma online_variance_at_least_prior_witness :
  exists e v,
    OnlineVarianceEstimator.run
      (OnlineVarianceEstimator.init [0; 0] [0.1; 0.1] 1) [[0.2; -0.1]] = Ok e /\
    OnlineVarianceEstimator.get_variance e = Some v /\
    length v = length [0; 0] /\
    forall j, (j < length [0; 0])%nat ->
      nth j [0.1; 0.1] 0 / (INR (1 + length [[0.2; -0.1]]) - 1) <= nth j v 0.
Proof.
  apply (online_variance_at_least_prior [0; 0] [0.1; 0.1] 1 [[0.2; -0.1]]).
  - reflexivity.
  - repeat constructor.
  - simpl. lia.
Defined.

(** ** The order of the samples *)

Lemma np_sum_Permutation (l l' : list R) :
  Permutation l l' -> np_sum l = np_sum l'.
Proof.
  unfold np_sum. induction 1; cbn [fold_right]; lra.
Qed.

Lemma sum_sq_Permutation (l l' : list R) :
  Permutation l l' -> sum_sq l = sum_sq l'.
Proof.
  intros H. unfold sum_sq. apply np_sum_Permutation. now apply Permutation_map.
Qed.

(** Two scalar estimators that hold the closed form for permuted samples
    are one. *)
Lemma tracks_from_Permutation (m0 v0 : R) (N0 : nat)
  (e e' : OnlineVarianceEstimator.t R) (l l' : list R) :
  Permutation l l' ->
  tracks_from m0 v0 N0 e l -> tracks_from m0 v0 N0 e' l' ->
  (l = [] -> e = e') -> e = e'.
Proof.
  intros Hp (HN & Hmean & HM2) (HN' & Hmean' & HM2') Hnil.
  destruct l as [|x l].
  - now apply Hnil.
  - rewrite <- (Permutation_length Hp) in *.
    rewrite <- (np_sum_Permutation _ _ Hp) in Hmean'.
    rewrite <- (sum_sq_Permutation _ _ Hp) in HM2'.
    assert (Hn : 0 < INR (N0 + length (x :: l))).
    { apply lt_0_INR. simpl. lia. }
    assert (Hm : OnlineVarianceEstimator.mean e = OnlineVarianceEstimator.mean e').
    { apply Rmult_eq_reg_r with (INR (N0 + length (x :: l))); lra. }
    destruct e as [m M n], e' as [m' M' n'].
    cbn [OnlineVarianceEstimator.N OnlineVarianceEstimator.mean
         OnlineVarianceEstimator.M2] in *.
    subst m'. f_equal; [lra | lia].
Qed.

(** X3.  In exact arithmetic the state of a scalar estimator after a run
    does not depend on the order in which the samples arrive. *)
Theorem online_estimator_order_independent (m0 v0 : R) (N0 : nat)
  (xs xs' : list R) :
  Permutation xs xs' ->
  exists e,
    OnlineVarianceEstimator.run (OnlineVarianceEstimator.init m0 v0 N0) xs
    = Ok e /\
    OnlineVarianceEstimator.run (OnlineVarianceEstimator.init m0 v0 N0) xs'
    = Ok e.
Proof.
  intros Hp.
  destruct (WelfordPrior.run_from_init m0 v0 N0 xs) as (e & Hrun & He).
  destruct (WelfordPrior.run_from_init m0 v0 N0 xs') as (e' & Hrun' & He').
  exists e. split; [exact Hrun|]. rewrite Hrun'. f_equal. symmetry.
  apply (tracks_from_Permutation m0 v0 N0 e e' xs xs' Hp He He').
  intros ->. apply Permutation_nil in Hp. subst xs'.
  cbn in Hrun, Hrun'. congruence.
Qed.

Lemma online_estimator_order_independent_witness :
  exists e,
    OnlineVarianceEstimator.run (OnlineVarianceEstimator.init 0 0.03 1) [3; 8]
    = Ok e /\
    OnlineVarianceEstimator.run (OnlineVarianceEstimator.init 0 0.03 1) [8; 3]
    = Ok e.
Proof.
  apply (online_estimator_order_independent 0 0.03 1 [3; 8] [8; 3]).
  apply perm_swap.
Defined.

(** ** The mean-field model *)

(** A sample outside the array raises [IndexError]. *)
Lemma sample_Raise (E : ndarray) (obs_list : list Observation) :
  Exists (fun obs => (length E <= get_nearest_grid_point obs)%nat) obs_list ->
  mapM (fun obs => getitem E (get_nearest_grid_point obs)) obs_list
  = Raise IndexError.
Proof.
  induction obs_list as [|obs l IH]; intros Hex.
  - inversion Hex.
  - cbn [mapM].
    destruct (Nat.lt_ge_cases (get_nearest_grid_point obs) (length E))
      as [Hlt|Hge].
    + rewrite (getitem_Ok E _ 0 Hlt). cbn [bind].
      rewrite IH; [reflexivity|].
      apply Exists_cons in Hex as [Hobs|Hl]; [lia | exact Hl].
    + now rewrite (getitem_Raise E _ Hge).
Qed.

(** The squared residuals, expanded in the scaling. *)
Lemma squared_residuals_expand (g : R) (E : ndarray)
  (obs_list : list Observation) :
  squared_residuals g E obs_list
  = sum_sq (map get_value obs_list)
    - 2 * g * np_sum (map2 Rmult (sampled E obs_list) (map get_value obs_list))
    + g * g * np_sum (map (fun m => m ^ 2) (sampled E obs_list)).
Proof.
  unfold squared_residuals, sum_sq, sampled, map2, np_sum.
  induction obs_list as [|obs l IH];
    cbn [map combine fold_right fst snd]; [ring|].
  rewrite IH. simpl. ring.
Qed.

(** X4.  With observations inside the grid and a background that is not
    zero at all of their grid points, the coefficient that [fit_to_data]
    stores minimises the sum of the squared residuals
    (y_i - g E[nearest(i)])^2 over all scalings g, and no other scaling
    attains the minimum. *)
Theorem fit_to_data_minimises_residuals (self : MeanFieldModel.t)
  (E : ndarray) (obs_list : list Observation) :
  Forall (fun obs => (get_nearest_grid_point obs < length E)%nat) obs_list ->
  np_sum (map (fun m => m ^ 2) (sampled E obs_list)) <> 0 ->
  exists self' gamma,
    MeanFieldModel.fit_to_data self E obs_list = Ok self' /\
    MeanFieldModel.gamma self' = Finite gamma /\
    forall g,
      squared_residuals gamma E obs_list <= squared_residuals g E obs_list /\
      (squared_residuals g E obs_list = squared_residuals gamma E obs_list ->
       g = gamma).
Proof.
  intros Hin Hne. rewrite (fit_to_data_Ok self E obs_list Hin).
  unfold np_div.
  destruct (Req_dec_T (np_sum (map (fun m => m ^ 2) (sampled E obs_list))) 0)
    as [H0|_]; [contradiction|].
  eexists. eexists. split; [reflexivity|]. split; [reflexivity|].
  intros g. rewrite !squared_residuals_expand.
  pose proof (sum_squares_nonneg (sampled E obs_list)) as Hpos.
  set (S := np_sum (map (fun m => m ^ 2) (sampled E obs_list))) in *.
  set (P := np_sum (map2 Rmult (sampled E obs_list) (map get_value obs_list))).
  set (Y := sum_sq (map get_value obs_list)).
  assert (HS : 0 < S) by lra.
  assert (Hid : Y - 2 * g * P + g * g * S
                = Y - 2 * (P / S) * P + P / S * (P / S) * S
                  + S * ((g - P / S) * (g - P / S))) by (field; lra).
  pose proof (Rle_0_sqr (g - P / S)) as Hsq. unfold Rsqr in Hsq.
  split.
  - rewrite Hid. pose proof (Rmult_le_pos _ _ (Rlt_le _ _ HS) Hsq). lra.
  - intros Heq. rewrite Hid in Heq.
    assert (Hz : S * ((g - P / S) * (g - P / S)) = 0) by lra.
    apply Rmult_integral in Hz as [Hz|Hz]; [lra|].
    apply Rmult_integral in Hz as [Hz|Hz]; lra.
Qed.

Lemma fit_to_data_minimises_residuals_witness :
  exists self' gamma,
    MeanFieldModel.fit_to_data MeanFieldModel.init two_cell_field
                               [obs_cell0; obs_cell1] = Ok self' /\
    MeanFieldModel.gamma self' = Finite gamma /\
    forall g,
      squared_residuals gamma two_cell_field [obs_cell0; obs_cell1]
      <= squared_residuals g two_cell_field [obs_cell0; obs_cell1] /\
      (squared_residuals g two_cell_field [obs_cell0; obs_cell1]
       = squared_residuals gamma two_cell_field [obs_cell0; obs_cell1] ->
       g = gamma).
Proof.
  apply (fit_to_data_minimises_residuals MeanFieldModel.init two_cell_field
           [obs_cell0; obs_cell1]).
  - repeat constructor.
  - unfold sampled, np_sum. cbn. lra.
Defined.

Lemma sampled_scaled_field (c : R) (E : ndarray) (obs_list : list Observation) :
  Forall (fun obs => (get_nearest_grid_point obs < length E)%nat) obs_list ->
  sampled (map (Rmult c) E) obs_list = map (Rmult c) (sampled E obs_list).
Proof.
  intros Hin. unfold sampled. rewrite map_map. apply map_ext_in.
  intros obs Hobs. apply nth_map_lt.
  exact (proj1 (Forall_forall _ _) Hin obs Hobs).
Qed.

Lemma np_sum_scaled_products (c : R) (v w : ndarray) :
  np_sum (map2 Rmult (map (Rmult c) v) w) = c * np_sum (map2 Rmult v w).
Proof.
  unfold map2, np_sum. revert w.
  induction v as [|x v IH]; intros [|y w];
    cbn [map combine fold_right fst snd]; try ring.
  rewrite IH. ring.
Qed.

Lemma np_sum_scaled_squares (c : R) (v : ndarray) :
  np_sum (map (fun m => m ^ 2) (map (Rmult c) v))
  = c * c * np_sum (map (fun m => m ^ 2) v).
Proof.
  unfold np_sum. induction v as [|x v IH]; cbn [map fold_right]; [ring|].
  rewrite IH. simpl. ring.
Qed.

(** X5.  The field that the model predicts after a fit does not depend on
    the scale of the background: fitting to c E and predicting from c E,
    for c other than 0, gives the field of fitting to E and predicting
    from E, also when the fit is degenerate. *)
Theorem fit_predict_scale_invariant (self : MeanFieldModel.t) (c : R)
  (E : ndarray) (obs_list : list Observation) :
  Forall (fun obs => (get_nearest_grid_point obs < length E)%nat) obs_list ->
  c <> 0 ->
  exists fitted fitted',
    MeanFieldModel.fit_to_data self E obs_list = Ok fitted /\
    MeanFieldModel.fit_to_data self (map (Rmult c) E) obs_list = Ok fitted' /\
    MeanFieldModel.predict_field fitted' (map (Rmult c) E)
    = MeanFieldModel.predict_field fitted E.
Proof.
  intros Hin Hc.
  assert (Hin' : Forall (fun obs => (get_nearest_grid_point obs
                                     < length (map (Rmult c) E))%nat) obs_list)
    by (now rewrite length_map).
  rewrite (fit_to_data_Ok self E obs_list Hin).
  rewrite (fit_to_data_Ok self _ obs_list Hin').
  eexists. eexists. split; [reflexivity|]. split; [reflexivity|].
  rewrite (sampled_scaled_field c E obs_list Hin).
  rewrite np_sum_scaled_products, np_sum_scaled_squares.
  set (S := np_sum (map (fun m => m ^ 2) (sampled E obs_list))).
  set (P := np_sum (map2 Rmult (sampled E obs_list) (map get_value obs_list))).
  unfold MeanFieldModel.predict_field, np_div. cbn [MeanFieldModel.gamma].
  rewrite map_map.
  destruct (Req_dec_T S 0) as [HS|HS].
  - destruct (Req_dec_T (c * c * S) 0) as [_|HS']; [reflexivity|].
    exfalso. apply HS'. rewrite HS. ring.
  - destruct (Req_dec_T (c * c * S) 0) as [HS'|_].
    + exfalso. apply Rmult_integral in HS' as [HS'|HS']; [|contradiction].
      apply Rmult_integral in HS' as [HS'|HS']; contradiction.
    + apply map_ext. intros e. cbn [np_lift]. f_equal. field. now split.
Qed.

Lemma fit_predict_scale_invariant_witness :
  exists fitted fitted',
    MeanFieldModel.fit_to_data MeanFieldModel.init two_cell_field
                               [obs_cell0; obs_cell1] = Ok fitted /\
    MeanFieldModel.fit_to_data MeanFieldModel.init
                               (map (Rmult 10) two_cell_field)
                               [obs_cell0; obs_cell1] = Ok fitted' /\
    MeanFieldModel.predict_field fitted' (map (Rmult 10) two_cell_field)
    = MeanFieldModel.predict_field fitted two_cell_field.
Proof.
  apply (fit_predict_scale_invariant MeanFieldModel.init 10 two_cell_field
           [obs_cell0; obs_cell1]).
  - repeat constructor.
  - lra.
Defined.

(** X6.  A model predicts the background itself before any fit (the
    coefficient of the constructor is 1), and after a fit to observations
    that are g0 times the background at their nearest grid points, where
    the background is not zero at all of them, it predicts g0 times the
    background at every grid point. *)
Theorem predict_field_recovers_scaled_background (self : MeanFieldModel.t)
  (g0 : R) (E : ndarray) (obs_list : list Observation) :
  Forall (fun obs => (get_nearest_grid_point obs < length E)%nat) obs_list ->
  np_sum (map (fun m => m ^ 2) (sampled E obs_list)) <> 0 ->
  (forall obs, In obs obs_list ->
     get_value obs = g0 * nth (get_nearest_grid_point obs) E 0) ->
  MeanFieldModel.predict_field MeanFieldModel.init E = map Finite E /\
  exists fitted,
    MeanFieldModel.fit_to_data self E obs_list = Ok fitted /\
    MeanFieldModel.predict_field fitted E = map (fun e => Finite (g0 * e)) E.
Proof.
  intros Hin Hne Hexact. split.
  - unfold MeanFieldModel.predict_field, MeanFieldModel.init.
    cbn [MeanFieldModel.gamma np_lift]. apply map_ext. intros e.
    f_equal. ring.
  - rewrite (fit_to_data_Ok self E obs_list Hin).
    eexists. split; [reflexivity|].
    unfold MeanFieldModel.predict_field, np_div. cbn [MeanFieldModel.gamma].
    destruct (Req_dec_T (np_sum (map (fun m => m ^ 2) (sampled E obs_list))) 0)
      as [H0|_]; [contradiction|].
    rewrite (exact_scaling_sums g0 E obs_list Hexact).
    apply map_ext. intros e. cbn [np_lift]. f_equal. field. exact Hne.
Qed.

Lemma predict_field_recovers_scaled_background_witness :
  MeanFieldModel.predict_field MeanFieldModel.init two_cell_field
  = map Finite two_cell_field /\
  exists fitted,
    MeanFieldModel.fit_to_data MeanFieldModel.init two_cell_field
                               [obs_cell0; obs_cell1] = Ok fitted /\
    MeanFieldModel.predict_field fitted two_cell_field
    = map (fun e => Finite (2 * e)) two_cell_field.
Proof.
  apply (predict_field_recovers_scaled_background MeanFieldModel.init 2
           two_cell_field [obs_cell0; obs_cell1]).
  - repeat constructor.
  - unfold sampled, np_sum. cbn. lra.
  - intros obs [<-|[<-|[]]]; cbn; lra.
Defined.

(** X7.  [fit_to_data] raises [IndexError] as soon as one observation's
    nearest grid point lies outside the background field; no coefficient
    is stored. *)
Theorem fit_to_data_outside_grid (self : MeanFieldModel.t) (E : ndarray)
  (obs_list : list Observation) :
  Exists (fun obs => (length E <= get_nearest_grid_point obs)%nat) obs_list ->
  MeanFieldModel.fit_to_data self E obs_list = Raise IndexError.
Proof.
  intros Hex. unfold MeanFieldModel.fit_to_data.
  now rewrite mapM_map, (sample_Raise E obs_list Hex).
Qed.

Lemma fit_to_data_outside_grid_witness :
  MeanFieldModel.fit_to_data MeanFieldModel.init flat_field
                             [obs_cell0; obs_cell1] = Raise IndexError.
Proof.
  apply fit_to_data_outside_grid.
  apply Exists_cons_tl, Exists_cons_hd. cbn. lia.
Defined.

(** ** Simple kriging *)

Section SimpleKrigingProperties.

Variable distance : R -> R -> R -> R -> R.

(** The call on inputs that fit together, for an inverse of Sigma. *)
Lemma simple_kriging_run (obs_data : list Observation)
  (obs_stds mu_mod : ndarray) (wrf_data : WRFModelData) (mod_stds : ndarray)
  (t : nat) (SigInv : matrix) :
  kriging_inputs obs_data obs_stds mu_mod wrf_data mod_stds ->
  is_inverse (spec_Sigma distance obs_data obs_stds) SigInv ->
  simple_kriging_data_to_model distance (with_import distance) obs_data obs_stds mu_mod wrf_data
                               mod_stds t
  = Ok (map (spec_K distance obs_data obs_stds mu_mod wrf_data mod_stds SigInv)
            (seq 0 (length mu_mod)),
        map (spec_V distance obs_data obs_stds wrf_data mod_stds SigInv)
            (seq 0 (length mu_mod))).
Proof.
  intros (Hne & Hs & Hlon & Hmu & Hmod & Hin) Hinv. rewrite Hmu.
  apply simple_kriging_data_to_model_Ok; trivial.
  now apply linalg_inv_is_inverse.
Qed.

Lemma map_nth_seq (l : ndarray) : map (fun p => nth p l 0) (seq 0 (length l)) = l.
Proof.
  apply (list_ext_nth 0).
  - now rewrite length_map, length_seq.
  - rewrite length_map, length_seq. intros j Hj.
    now rewrite (nth_map_seq (fun p => nth p l 0)).
Qed.

Lemma dot_zeros_r (u : ndarray) : forall z,
  Forall (fun x => x = 0) z -> dot u z = 0.
Proof.
  induction u as [|a u IH]; intros [|b z] Hz; try reflexivity.
  apply Forall_cons_iff in Hz as [-> Hz].
  rewrite LinAlg.dot_cons, IH by exact Hz. ring.
Qed.

Lemma dot_zeros_l (z : ndarray) (u : ndarray) :
  Forall (fun x => x = 0) z -> dot z u = 0.
Proof. intros Hz. rewrite LinAlg.dot_comm. now apply dot_zeros_r. Qed.

Lemma vadd_zeros (a : ndarray) : forall b,
  Forall (fun x => x = 0) a -> Forall (fun x => x = 0) b ->
  Forall (fun x => x = 0) (vadd a b).
Proof.
  unfold vadd, map2. induction a as [|x a IH]; intros [|y b] Ha Hb;
    cbn [combine map]; try constructor.
  - apply Forall_cons_iff in Ha as [-> _].
    apply Forall_cons_iff in Hb as [-> _]. cbn [fst snd]. ring.
  - apply IH; [now apply Forall_cons_iff in Ha | now apply Forall_cons_iff in Hb].
Qed.

(** The combination of rows with coefficients that are all zero. *)
Lemma lincomb_zeros (m : nat) (A : matrix) : forall c,
  Forall (fun x => x = 0) c -> Forall (fun x => x = 0) (lincomb m c A).
Proof.
  induction A as [|r A IH]; intros c Hc.
  - rewrite LinAlg.lincomb_nil_r. apply Forall_forall. intros x Hx.
    now apply repeat_spec in Hx.
  - destruct c as [|x c].
    + rewrite LinAlg.lincomb_nil_l. apply Forall_forall. intros y Hy.
      now apply repeat_spec in Hy.
    + apply Forall_cons_iff in Hc as [-> Hc]. rewrite LinAlg.lincomb_cons.
      apply vadd_zeros; [|now apply IH].
      unfold vscale. apply Forall_forall. intros y Hy.
      apply in_map_iff in Hy as (z & <- & _). ring.
Qed.

(** Where the covariance array of a grid point is zero, kriging leaves the
    mean and the prior variance. *)
Lemma spec_cov_zero (obs_data : list Observation) (obs_stds mu_mod : ndarray)
  (wrf_data : WRFModelData) (mod_stds : ndarray) (SigInv : matrix) (p : nat) :
  Forall (fun x => x = 0)
         (spec_cov distance obs_data obs_stds wrf_data mod_stds p) ->
  spec_K distance obs_data obs_stds mu_mod wrf_data mod_stds SigInv p
  = nth p mu_mod 0 /\
  spec_V distance obs_data obs_stds wrf_data mod_stds SigInv p
  = nth p mod_stds 0 ^ 2.
Proof.
  intros Hz. unfold spec_K, spec_V, vecmat.
  rewrite !dot_zeros_l by (now apply lincomb_zeros).
  split; ring.
Qed.

Lemma spec_residuals_zero (obs_data : list Observation) (mu_mod : ndarray) :
  (forall obs, In obs obs_data ->
     get_value obs = nth (get_nearest_grid_point obs) mu_mod 0) ->
  Forall (fun x => x = 0) (spec_residuals obs_data mu_mod).
Proof.
  intros Hfit. unfold spec_residuals, sampled, map2.
  induction obs_data as [|obs l IH]; cbn [map combine]; constructor.
  - cbn [fst snd]. rewrite (Hfit obs (or_introl eq_refl)). ring.
  - apply IH. intros o Ho. apply Hfit. now right.
Qed.

(** The covariance array reads the positions of the observations only. *)
Lemma spec_cov_positions (obs_data obs_data' : list Observation)
  (obs_stds : ndarray) (wrf_data : WRFModelData) (mod_stds : ndarray)
  (p : nat) :
  map get_position obs_data' = map get_position obs_data ->
  spec_cov distance obs_data' obs_stds wrf_data mod_stds p
  = spec_cov distance obs_data obs_stds wrf_data mod_stds p.
Proof.
  intros Hpos. unfold spec_cov.
  assert (Hlen : length obs_data' = length obs_data).
  { rewrite <- (length_map get_position obs_data'), Hpos. apply length_map. }
  rewrite Hlen. apply map_ext. intros k.
  rewrite <- !(map_nth get_position), Hpos. reflexivity.
Qed.

Lemma spec_Sigma_positions (obs_data obs_data' : list Observation)
  (obs_stds : ndarray) :
  map get_position obs_data' = map get_position obs_data ->
  map get_measurement_variance obs_data'
  = map get_measurement_variance obs_data ->
  spec_Sigma distance obs_data' obs_stds = spec_Sigma distance obs_data obs_stds.
Proof. intros Hpos Hvar. unfold spec_Sigma. now rewrite Hpos, Hvar. Qed.

End SimpleKrigingProperties.

Lemma correlation_zero_beyond (d : R) :
  0.8565 / 0.0063 <= d -> correlation d = 0.
Proof.
  intros Hd. unfold correlation. apply Rmax_right.
  assert (H : 0.8565 <= 0.0063 * d).
  { apply (Rmult_le_compat_l 0.0063) in Hd; [|lra].
    replace (0.0063 * (0.8565 / 0.0063)) with 0.8565 in Hd by (field; lra).
    exact Hd. }
  lra.
Qed.

(** X8.  When every observation equals the mean field at its nearest grid
    point, simple kriging returns the mean field itself as the kriged
    field.
    The statement is about the module with
    [construct_spatial_correlation_matrix2] imported ([with_import]); as
    given, the call raises [NameError] where Sigma is assembled. *)
Theorem simple_kriging_zero_residuals (distance : R -> R -> R -> R -> R)
  (obs_data : list Observation) (obs_stds mu_mod : ndarray)
  (wrf_data : WRFModelData) (mod_stds : ndarray) (t : nat) (SigInv : matrix) :
  kriging_inputs obs_data obs_stds mu_mod wrf_data mod_stds ->
  is_inverse (spec_Sigma distance obs_data obs_stds) SigInv ->
  (forall obs, In obs obs_data ->
     get_value obs = nth (get_nearest_grid_point obs) mu_mod 0) ->
  exists V,
    simple_kriging_data_to_model distance (with_import distance) obs_data obs_stds mu_mod wrf_data
                                 mod_stds t = Ok (mu_mod, V).
Proof.
  intros Hfit Hinv Hres.
  rewrite (simple_kriging_run distance _ _ _ _ _ t SigInv Hfit Hinv).
  exists (map (spec_V distance obs_data obs_stds wrf_data mod_stds SigInv)
              (seq 0 (length mu_mod))).
  apply (f_equal (fun K => Ok (K, map (spec_V distance obs_data obs_stds
                                            wrf_data mod_stds SigInv)
                                    (seq 0 (length mu_mod))))).
  transitivity (map (fun p => nth p mu_mod 0) (seq 0 (length mu_mod)));
    [|apply map_nth_seq].
  apply map_ext. intros p. unfold spec_K.
  rewrite dot_zeros_r by (now apply spec_residuals_zero). ring.
Qed.

Lemma simple_kriging_zero_residuals_witness :
  exists V,
    simple_kriging_data_to_model great_circle_distance_km (with_import great_circle_distance_km) [obs_at_origin]
                                 [0.05] [1] one_cell_grid [0.1] 1
    = Ok ([1], V).
Proof.
  destruct (is_inverse_single great_circle_distance_km obs_at_origin 0.05)
    as [SigInv HSigInv].
  { cbn. lra. }
  apply (simple_kriging_zero_residuals great_circle_distance_km
           [obs_at_origin] [0.05] [1] one_cell_grid [0.1] 1 SigInv).
  - repeat split; try discriminate. repeat constructor.
  - exact HSigInv.
  - intros obs [<-|[]]. reflexivity.
Defined.

(** X9.  The kriging variance does not depend on the observed values nor
    on the mean field: two calls whose observations have the same
    positions and measurement variances, with the same standard
    deviations, return the same variance field.
    The statement is about the module with
    [construct_spatial_correlation_matrix2] imported ([with_import]); as
    given, the call raises [NameError] where Sigma is assembled. *)
Theorem simple_kriging_variance_ignores_values
  (distance : R -> R -> R -> R -> R) (obs_data obs_data' : list Observation)
  (obs_stds mu_mod mu_mod' : ndarray) (wrf_data : WRFModelData)
  (mod_stds : ndarray) (t t' : nat) (SigInv : matrix) :
  kriging_inputs obs_data obs_stds mu_mod wrf_data mod_stds ->
  kriging_inputs obs_data' obs_stds mu_mod' wrf_data mod_stds ->
  map get_position obs_data' = map get_position obs_data ->
  map get_measurement_variance obs_data'
  = map get_measurement_variance obs_data ->
  is_inverse (spec_Sigma distance obs_data obs_stds) SigInv ->
  exists K K' V,
    simple_kriging_data_to_model distance (with_import distance) obs_data obs_stds mu_mod wrf_data
                                 mod_stds t = Ok (K, V) /\
    simple_kriging_data_to_model distance (with_import distance) obs_data' obs_stds mu_mod' wrf_data
                                 mod_stds t' = Ok (K', V).
Proof.
  intros Hfit Hfit' Hpos Hvar Hinv.
  assert (Hinv' : is_inverse (spec_Sigma distance obs_data' obs_stds) SigInv)
    by (now rewrite (spec_Sigma_positions distance obs_data obs_data')).
  rewrite (simple_kriging_run distance _ _ _ _ _ t SigInv Hfit Hinv).
  rewrite (simple_kriging_run distance _ _ _ _ _ t' SigInv Hfit' Hinv').
  destruct Hfit as (_ & _ & _ & Hmu & _), Hfit' as (_ & _ & _ & Hmu' & _).
  assert (HV : map (spec_V distance obs_data' obs_stds wrf_data mod_stds SigInv)
                   (seq 0 (length mu_mod'))
               = map (spec_V distance obs_data obs_stds wrf_data mod_stds SigInv)
                     (seq 0 (length mu_mod))).
  { rewrite Hmu, Hmu'. apply map_ext. intros p. unfold spec_V.
    now rewrite (spec_cov_positions distance obs_data obs_data'). }
  rewrite HV. do 3 eexists. split; reflexivity.
Qed.

Lemma simple_kriging_variance_ignores_values_witness :
  exists K K' V,
    simple_kriging_data_to_model great_circle_distance_km (with_import great_circle_distance_km) [obs_at_origin]
                                 [0.05] [1] one_cell_grid [0.1] 1
    = Ok (K, V) /\
    simple_kriging_data_to_model great_circle_distance_km (with_import great_circle_distance_km) [obs_cell0]
                                 [0.05] flat_field one_cell_grid [0.1] 2
    = Ok (K', V).
Proof.
  destruct (is_inverse_single great_circle_distance_km obs_at_origin 0.05)
    as [SigInv HSigInv].
  { cbn. lra. }
  apply (simple_kriging_variance_ignores_values great_circle_distance_km
           [obs_at_origin] [obs_cell0] [0.05] [1] flat_field one_cell_grid
           [0.1] 1 2 SigInv); trivial.
  - repeat split; try discriminate. repeat constructor.
  - repeat split; try discriminate. repeat constructor.
Defined.

(** X10.  At a grid point that is 0.8565/0.0063 km (about 135.95 km) or
    more from every station, simple kriging returns the mean field and the
    prior variance unchanged.
    The statement is about the module with
    [construct_spatial_correlation_matrix2] imported ([with_import]); as
    given, the call raises [NameError] where Sigma is assembled. *)
Theorem simple_kriging_beyond_range (distance : R -> R -> R -> R -> R)
  (obs_data : list Observation) (obs_stds mu_mod : ndarray)
  (wrf_data : WRFModelData) (mod_stds : ndarray) (t : nat) (SigInv : matrix)
  (p : nat) :
  kriging_inputs obs_data obs_stds mu_mod wrf_data mod_stds ->
  is_inverse (spec_Sigma distance obs_data obs_stds) SigInv ->
  (p < length mu_mod)%nat ->
  (forall obs, In obs obs_data ->
     0.8565 / 0.0063
     <= distance (nth p (get_lons wrf_data) 0) (nth p (get_lats wrf_data) 0)
                 (fst (get_position obs)) (snd (get_position obs))) ->
  exists K V,
    simple_kriging_data_to_model distance (with_import distance) obs_data obs_stds mu_mod wrf_data
                                 mod_stds t = Ok (K, V) /\
    nth p K 0 = nth p mu_mod 0 /\ nth p V 0 = nth p mod_stds 0 ^ 2.
Proof.
  intros Hfit Hinv Hp Hfar.
  rewrite (simple_kriging_run distance _ _ _ _ _ t SigInv Hfit Hinv).
  do 2 eexists. split; [reflexivity|].
  rewrite !nth_map_seq by exact Hp.
  apply spec_cov_zero. unfold spec_cov. apply Forall_forall. intros x Hx.
  apply in_map_iff in Hx as (k & <- & Hk). apply in_seq in Hk.
  rewrite correlation_zero_beyond; [ring|].
  apply Hfar. apply nth_In. lia.
Qed.

(** X11.  At a grid point whose model standard deviation is 0, simple
    kriging returns the mean field and the variance 0, whatever the
    observations are.
    The statement is about the module with
    [construct_spatial_correlation_matrix2] imported ([with_import]); as
    given, the call raises [NameError] where Sigma is assembled. *)
Theorem simple_kriging_certain_point (distance : R -> R -> R -> R -> R)
  (obs_data : list Observation) (obs_stds mu_mod : ndarray)
  (wrf_data : WRFModelData) (mod_stds : ndarray) (t : nat) (SigInv : matrix)
  (p : nat) :
  kriging_inputs obs_data obs_stds mu_mod wrf_data mod_stds ->
  is_inverse (spec_Sigma distance obs_data obs_stds) SigInv ->
  (p < length mu_mod)%nat ->
  nth p mod_stds 0 = 0 ->
  exists K V,
    simple_kriging_data_to_model distance (with_import distance) obs_data obs_stds mu_mod wrf_data
                                 mod_stds t = Ok (K, V) /\
    nth p K 0 = nth p mu_mod 0 /\ nth p V 0 = 0.
Proof.
  intros Hfit Hinv Hp Hsd.
  rewrite (simple_kriging_run distance _ _ _ _ _ t SigInv Hfit Hinv).
  do 2 eexists. split; [reflexivity|].
  rewrite !nth_map_seq by exact Hp.
  destruct (spec_cov_zero distance obs_data obs_stds mu_mod wrf_data mod_stds
              SigInv p) as [HK HV].
  { unfold spec_cov. apply Forall_forall. intros x Hx.
    apply in_map_iff in Hx as (k & <- & _). rewrite Hsd. ring. }
  rewrite HK, HV, Hsd. split; [reflexivity | ring].
Qed.

Lemma simple_kriging_beyond_range_witness :
  exists K V,
    simple_kriging_data_to_model great_circle_distance_km (with_import great_circle_distance_km) [obs_at_origin]
                                 [0.05] trend_field two_cell_grid [0.1; 0.1] 1
    = Ok (K, V) /\
    nth 1 K 0 = nth 1 trend_field 0 /\ nth 1 V 0 = nth 1 [0.1; 0.1] 0 ^ 2.
Proof.
  destruct (is_inverse_single great_circle_distance_km obs_at_origin 0.05)
    as [SigInv HSigInv].
  { cbn. lra. }
  apply (simple_kriging_beyond_range great_circle_distance_km
           [obs_at_origin] [0.05] trend_field two_cell_grid [0.1; 0.1] 1
           SigInv 1).
  - repeat split; try discriminate. repeat constructor.
  - exact HSigInv.
  - simpl. lia.
  - intros obs [<-|[]]. cbn.
    pose proof (GreatCircle.two_degrees_apart 2 0) as Hfar.
    rewrite Rabs_right in Hfar by lra.
    specialize (Hfar ltac:(lra)). lra.
Defined.

Lemma simple_kriging_certain_point_witness :
  exists K V,
    simple_kriging_data_to_model great_circle_distance_km (with_import great_circle_distance_km) [obs_at_origin]
                                 [0.05] flat_field one_cell_grid [0] 1
    = Ok (K, V) /\
    nth 0 K 0 = nth 0 flat_field 0 /\ nth 0 V 0 = 0.
Proof.
  destruct (is_inverse_single great_circle_distance_km obs_at_origin 0.05)
    as [SigInv HSigInv].
  { cbn. lra. }
  apply (simple_kriging_certain_point great_circle_distance_km
           [obs_at_origin] [0.05] flat_field one_cell_grid [0] 1 SigInv 0).
  - repeat split; try discriminate. repeat constructor.
  - exact HSigInv.
  - simpl. lia.
  - reflexivity.
Defined.

(** ** Errors of the kriging calls *)

(** X12.  Each of the three kriging functions raises [IndexError] as soon
    as one observation's nearest grid point lies outside the field that
    is sampled at the observations (the mean field, or the covariate of
    universal kriging).  The observation loop comes first in each
    function, so this holds of the module as given as well as of the
    module with the matrix constructor imported. *)
Theorem kriging_outside_grid (distance : R -> R -> R -> R -> R)
  (name : binding) (obs_data : list Observation) (obs_stds field : ndarray)
  (wrf_data : WRFModelData) (mod_stds : ndarray) (t : nat) :
  Exists (fun obs => (length field <= get_nearest_grid_point obs)%nat)
         obs_data ->
  simple_kriging_data_to_model distance name obs_data obs_stds field wrf_data
                               mod_stds t = Raise IndexError /\
  universal_kriging_data_to_model distance name obs_data obs_stds field
                                  wrf_data mod_stds t = Raise IndexError /\
  trend_surface_model_kriging obs_data wrf_data field = Raise IndexError.
Proof.
  intros Hex.
  unfold simple_kriging_data_to_model, universal_kriging_data_to_model,
    trend_surface_model_kriging.
  rewrite (sample_Raise field obs_data Hex). repeat split.
Qed.

Lemma kriging_outside_grid_witness :
  simple_kriging_data_to_model great_circle_distance_km as_given
    [obs_cell0; obs_cell1] [0.05; 0.05] flat_field one_cell_grid [0.1] 1
  = Raise IndexError /\
  universal_kriging_data_to_model great_circle_distance_km as_given
    [obs_cell0; obs_cell1] [0.05; 0.05] flat_field one_cell_grid [0.1] 1
  = Raise IndexError /\
  trend_surface_model_kriging [obs_cell0; obs_cell1] one_cell_grid flat_field
  = Raise IndexError.
Proof.
  apply kriging_outside_grid.
  apply Exists_cons_tl, Exists_cons_hd. cbn. lia.
Defined.

Lemma covariance_matrix_mismatch (distance : R -> R -> R -> R -> R)
  (stations : list (R * R)) (obs_stds measV : ndarray) :
  length obs_stds <> length stations ->
  covariance_matrix (with_import distance) stations obs_stds measV = Raise ValueError.
Proof.
  intros Hne. unfold covariance_matrix, with_import, np_matmul.
  rewrite transpose_np_diag, LinAlg.ncols_np_diag,
    (length_correlation_matrix distance).
  now rewrite (proj2 (Nat.eqb_neq _ _) Hne).
Qed.

(** X13.  Simple and universal kriging raise [ValueError] when the number
    of observation standard deviations differs from the number of
    observations (of which there is one at least, all inside the grid):
    the product of diag(sigma_obs) with the correlation matrix has no
    shape.
    The statement is about the module with
    [construct_spatial_correlation_matrix2] imported ([with_import]); as
    given, the call raises [NameError] where Sigma is assembled. *)
Theorem kriging_stds_mismatch (distance : R -> R -> R -> R -> R)
  (obs_data : list Observation) (obs_stds field : ndarray)
  (wrf_data : WRFModelData) (mod_stds : ndarray) (t : nat) :
  obs_data <> [] ->
  Forall (fun obs => (get_nearest_grid_point obs < length field)%nat)
         obs_data ->
  length obs_stds <> length obs_data ->
  simple_kriging_data_to_model distance (with_import distance) obs_data obs_stds field wrf_data
                               mod_stds t = Raise ValueError /\
  universal_kriging_data_to_model distance (with_import distance) obs_data obs_stds field wrf_data
                                  mod_stds t = Raise ValueError.
Proof.
  intros _ Hin Hne.
  unfold simple_kriging_data_to_model, universal_kriging_data_to_model.
  rewrite (sample_Ok field obs_data Hin). cbn [bind].
  rewrite covariance_matrix_mismatch by (now rewrite length_map).
  split; reflexivity.
Qed.

Lemma kriging_stds_mismatch_witness :
  simple_kriging_data_to_model great_circle_distance_km (with_import great_circle_distance_km) [obs_at_origin]
    [0.05; 0.05] flat_field one_cell_grid [0.1] 1 = Raise ValueError /\
  universal_kriging_data_to_model great_circle_distance_km (with_import great_circle_distance_km) [obs_at_origin]
    [0.05; 0.05] flat_field one_cell_grid [0.1] 1 = Raise ValueError.
Proof.
  apply kriging_stds_mismatch.
  - discriminate.
  - repeat constructor.
  - simpl. lia.
Defined.

(** X14.  Simple and universal kriging raise [LinAlgError] when Sigma has
    no inverse (the observations being inside the grid, with one standard
    deviation each); no field is returned.
    The statement is about the module with
    [construct_spatial_correlation_matrix2] imported ([with_import]); as
    given, the call raises [NameError] where Sigma is assembled. *)
Theorem kriging_singular_covariance (distance : R -> R -> R -> R -> R)
  (obs_data : list Observation) (obs_stds field : ndarray)
  (wrf_data : WRFModelData) (mod_stds : ndarray) (t : nat) :
  Forall (fun obs => (get_nearest_grid_point obs < length field)%nat)
         obs_data ->
  length obs_stds = length obs_data ->
  ~ invertible (spec_Sigma distance obs_data obs_stds) ->
  simple_kriging_data_to_model distance (with_import distance) obs_data obs_stds field wrf_data
                               mod_stds t = Raise LinAlgError /\
  universal_kriging_data_to_model distance (with_import distance) obs_data obs_stds field wrf_data
                                  mod_stds t = Raise LinAlgError.
Proof.
  intros Hin Hs Hsing.
  unfold simple_kriging_data_to_model, universal_kriging_data_to_model.
  rewrite (sample_Ok field obs_data Hin). cbn [bind].
  rewrite covariance_matrix_Ok by (rewrite ?length_map; trivial).
  cbn [bind]. fold (spec_Sigma distance obs_data obs_stds).
  rewrite (linalg_inv_singular _ Hsing). split; reflexivity.
Qed.

Lemma singular_1x1 (x : R) : x = 0 -> ~ invertible [[x]].
Proof.
  intros -> (B & _ & [HlB HrB] & HAB & _). cbn [length] in *.
  destruct B as [|r [|r' B]]; try discriminate.
  apply Forall_cons_iff in HrB as [Hr _].
  destruct r as [|b [|b' r]]; try discriminate.
  unfold matmul, vecmat, lincomb, eye, np_diag, vadd, vscale, map2, ncols
    in HAB.
  cbn in HAB. injection HAB as HAB. lra.
Qed.

Lemma kriging_singular_covariance_witness :
  simple_kriging_data_to_model great_circle_distance_km (with_import great_circle_distance_km) [obs_exact] [0]
    flat_field one_cell_grid [0.1] 1 = Raise LinAlgError /\
  universal_kriging_data_to_model great_circle_distance_km (with_import great_circle_distance_km) [obs_exact] [0]
    flat_field one_cell_grid [0.1] 1 = Raise LinAlgError.
Proof.
  apply kriging_singular_covariance.
  - repeat constructor.
  - reflexivity.
  - rewrite spec_Sigma_single. apply singular_1x1.
    cbn [obs_exact get_measurement_variance]. ring.
Defined.

(** ** Universal kriging *)

Section UniversalKrigingProperties.

Variable distance : R -> R -> R -> R -> R.

(** The values that universal kriging assigns at the grid point [p], as
    functions of the quotient [xsx_1]. *)
Lemma universal_kriging_point_values (obs0 : Observation)
  (rest : list Observation) (obs_stds mu_mod : ndarray)
  (wrf_data : WRFModelData) (mod_stds : ndarray) (SigInv : matrix)
  (ys xs0 : ndarray) (xsx_1 : npfloat) (p : nat) :
  length obs_stds = length (obs0 :: rest) ->
  ys <> [] ->
  (p < length (get_lons wrf_data))%nat ->
  (p < length (get_lats wrf_data))%nat ->
  (p < length mod_stds)%nat ->
  (p < length mu_mod)%nat ->
  let c := spec_cov distance (obs0 :: rest) obs_stds wrf_data mod_stds p in
  universal_kriging_point distance (get_lons wrf_data) (get_lats wrf_data)
    mu_mod mod_stds obs_stds (map get_position (obs0 :: rest)) SigInv
    (as_column ys) [xs0] xsx_1 (length (obs0 :: rest)) p
  = Ok (np_lift
          (fun x =>
             nth 0 (nth 0 (matmul
                             (transpose
                                (matmul SigInv
                                   (matsub (as_column c)
                                      (matmul (matmul (as_column ys) [[x]])
                                              [[dot xs0 c - nth p mu_mod 0]]))))
                             (as_column ys)) []) 0)
          xsx_1,
        np_lift
          (fun x =>
             nth p mod_stds 0 ^ 2 - dot (vecmat c SigInv) c
             + (nth p mu_mod 0 - dot (vecmat c SigInv) ys) * x
               * (nth p mu_mod 0 - dot (vecmat c SigInv) ys))
          xsx_1).
Proof.
  intros Hs Hys Hlon Hlat Hmod Hmu c.
  match goal with |- _ = ?rhs => set (RHS := rhs) end.
  unfold universal_kriging_point.
  rewrite covariance_array_Ok by assumption. cbn [bind]. fold c.
  rewrite (getitem_Ok _ p 0 Hmu). cbn [bind].
  rewrite (getitem_Ok _ p 0 Hmod). cbn [bind].
  assert (Hc : c <> []).
  { apply nonempty_length. unfold c. rewrite length_spec_cov. simpl. lia. }
  rewrite (transpose_as_column _ Hc).
  rewrite (matmul_row_column _ _ Hc), getitem2_single. cbn [bind].
  unfold matmul at 2. cbn [map].
  rewrite (matmul_row_column _ _ Hys), getitem2_single. cbn [bind].
  unfold matmul at 2. cbn [map].
  rewrite (matmul_row_column _ _ Hc), getitem2_single. cbn [bind].
  reflexivity.
Qed.

Lemma matmul_column_scalar (w : ndarray) (x : R) :
  matmul (as_column w) [[x]] = as_column (map (fun y => y * x + 0) w).
Proof.
  unfold matmul, as_column. rewrite !map_map. apply map_ext. intros y.
  reflexivity.
Qed.

Lemma matsub_columns (c : ndarray) : forall w,
  matsub (as_column c) (as_column w) = as_column (map2 Rminus c w).
Proof.
  unfold matsub, as_column, map2.
  induction c as [|a c IH]; intros [|b w]; cbn [map combine]; trivial.
  cbn [fst snd]. now rewrite IH.
Qed.

Lemma matmul_matrix_column (A : matrix) (z : ndarray) :
  z <> [] -> matmul A (as_column z) = as_column (map (fun r => dot r z) A).
Proof.
  intros Hz. unfold matmul, vecmat. rewrite (ncols_as_column z Hz).
  unfold as_column at 2. rewrite map_map. apply map_ext. intros r.
  apply lincomb_as_column.
Qed.

Lemma dot_map2_minus (u : ndarray) : forall c w,
  length c = length w ->
  dot u (map2 Rminus c w) = dot u c - dot u w.
Proof.
  induction u as [|a u IH]; intros [|x c] [|y w] Hl; try discriminate;
    try (rewrite ?LinAlg.dot_nil_l, ?LinAlg.dot_nil_r;
         change (map2 Rminus [] []) with (@nil R);
         rewrite ?LinAlg.dot_nil_r; ring).
  change (map2 Rminus (x :: c) (y :: w)) with ((x - y) :: map2 Rminus c w).
  rewrite !LinAlg.dot_cons, IH by (simpl in Hl; lia). ring.
Qed.

Lemma dot_map_affine (x s : R) (u : ndarray) : forall w,
  dot u (map (fun y => (y * x + 0) * s + 0) w) = x * s * dot u w.
Proof.
  induction u as [|a u IH]; intros [|y w]; cbn [map];
    rewrite ?LinAlg.dot_nil_l, ?LinAlg.dot_nil_r; try ring.
  rewrite !LinAlg.dot_cons, IH. ring.
Qed.

(** csi^T y, with csi = SigInv (c - y x s), in terms of y^T SigInv. *)
Lemma universal_predictor_value (SigInv : matrix) (ys c : ndarray) (x s : R) :
  SigInv <> [] -> rows (ncols SigInv) SigInv ->
  ys <> [] -> length c = length ys ->
  nth 0 (nth 0 (matmul
                  (transpose
                     (matmul SigInv
                        (matsub (as_column c)
                           (matmul (matmul (as_column ys) [[x]]) [[s]]))))
                  (as_column ys)) []) 0
  = dot (vecmat ys SigInv) c - x * s * dot (vecmat ys SigInv) ys.
Proof.
  intros HS Hrows Hys Hlen.
  rewrite !matmul_column_scalar, matsub_columns.
  set (z := map2 Rminus c _).
  assert (Hz : z <> []).
  { apply nonempty_length. unfold z. rewrite length_map2, !length_map, Hlen.
    destruct ys; [congruence | simpl; lia]. }
  rewrite (matmul_matrix_column _ _ Hz).
  rewrite transpose_as_column
    by (apply nonempty_length; rewrite length_map;
        destruct SigInv; [congruence | simpl; lia]).
  rewrite (matmul_row_column _ _ Hys). cbn [nth].
  rewrite LinAlg.dot_comm, <- (LinAlg.dot_lincomb (ncols SigInv)) by exact Hrows.
  fold (vecmat ys SigInv). unfold z.
  rewrite dot_map2_minus by (now rewrite !length_map).
  rewrite map_map, dot_map_affine. reflexivity.
Qed.

(** The whole call on a non-empty observation list, with the values
    assigned to K and V written out. *)
Lemma universal_kriging_values (obs0 : Observation)
  (rest : list Observation) (obs_stds m : ndarray) (wrf_data : WRFModelData)
  (mod_stds : ndarray) (t : nat) (SigInv : matrix) :
  length obs_stds = length (obs0 :: rest) ->
  length (get_lons wrf_data) = length (get_lats wrf_data) ->
  length m = length (get_lats wrf_data) ->
  length mod_stds = length (get_lats wrf_data) ->
  Forall (fun obs => (get_nearest_grid_point obs < length m)%nat)
         (obs0 :: rest) ->
  is_inverse (spec_Sigma distance (obs0 :: rest) obs_stds) SigInv ->
  dot (vecmat (sampled m (obs0 :: rest)) SigInv) (sampled m (obs0 :: rest))
  <> 0 ->
  let ys := map get_value (obs0 :: rest) in
  let gamma := gls_gamma SigInv (sampled m (obs0 :: rest)) ys in
  let xsx_1 := np_div 1 (dot (vecmat ys SigInv) ys) in
  let c := spec_cov distance (obs0 :: rest) obs_stds wrf_data mod_stds in
  exists mape,
    universal_kriging_data_to_model distance (with_import distance) (obs0 :: rest) obs_stds m
                                    wrf_data mod_stds t
    = Ok (map (fun p =>
                 np_lift
                   (fun x => dot (vecmat ys SigInv) (c p)
                             - x * (dot (vecmat ys SigInv) (c p)
                                    - nth p m 0 * gamma)
                               * dot (vecmat ys SigInv) ys)
                   xsx_1)
              (seq 0 (length m)),
          map (fun p =>
                 np_lift
                   (fun x =>
                      nth p mod_stds 0 ^ 2 - dot (vecmat (c p) SigInv) (c p)
                      + (nth p m 0 * gamma - dot (vecmat (c p) SigInv) ys) * x
                        * (nth p m 0 * gamma - dot (vecmat (c p) SigInv) ys))
                   xsx_1)
              (seq 0 (length m)),
          gamma, mape).
Proof.
  intros Hs Hlon Hm Hmod Hin Hinv Hq ys gamma xsx_1 c.
  set (obs_data := obs0 :: rest) in *.
  set (m1 := sampled m obs_data) in *.
  assert (Hm1 : m1 <> []).
  { apply nonempty_length. unfold m1. rewrite length_sampled.
    unfold obs_data. simpl. lia. }
  assert (Hys : ys <> []).
  { apply nonempty_length. unfold ys. rewrite length_map.
    unfold obs_data. simpl. lia. }
  set (mu_mod := map (fun x => x * gamma) m).
  assert (Hmu : length mu_mod = length m) by (unfold mu_mod; apply length_map).
  assert (HSl : length (spec_Sigma distance obs_data obs_stds)
                = length obs_data) by (now apply length_spec_Sigma).
  pose proof Hinv as (HA & [HBl HBr] & HAB & HBA).
  rewrite HSl in HBl, HBr.
  assert (HSne : SigInv <> []).
  { apply nonempty_length. rewrite HBl. unfold obs_data. simpl. lia. }
  assert (Hnc : ncols SigInv = length obs_data)
    by (now apply LinAlg.ncols_rows_eq).
  assert (Hrows : rows (ncols SigInv) SigInv) by (now rewrite Hnc).
  eexists.
  match goal with |- _ = ?rhs => set (RHS := rhs) end.
  unfold universal_kriging_data_to_model.
  rewrite (sample_Ok m obs_data Hin). cbn [bind]. fold m1 ys.
  rewrite covariance_matrix_Ok by (rewrite ?length_map; trivial).
  cbn [bind]. fold (spec_Sigma distance obs_data obs_stds).
  rewrite (linalg_inv_is_inverse _ _ Hinv). cbn [bind].
  rewrite (transpose_as_column m1 Hm1).
  unfold matmul at 2. cbn [map].
  rewrite (matmul_row_column _ _ Hm1).
  rewrite (linalg_inv_is_inverse _ _ (is_inverse_1x1 _ Hq)). cbn [bind].
  rewrite matmul_scalar_row.
  unfold matmul at 2. cbn [map].
  rewrite (matmul_row_column _ _ Hys), getitem2_single. cbn [bind].
  fold (gls_gamma SigInv m1 ys). fold gamma. fold mu_mod.
  rewrite (sample_Ok mu_mod obs_data)
    by (rewrite Hmu; exact Hin).
  cbn [bind].
  rewrite (linalg_cond_Ok _ (spec_Sigma_nonempty distance obs_data obs_stds
                               ltac:(discriminate) Hs)).
  cbn [bind].
  rewrite (transpose_as_column ys Hys).
  unfold matmul at 2. cbn [map].
  rewrite (matmul_row_column _ _ Hys), getitem2_single. cbn [bind].
  fold xsx_1.
  assert (HK : length (map Finite (zeros_like (get_lats wrf_data)))
               = length m)
    by (unfold zeros_like; rewrite !length_map; now symmetry).
  rewrite (foldM_assign2 _
             (fun p =>
                np_lift
                  (fun x => dot (vecmat ys SigInv) (c p)
                            - x * (dot (vecmat ys SigInv) (c p)
                                   - nth p m 0 * gamma)
                              * dot (vecmat ys SigInv) ys)
                  xsx_1)
             (fun p =>
                np_lift
                  (fun x =>
                     nth p mod_stds 0 ^ 2 - dot (vecmat (c p) SigInv) (c p)
                     + (nth p m 0 * gamma - dot (vecmat (c p) SigInv) ys) * x
                       * (nth p m 0 * gamma - dot (vecmat (c p) SigInv) ys))
                  xsx_1)).
  - cbn [bind fst snd]. rewrite HK. subst RHS. reflexivity.
  - unfold zeros_like. rewrite !length_map. exact Hlon.
  - rewrite HK. intros p Hp. subst obs_data.
    change (matmul [ys] SigInv) with [vecmat ys SigInv].
    rewrite (universal_kriging_point_values obs0 rest obs_stds mu_mod wrf_data
               mod_stds SigInv ys (vecmat ys SigInv) xsx_1 p)
      by (trivial; lia).
    cbv zeta. fold (c p).
    assert (Hmup : nth p mu_mod 0 = nth p m 0 * gamma).
    { unfold mu_mod.
      now rewrite (nth_map_lt (fun x => x * gamma) m p 0 0) by exact Hp. }
    rewrite Hmup. do 2 f_equal.
    destruct xsx_1 as [x|]; cbn [np_lift]; [|reflexivity].
    f_equal. apply universal_predictor_value; trivial.
    unfold c, ys. now rewrite length_spec_cov, length_map.
Qed.

End UniversalKrigingProperties.

Lemma map_nth_seq_with (f : R -> npfloat) (l : ndarray) :
  map (fun p => f (nth p l 0)) (seq 0 (length l)) = map f l.
Proof.
  rewrite <- (map_nth_seq l) at 2. now rewrite map_map.
Qed.

Lemma kriging_inputs_cons (obs_data : list Observation)
  (obs_stds m : ndarray) (wrf_data : WRFModelData) (mod_stds : ndarray) :
  kriging_inputs obs_data obs_stds m wrf_data mod_stds ->
  exists obs0 rest, obs_data = obs0 :: rest.
Proof.
  intros (Hne & _). destruct obs_data as [|obs0 rest]; [congruence|].
  now exists obs0, rest.
Qed.

(** X15.  When neither m^T SigInv m nor y^T SigInv y is zero, the kriged
    field that universal kriging returns is the fitted trend itself,
    K[p] = gamma m[p] at every grid point, gamma being the coefficient it
    returns: the observations enter K through gamma only.
    The statement is about the module with
    [construct_spatial_correlation_matrix2] imported ([with_import]); as
    given, the call raises [NameError] where Sigma is assembled. *)
Theorem universal_kriging_returns_trend (distance : R -> R -> R -> R -> R)
  (obs_data : list Observation) (obs_stds m : ndarray)
  (wrf_data : WRFModelData) (mod_stds : ndarray) (t : nat) (SigInv : matrix) :
  kriging_inputs obs_data obs_stds m wrf_data mod_stds ->
  is_inverse (spec_Sigma distance obs_data obs_stds) SigInv ->
  dot (vecmat (sampled m obs_data) SigInv) (sampled m obs_data) <> 0 ->
  dot (vecmat (map get_value obs_data) SigInv) (map get_value obs_data) <> 0 ->
  exists gamma V mape,
    universal_kriging_data_to_model distance (with_import distance) obs_data obs_stds m wrf_data
                                    mod_stds t
    = Ok (map (fun x => Finite (x * gamma)) m, V, gamma, mape).
Proof.
  intros Hfit Hinv Hm Hy.
  destruct (kriging_inputs_cons _ _ _ _ _ Hfit) as (obs0 & rest & ->).
  destruct Hfit as (_ & Hs & Hlon & Hmlen & Hmod & Hin).
  destruct (universal_kriging_values distance obs0 rest obs_stds m wrf_data
              mod_stds t SigInv Hs Hlon Hmlen Hmod Hin Hinv Hm)
    as (mape & Hrun).
  cbv zeta in Hrun. rewrite Hrun. unfold np_div.
  destruct (Req_dec_T _ 0) as [H0|_]; [contradiction|].
  cbn [np_lift].
  eexists. eexists. exists mape. f_equal. f_equal. f_equal. f_equal.
  rewrite <- (map_nth_seq_with (fun x => Finite (x * _)) m).
  apply map_ext. intros p. f_equal. field. exact Hy.
Qed.

(** The inverse of Sigma for one observation with a positive measurement
    variance. *)
Lemma single_inverse (distance : R -> R -> R -> R -> R) (obs : Observation)
  (s : R) :
  0 < get_measurement_variance obs ->
  exists b, b <> 0 /\ is_inverse (spec_Sigma distance [obs] [s]) [[b]].
Proof.
  intros Hv. pose proof (single_entry_pos distance obs s Hv) as Ha.
  rewrite spec_Sigma_single. eexists. split; [|apply (is_inverse_1x1 _ Ha)].
  unfold Rdiv. rewrite Rmult_1_l. now apply Rinv_neq_0_compat.
Qed.

Lemma quadratic_form_1x1 (u w b : R) : dot (vecmat [u] [[b]]) [w] = u * b * w.
Proof.
  unfold vecmat, lincomb, dot, vadd, vscale, map2, np_sum, ncols. cbn. ring.
Qed.

Lemma universal_kriging_returns_trend_witness :
  exists gamma V mape,
    universal_kriging_data_to_model great_circle_distance_km (with_import great_circle_distance_km) [obs_at_origin]
      [0.05] flat_field one_cell_grid [0.1] 1
    = Ok (map (fun x => Finite (x * gamma)) flat_field, V, gamma, mape).
Proof.
  destruct (single_inverse great_circle_distance_km obs_at_origin 0.05)
    as (b & Hb & Hinv).
  { cbn. lra. }
  apply (universal_kriging_returns_trend great_circle_distance_km
           [obs_at_origin] [0.05] flat_field one_cell_grid [0.1] 1 [[b]]).
  - repeat split; try discriminate. repeat constructor.
  - exact Hinv.
  - change (sampled flat_field [obs_at_origin]) with [0.2].
    rewrite quadratic_form_1x1. intros H.
    apply Rmult_integral in H as [H|H]; [|lra].
    apply Rmult_integral in H as [H|H]; [lra | contradiction].
  - change (map get_value [obs_at_origin]) with [1].
    rewrite quadratic_form_1x1. intros H.
    apply Rmult_integral in H as [H|H]; [|lra].
    apply Rmult_integral in H as [H|H]; [lra | contradiction].
Defined.

(** X16.  When all the observed values are 0 (and m^T SigInv m is not),
    universal kriging raises no error: it returns the coefficient 0 and
    fields K and V that are non-finite at every grid point, the quotient
    1 / (y^T SigInv y) being a division by zero.
    The statement is about the module with
    [construct_spatial_correlation_matrix2] imported ([with_import]); as
    given, the call raises [NameError] where Sigma is assembled. *)
Theorem universal_kriging_zero_observations
  (distance : R -> R -> R -> R -> R) (obs_data : list Observation)
  (obs_stds m : ndarray) (wrf_data : WRFModelData) (mod_stds : ndarray)
  (t : nat) (SigInv : matrix) :
  kriging_inputs obs_data obs_stds m wrf_data mod_stds ->
  is_inverse (spec_Sigma distance obs_data obs_stds) SigInv ->
  dot (vecmat (sampled m obs_data) SigInv) (sampled m obs_data) <> 0 ->
  Forall (fun obs => get_value obs = 0) obs_data ->
  exists mape,
    universal_kriging_data_to_model distance (with_import distance) obs_data obs_stds m wrf_data
                                    mod_stds t
    = Ok (map (fun _ => NonFinite) m, map (fun _ => NonFinite) m, 0, mape).
Proof.
  intros Hfit Hinv Hm Hzero.
  destruct (kriging_inputs_cons _ _ _ _ _ Hfit) as (obs0 & rest & ->).
  destruct Hfit as (_ & Hs & Hlon & Hmlen & Hmod & Hin).
  destruct (universal_kriging_values distance obs0 rest obs_stds m wrf_data
              mod_stds t SigInv Hs Hlon Hmlen Hmod Hin Hinv Hm)
    as (mape & Hrun).
  cbv zeta in Hrun. rewrite Hrun.
  assert (Hys : Forall (fun x => x = 0) (map get_value (obs0 :: rest))).
  { apply Forall_forall. intros x Hx.
    apply in_map_iff in Hx as (obs & <- & Hobs).
    exact (proj1 (Forall_forall _ _) Hzero obs Hobs). }
  unfold gls_gamma. rewrite !(dot_zeros_r _ _ Hys).
  unfold np_div. destruct (Req_dec_T 0 0) as [_|H0]; [|contradiction].
  cbn [np_lift]. exists mape. f_equal. f_equal. f_equal. f_equal.
  - rewrite <- (map_nth_seq_with (fun _ => NonFinite) m). reflexivity.
  - rewrite <- (map_nth_seq_with (fun _ => NonFinite) m). reflexivity.
Qed.

Lemma universal_kriging_zero_observations_witness :
  exists mape,
    universal_kriging_data_to_model great_circle_distance_km (with_import great_circle_distance_km) [obs_zero]
      [0.05] flat_field one_cell_grid [0.1] 1
    = Ok (map (fun _ => NonFinite) flat_field,
          map (fun _ => NonFinite) flat_field, 0, mape).
Proof.
  destruct (single_inverse great_circle_distance_km obs_zero 0.05)
    as (b & Hb & Hinv).
  { cbn. lra. }
  apply (universal_kriging_zero_observations great_circle_distance_km
           [obs_zero] [0.05] flat_field one_cell_grid [0.1] 1 [[b]]).
  - repeat split; try discriminate. repeat constructor.
  - exact Hinv.
  - change (sampled flat_field [obs_zero]) with [0.2].
    rewrite quadratic_form_1x1. intros H.
    apply Rmult_integral in H as [H|H]; [|lra].
    apply Rmult_integral in H as [H|H]; [lra | contradiction].
  - repeat constructor.
Defined.

Lemma vecmat_scaled (g : R) (v : ndarray) (A : matrix) :
  rows (ncols A) A ->
  vecmat (map (fun x => g * x) v) A = vscale g (vecmat v A).
Proof. intros Hr. unfold vecmat. now apply LinAlg.lincomb_vscale. Qed.

Lemma dot_scaled_r (g : R) (u : ndarray) : forall v,
  dot u (map (fun x => g * x) v) = g * dot u v.
Proof.
  intros v. rewrite LinAlg.dot_comm.
  change (map (fun x => g * x) v) with (vscale g v).
  rewrite LinAlg.dot_vscale. f_equal. apply LinAlg.dot_comm.
Qed.

(** X17.  When every observed value is g times the covariate at the
    nearest grid point, for a g other than 0 (and m^T SigInv m is not
    zero), universal kriging returns the coefficient g and the kriged
    field g m.
    The statement is about the module with
    [construct_spatial_correlation_matrix2] imported ([with_import]); as
    given, the call raises [NameError] where Sigma is assembled. *)
Theorem universal_kriging_exact_trend (distance : R -> R -> R -> R -> R)
  (obs_data : list Observation) (obs_stds m : ndarray)
  (wrf_data : WRFModelData) (mod_stds : ndarray) (t : nat) (SigInv : matrix)
  (g : R) :
  kriging_inputs obs_data obs_stds m wrf_data mod_stds ->
  is_inverse (spec_Sigma distance obs_data obs_stds) SigInv ->
  dot (vecmat (sampled m obs_data) SigInv) (sampled m obs_data) <> 0 ->
  g <> 0 ->
  (forall obs, In obs obs_data ->
     get_value obs = g * nth (get_nearest_grid_point obs) m 0) ->
  exists V mape,
    universal_kriging_data_to_model distance (with_import distance) obs_data obs_stds m wrf_data
                                    mod_stds t
    = Ok (map (fun x => Finite (x * g)) m, V, g, mape).
Proof.
  intros Hfit Hinv Hm Hg Hexact.
  assert (Hys : map get_value obs_data
                = map (fun x => g * x) (sampled m obs_data)).
  { unfold sampled. rewrite map_map. apply map_ext_in. exact Hexact. }
  pose proof Hinv as (_ & [HBl HBr] & _).
  destruct (kriging_inputs_cons _ _ _ _ _ Hfit) as (obs0 & rest & Hcons).
  assert (Hrows : rows (ncols SigInv) SigInv).
  { rewrite (LinAlg.ncols_rows_eq
               (length (spec_Sigma distance obs_data obs_stds)) SigInv);
      trivial.
    apply nonempty_length. rewrite HBl.
    rewrite length_spec_Sigma by apply Hfit. subst obs_data. simpl. lia. }
  assert (Hgam : gls_gamma SigInv (sampled m obs_data) (map get_value obs_data)
                 = g).
  { rewrite gls_gamma_quotient by exact Hrows.
    rewrite Hys, dot_scaled_r. field. exact Hm. }
  assert (Hy : dot (vecmat (map get_value obs_data) SigInv)
                   (map get_value obs_data) <> 0).
  { rewrite Hys, vecmat_scaled by exact Hrows.
    rewrite LinAlg.dot_vscale, dot_scaled_r.
    intros H. apply Rmult_integral in H as [H|H]; [contradiction|].
    apply Rmult_integral in H as [H|H]; contradiction. }
  subst obs_data.
  destruct Hfit as (_ & Hs & Hlon & Hmlen & Hmod & Hin).
  destruct (universal_kriging_values distance obs0 rest obs_stds m wrf_data
              mod_stds t SigInv Hs Hlon Hmlen Hmod Hin Hinv Hm)
    as (mape & Hrun).
  cbv zeta in Hrun. rewrite Hrun, Hgam. unfold np_div.
  destruct (Req_dec_T _ 0) as [H0|_]; [contradiction|].
  cbn [np_lift].
  eexists. exists mape. f_equal. f_equal. f_equal. f_equal.
  rewrite <- (map_nth_seq_with (fun x => Finite (x * g)) m).
  apply map_ext. intros p. f_equal. field. exact Hy.
Qed.

Lemma universal_kriging_exact_trend_witness :
  exists V mape,
    universal_kriging_data_to_model great_circle_distance_km (with_import great_circle_distance_km) [obs_at_origin]
      [0.05] flat_field one_cell_grid [0.1] 1
    = Ok (map (fun x => Finite (x * 5)) flat_field, V, 5, mape).
Proof.
  destruct (single_inverse great_circle_distance_km obs_at_origin 0.05)
    as (b & Hb & Hinv).
  { cbn. lra. }
  apply (universal_kriging_exact_trend great_circle_distance_km
           [obs_at_origin] [0.05] flat_field one_cell_grid [0.1] 1 [[b]] 5).
  - repeat split; try discriminate. repeat constructor.
  - exact Hinv.
  - change (sampled flat_field [obs_at_origin]) with [0.2].
    rewrite quadratic_form_1x1. intros H.
    apply Rmult_integral in H as [H|H]; [|lra].
    apply Rmult_integral in H as [H|H]; [lra | contradiction].
  - lra.
  - intros obs [<-|[]]. cbn. lra.
Defined.

(** X18.  When m^T SigInv m is zero, as it is when the covariate is zero
    at the nearest grid point of every observation, universal kriging
    raises [LinAlgError]: the 1 x 1 matrix of the trend fit has no
    inverse.
    The statement is about the module with
    [construct_spatial_correlation_matrix2] imported ([with_import]); as
    given, the call raises [NameError] where Sigma is assembled. *)
Theorem universal_kriging_degenerate_trend
  (distance : R -> R -> R -> R -> R) (obs_data : list Observation)
  (obs_stds m : ndarray) (wrf_data : WRFModelData) (mod_stds : ndarray)
  (t : nat) (SigInv : matrix) :
  kriging_inputs obs_data obs_stds m wrf_data mod_stds ->
  is_inverse (spec_Sigma distance obs_data obs_stds) SigInv ->
  dot (vecmat (sampled m obs_data) SigInv) (sampled m obs_data) = 0 ->
  universal_kriging_data_to_model distance (with_import distance) obs_data obs_stds m wrf_data
                                  mod_stds t = Raise LinAlgError.
Proof.
  intros (Hne & Hs & Hlon & Hmlen & Hmod & Hin) Hinv Hq.
  assert (Hm1 : sampled m obs_data <> []).
  { apply nonempty_length. rewrite length_sampled.
    destruct obs_data; [congruence | simpl; lia]. }
  unfold universal_kriging_data_to_model.
  rewrite (sample_Ok m obs_data Hin). cbn [bind].
  rewrite covariance_matrix_Ok by (rewrite ?length_map; trivial).
  cbn [bind]. fold (spec_Sigma distance obs_data obs_stds).
  rewrite (linalg_inv_is_inverse _ _ Hinv). cbn [bind].
  rewrite (transpose_as_column _ Hm1).
  unfold matmul at 2. cbn [map].
  rewrite (matmul_row_column _ _ Hm1).
  now rewrite (linalg_inv_singular _ (singular_1x1 _ Hq)).
Qed.

Lemma universal_kriging_degenerate_trend_witness :
  universal_kriging_data_to_model great_circle_distance_km (with_import great_circle_distance_km) [obs_at_origin]
    [0.05] zero_field one_cell_grid [0.1] 1 = Raise LinAlgError.
Proof.
  destruct (single_inverse great_circle_distance_km obs_at_origin 0.05)
    as (b & Hb & Hinv).
  { cbn. lra. }
  apply (universal_kriging_degenerate_trend great_circle_distance_km
           [obs_at_origin] [0.05] zero_field one_cell_grid [0.1] 1 [[b]]).
  - repeat split; try discriminate. repeat constructor.
  - exact Hinv.
  - change (sampled zero_field [obs_at_origin]) with [0].
    rewrite quadratic_form_1x1. ring.
Defined.

(** ** Trend surface kriging *)

(** X19.  With all observations inside the grid, a first measurement
    variance that is not negative and a mean field that is not zero at
    all the observations, the variance that trend surface kriging returns
    is finite and at least the measurement variance at every grid
    point. *)
Theorem trend_surface_variance_lower_bound (obs0 : Observation)
  (rest : list Observation) (wrf_data : WRFModelData) (mu_mod : ndarray) :
  Forall (fun obs => (get_nearest_grid_point obs < length mu_mod)%nat)
         (obs0 :: rest) ->
  np_sum (map (fun m => m ^ 2) (sampled mu_mod (obs0 :: rest))) <> 0 ->
  0 <= get_measurement_variance obs0 ->
  exists V,
    trend_surface_model_kriging (obs0 :: rest) wrf_data mu_mod
    = Ok (mu_mod, V) /\
    forall p, (p < length mu_mod)%nat ->
      exists v, nth p V NonFinite = Finite v /\
                get_measurement_variance obs0 <= v.
Proof.
  intros Hin Hne Hv.
  rewrite (trend_surface_model_kriging_Ok obs0 rest wrf_data mu_mod Hin).
  eexists. split; [reflexivity|]. intros p Hp.
  rewrite nth_map_seq by exact Hp. unfold np_div.
  destruct (Req_dec_T _ 0) as [H0|_]; [contradiction|].
  cbn [np_lift]. eexists. split; [reflexivity|].
  pose proof (sum_squares_nonneg (sampled mu_mod (obs0 :: rest))) as HS.
  set (S := np_sum _) in *. set (mp := nth p mu_mod 0).
  assert (Hx : 0 < 1 / S) by (apply Rdiv_lt_0_compat; lra).
  assert (Hq : 0 <= mp * (1 / S) * mp).
  { replace (mp * (1 / S) * mp) with ((1 / S) * (mp * mp)) by ring.
    apply Rmult_le_pos; [lra|]. pose proof (Rle_0_sqr mp) as H.
    unfold Rsqr in H. exact H. }
  pose proof (Rmult_le_pos _ _ Hv Hq). lra.
Qed.

Lemma trend_surface_variance_lower_bound_witness :
  exists V,
    trend_surface_model_kriging [obs_cell0; obs_cell1] one_cell_grid
                                two_cell_field
    = Ok (two_cell_field, V) /\
    forall p, (p < length two_cell_field)%nat ->
      exists v, nth p V NonFinite = Finite v /\
                get_measurement_variance obs_cell0 <= v.
Proof.
  apply (trend_surface_variance_lower_bound obs_cell0 [obs_cell1]
           one_cell_grid two_cell_field).
  - repeat constructor.
  - unfold sampled, np_sum. cbn. lra.
  - cbn. lra.
Defined.

(** X20.  The variance of trend surface kriging does not depend on the
    scale of the mean field: for c other than 0, the call on c mu returns
    c mu with the variance field of the call on mu. *)
Theorem trend_surface_scale_invariant (obs0 : Observation)
  (rest : list Observation) (wrf_data : WRFModelData) (mu_mod : ndarray)
  (c : R) :
  Forall (fun obs => (get_nearest_grid_point obs < length mu_mod)%nat)
         (obs0 :: rest) ->
  c <> 0 ->
  exists V,
    trend_surface_model_kriging (obs0 :: rest) wrf_data mu_mod
    = Ok (mu_mod, V) /\
    trend_surface_model_kriging (obs0 :: rest) wrf_data (map (Rmult c) mu_mod)
    = Ok (map (Rmult c) mu_mod, V).
Proof.
  intros Hin Hc.
  assert (Hin' : Forall (fun obs => (get_nearest_grid_point obs
                                     < length (map (Rmult c) mu_mod))%nat)
                        (obs0 :: rest))
    by (now rewrite length_map).
  rewrite (trend_surface_model_kriging_Ok obs0 rest wrf_data mu_mod Hin).
  rewrite (trend_surface_model_kriging_Ok obs0 rest wrf_data _ Hin').
  eexists. split; [reflexivity|]. f_equal. f_equal.
  rewrite (sampled_scaled_field c mu_mod (obs0 :: rest) Hin).
  rewrite np_sum_scaled_squares, length_map.
  set (S := np_sum (map (fun m => m ^ 2) (sampled mu_mod (obs0 :: rest)))).
  apply map_ext_in. intros p Hp. apply in_seq in Hp.
  rewrite (nth_map_lt (Rmult c) mu_mod p 0 0) by lia.
  unfold np_div.
  destruct (Req_dec_T S 0) as [HS|HS].
  - destruct (Req_dec_T (c * c * S) 0) as [_|HS']; [reflexivity|].
    exfalso. apply HS'. rewrite HS. ring.
  - destruct (Req_dec_T (c * c * S) 0) as [HS'|_].
    + exfalso. apply Rmult_integral in HS' as [HS'|HS']; [|contradiction].
      apply Rmult_integral in HS' as [HS'|HS']; contradiction.
    + cbn [np_lift]. f_equal. field. now split.
Qed.

Lemma trend_surface_scale_invariant_witness :
  exists V,
    trend_surface_model_kriging [obs_cell0; obs_cell1] one_cell_grid
                                two_cell_field
    = Ok (two_cell_field, V) /\
    trend_surface_model_kriging [obs_cell0; obs_cell1] one_cell_grid
                                (map (Rmult 10) two_cell_field)
    = Ok (map (Rmult 10) two_cell_field, V).
Proof.
  apply (trend_surface_scale_invariant obs_cell0 [obs_cell1] one_cell_grid
           two_cell_field 10).
  - repeat constructor.
  - lra.
Defined.

(** X21.  Trend surface kriging reads of its observations the nearest
    grid points and the measurement variance of the first one only: two
    calls whose observations agree on these return the same result (or
    raise the same error), whatever the observed values, the positions,
    the other measurement variances and the model data are. *)
Theorem trend_surface_ignores_values (obs0 obs0' : Observation)
  (rest rest' : list Observation) (wrf_data wrf_data' : WRFModelData)
  (mu_mod : ndarray) :
  map get_nearest_grid_point (obs0' :: rest')
  = map get_nearest_grid_point (obs0 :: rest) ->
  get_measurement_variance obs0' = get_measurement_variance obs0 ->
  trend_surface_model_kriging (obs0' :: rest') wrf_data' mu_mod
  = trend_surface_model_kriging (obs0 :: rest) wrf_data mu_mod.
Proof.
  intros Hgrid Hvar. unfold trend_surface_model_kriging.
  rewrite <- !(mapM_map (getitem mu_mod) get_nearest_grid_point), Hgrid.
  unfold getitem. cbn [nth_error bind]. now rewrite Hvar.
Qed.

Lemma trend_surface_ignores_values_witness :
  trend_surface_model_kriging [obs_zero] two_cell_grid flat_field
  = trend_surface_model_kriging [obs_at_origin] one_cell_grid flat_field.
Proof.
  apply trend_surface_ignores_values; reflexivity.
Defined.

(** ** Simple kriging at a station measured without error *)

Section ExactInterpolation.

Variable distance : R -> R -> R -> R -> R.

Lemma nth_row_times_diag (row s : ndarray) (j : nat) :
  length row = length s -> (j < length s)%nat ->
  nth j (vecmat row (np_diag s)) 0 = nth j row 0 * nth j s 0.
Proof.
  intros Hl Hj. unfold vecmat. rewrite LinAlg.ncols_np_diag.
  rewrite LinAlg.nth_lincomb by (trivial; apply LinAlg.rows_np_diag).
  rewrite LinAlg.col_np_diag by exact Hj. rewrite <- Hl.
  rewrite (LinAlg.dot_single (fun l => nth l s 0) j row 0).
  cbn [Nat.leb]. now rewrite Nat.sub_0_r.
Qed.

Lemma nth_diag_times_matrix (s : ndarray) (C : matrix) (k j : nat) :
  length C = length s -> rows (length s) C ->
  (k < length s)%nat -> (j < length s)%nat ->
  nth j (vecmat (nth k (np_diag s) []) C) 0
  = nth k s 0 * nth j (nth k C []) 0.
Proof.
  intros HCl HCr Hk Hj.
  assert (HCne : C <> []) by (apply nonempty_length; lia).
  unfold vecmat. rewrite (LinAlg.ncols_rows_eq (length s) C HCne HCr).
  rewrite LinAlg.nth_lincomb by assumption.
  rewrite LinAlg.nth_np_diag by exact Hk.
  rewrite LinAlg.dot_comm.
  assert (Hcol : length (col j C) = length s)
    by (unfold col; now rewrite length_map).
  rewrite <- Hcol.
  rewrite (LinAlg.dot_single (fun _ => nth k s 0) k (col j C) 0).
  cbn [Nat.leb]. rewrite Nat.sub_0_r. unfold col.
  rewrite (nth_map_lt (fun r => nth j r 0) C k [] 0) by lia. ring.
Qed.

Lemma nth_matrix_sum (A B : matrix) (k : nat) :
  (k < length A)%nat -> (k < length B)%nat ->
  @nth (list R) k (map2 vadd A B) []
  = vadd (@nth (list R) k A []) (@nth (list R) k B []).
Proof. intros HA HB. now apply nth_map2. Qed.

Lemma nth_matmul (A B : matrix) (k : nat) :
  (k < length A)%nat ->
  @nth (list R) k (matmul A B) [] = vecmat (@nth (list R) k A []) B.
Proof.
  intros HA. unfold matmul.
  now apply (nth_map_lt (fun r => vecmat r B) A k [] []).
Qed.

(** The entries of Sigma. *)
Lemma nth_spec_Sigma (obs_data : list Observation) (obs_stds : ndarray)
  (k j : nat) :
  length obs_stds = length obs_data ->
  (k < length obs_data)%nat -> (j < length obs_data)%nat ->
  nth j (nth k (spec_Sigma distance obs_data obs_stds) []) 0
  = nth k obs_stds 0
    * correlation
        (distance (fst (get_position (nth k obs_data obs_at_origin)))
                  (snd (get_position (nth k obs_data obs_at_origin)))
                  (fst (get_position (nth j obs_data obs_at_origin)))
                  (snd (get_position (nth j obs_data obs_at_origin))))
    * nth j obs_stds 0
    + (if j =? k
       then get_measurement_variance (nth k obs_data obs_at_origin) else 0).
Proof.
  intros Hs Hk Hj. unfold spec_Sigma.
  set (n := length obs_data) in *.
  set (C := construct_spatial_correlation_matrix2
              distance (map get_position obs_data)).
  set (mv := map get_measurement_variance obs_data).
  assert (Hmv : length mv = n) by (unfold mv; apply length_map).
  assert (HCl : length C = n).
  { unfold C. now rewrite length_correlation_matrix, length_map. }
  assert (HCr : rows n C).
  { unfold C. pose proof (rows_correlation_matrix
                            distance (map get_position obs_data)) as H.
    now rewrite length_map in H. }
  rewrite transpose_np_diag.
  set (B1 := matmul (np_diag obs_stds) C).
  assert (HB1l : length B1 = n).
  { unfold B1. now rewrite LinAlg.length_matmul_eq, LinAlg.length_np_diag. }
  assert (HB1r : rows n B1).
  { unfold B1.
    rewrite <- (LinAlg.ncols_rows_eq n C) by (trivial; apply nonempty_length; lia).
    apply rows_matmul.
    now rewrite (LinAlg.ncols_rows_eq n C) by (trivial; apply nonempty_length; lia). }
  set (A2 := matmul B1 (np_diag obs_stds)).
  assert (HA2l : length A2 = n)
    by (unfold A2; now rewrite LinAlg.length_matmul_eq).
  assert (HA2r : rows n A2).
  { unfold A2. rewrite <- Hs, <- (LinAlg.ncols_np_diag obs_stds).
    apply rows_matmul. rewrite LinAlg.ncols_np_diag. apply LinAlg.rows_np_diag. }
  assert (HMr : rows n (np_diag mv))
    by (rewrite <- Hmv; apply LinAlg.rows_np_diag).
  rewrite nth_matrix_sum by (rewrite ?LinAlg.length_np_diag; lia).
  rewrite LinAlg.nth_vadd.
  2:{ rewrite (proj1 (Forall_forall _ _) HA2r); [lia|]. apply nth_In. lia. }
  2:{ rewrite (proj1 (Forall_forall _ _) HMr); [lia|]. apply nth_In.
      rewrite LinAlg.length_np_diag. lia. }
  f_equal.
  - unfold A2. rewrite nth_matmul by lia.
    rewrite nth_row_times_diag.
    2:{ rewrite (proj1 (Forall_forall _ _) HB1r); [lia|]. apply nth_In. lia. }
    2:{ lia. }
    f_equal. unfold B1.
    rewrite nth_matmul by (rewrite LinAlg.length_np_diag; lia).
    rewrite nth_diag_times_matrix by (rewrite ?Hs; trivial).
    f_equal. unfold C, construct_spatial_correlation_matrix2.
    rewrite (nth_map_lt _ (map get_position obs_data) k (0, 0) [])
      by (now rewrite length_map).
    rewrite (nth_map_lt _ (map get_position obs_data) j (0, 0) 0)
      by (now rewrite length_map).
    rewrite !(nth_map_lt get_position obs_data _ obs_at_origin (0, 0))
      by assumption.
    reflexivity.
  - rewrite LinAlg.nth_np_diag by lia. rewrite Hmv.
    rewrite nth_map_seq by exact Hj. unfold mv.
    now rewrite (nth_map_lt get_measurement_variance obs_data k
                            obs_at_origin 0) by exact Hk.
Qed.

(** The covariance array of a grid point that is the place of a station
    measured without error, with the station's standard deviation, is the
    station's row of Sigma. *)
Lemma spec_cov_station_row (obs_data : list Observation)
  (obs_stds : ndarray) (wrf_data : WRFModelData) (mod_stds : ndarray)
  (k p : nat) :
  length obs_stds = length obs_data ->
  (k < length obs_data)%nat ->
  get_position (nth k obs_data obs_at_origin)
  = (nth p (get_lons wrf_data) 0, nth p (get_lats wrf_data) 0) ->
  get_measurement_variance (nth k obs_data obs_at_origin) = 0 ->
  nth k obs_stds 0 = nth p mod_stds 0 ->
  spec_cov distance obs_data obs_stds wrf_data mod_stds p
  = nth k (spec_Sigma distance obs_data obs_stds) [].
Proof.
  intros Hs Hk Hpos Hvar Hstd.
  assert (Hrow : length (nth k (spec_Sigma distance obs_data obs_stds) [])
                 = length obs_data).
  { assert (Hr : rows (length obs_data)
                      (spec_Sigma distance obs_data obs_stds)).
    { unfold spec_Sigma. apply rows_map2_vadd.
      - rewrite <- Hs at 1. rewrite <- (LinAlg.ncols_np_diag obs_stds).
        apply rows_matmul. rewrite LinAlg.ncols_np_diag.
        apply LinAlg.rows_np_diag.
      - rewrite <- (length_map get_measurement_variance obs_data).
        apply LinAlg.rows_np_diag. }
    apply (proj1 (Forall_forall _ _) Hr). apply nth_In.
    now rewrite length_spec_Sigma. }
  apply (list_ext_nth 0).
  - now rewrite length_spec_cov, Hrow.
  - rewrite length_spec_cov. intros j Hj.
    rewrite nth_spec_Sigma by assumption.
    unfold spec_cov. rewrite nth_map_seq by exact Hj.
    rewrite Hpos, Hvar, Hstd. cbn [fst snd].
    destruct (j =? k); ring.
Qed.

Lemma dot_unit_row (n k : nat) (v : ndarray) :
  length v = n -> (k < n)%nat ->
  dot (nth k (eye n) []) v = nth k v 0.
Proof.
  intros Hv Hk. unfold eye.
  rewrite LinAlg.nth_np_diag by (now rewrite repeat_length).
  rewrite repeat_length, LinAlg.dot_comm, <- Hv.
  rewrite (LinAlg.dot_single (fun _ => nth k (repeat 1 (length v)) 0) k v 0).
  cbn [Nat.leb]. rewrite Nat.sub_0_r, LinAlg.repeat_one_nth by lia. ring.
Qed.

End ExactInterpolation.

(** X22.  At a grid point that is the place and the nearest grid point of
    a station measured without error, whose standard deviation is the
    model's there, simple kriging returns the observed value; when the
    distance from the point to itself is 0 the variance it returns there
    is (1 - 0.8565) sigma_mod^2 and not 0, the correlation of a station
    with itself being 0.8565.
    The statement is about the module with
    [construct_spatial_correlation_matrix2] imported ([with_import]); as
    given, the call raises [NameError] where Sigma is assembled. *)
Theorem simple_kriging_exact_at_station (distance : R -> R -> R -> R -> R)
  (obs_data : list Observation) (obs_stds mu_mod : ndarray)
  (wrf_data : WRFModelData) (mod_stds : ndarray) (t : nat) (SigInv : matrix)
  (k p : nat) :
  kriging_inputs obs_data obs_stds mu_mod wrf_data mod_stds ->
  is_inverse (spec_Sigma distance obs_data obs_stds) SigInv ->
  (k < length obs_data)%nat ->
  get_nearest_grid_point (nth k obs_data obs_at_origin) = p ->
  get_position (nth k obs_data obs_at_origin)
  = (nth p (get_lons wrf_data) 0, nth p (get_lats wrf_data) 0) ->
  get_measurement_variance (nth k obs_data obs_at_origin) = 0 ->
  nth k obs_stds 0 = nth p mod_stds 0 ->
  distance (nth p (get_lons wrf_data) 0) (nth p (get_lats wrf_data) 0)
           (nth p (get_lons wrf_data) 0) (nth p (get_lats wrf_data) 0) = 0 ->
  exists K V,
    simple_kriging_data_to_model distance (with_import distance) obs_data obs_stds mu_mod wrf_data
                                 mod_stds t = Ok (K, V) /\
    nth p K 0 = get_value (nth k obs_data obs_at_origin) /\
    nth p V 0 = (1 - 0.8565) * nth p mod_stds 0 ^ 2.
Proof.
  intros Hfit Hinv Hk Hgrid Hpos Hvar Hstd Hself.
  rewrite (simple_kriging_run distance _ _ _ _ _ t SigInv Hfit Hinv).
  destruct Hfit as (Hne & Hs & Hlon & Hmu & Hmod & Hin).
  assert (Hp : (p < length mu_mod)%nat).
  { rewrite <- Hgrid.
    apply (proj1 (Forall_forall _ _) Hin). now apply nth_In. }
  do 2 eexists. split; [reflexivity|].
  rewrite !nth_map_seq by exact Hp.
  pose proof (length_spec_Sigma distance obs_data obs_stds Hs) as HSl.
  pose proof Hinv as (_ & _ & HAB & _). rewrite HSl in HAB.
  assert (Hw : vecmat (spec_cov distance obs_data obs_stds wrf_data mod_stds p)
                      SigInv
               = nth k (eye (length obs_data)) []).
  { rewrite (spec_cov_station_row distance obs_data obs_stds wrf_data
               mod_stds k p) by assumption.
    rewrite <- HAB. symmetry. apply nth_matmul. now rewrite HSl. }
  unfold spec_K, spec_V. rewrite Hw.
  rewrite !dot_unit_row;
    try exact Hk;
    [| now rewrite length_spec_cov
     | unfold spec_residuals; rewrite length_map2, length_map, length_sampled;
       lia].
  split.
  - unfold spec_residuals.
    rewrite (nth_map2 Rminus _ _ k 0 0 0)
      by (rewrite ?length_map, ?length_sampled; exact Hk).
    unfold sampled.
    rewrite !(nth_map_lt _ obs_data k obs_at_origin 0) by exact Hk.
    rewrite Hgrid. ring.
  - unfold spec_cov. rewrite nth_map_seq by exact Hk.
    rewrite Hpos. cbn [fst snd]. rewrite Hself, correlation_at_zero, Hstd.
    ring.
Qed.

Lemma simple_kriging_exact_at_station_witness :
  exists K V,
    simple_kriging_data_to_model great_circle_distance_km (with_import great_circle_distance_km) [obs_exact] [0.1]
                                 flat_field one_cell_grid [0.1] 1
    = Ok (K, V) /\
    nth 0 K 0 = get_value (nth 0 [obs_exact] obs_at_origin) /\
    nth 0 V 0 = (1 - 0.8565) * nth 0 [0.1] 0 ^ 2.
Proof.
  assert (Hinv : is_inverse
                   (spec_Sigma great_circle_distance_km [obs_exact] [0.1])
                   [[1 / (0.1 * 0.8565 * 0.1 + 0)]]).
  { rewrite spec_Sigma_single.
    cbn [obs_exact get_position get_measurement_variance fst snd].
    rewrite GreatCircle.distance_to_itself, correlation_at_zero.
    apply is_inverse_1x1. lra. }
  apply (simple_kriging_exact_at_station great_circle_distance_km [obs_exact]
           [0.1] flat_field one_cell_grid [0.1] 1 _ 0 0 ltac:(repeat split; try discriminate; repeat constructor) Hinv);
    try reflexivity.
  - simpl. lia.
  - cbn. apply GreatCircle.distance_to_itself.
Defined.
